(** * Hybrid Firefly / discrete PSO for cloudlet placement

    A shallow embedding of [src/problem.py] (class [CloudletProblem]),
    [src/hybrid_ff_pso.py] (classes [Particle] and [HybridFFPSO]),
    [src/utils.py] and [src/experiments.py], and the properties of the
    specification checked against it.

    Conventions of the embedding.
    - Python floats are idealised as rationals ([Q]); equalities between
      computed numbers are stated with [==].  [np.inf] is a separate
      constructor ([score]).  Sums are exact and no number overflows: a
      statement in which the rounding of an accumulated load, or a fitness
      that overflows, could decide a comparison is stated on instances where
      float64 adds the loads exactly ([exact_loads]) or where the fitness
      stays below the largest float64 ([bounded_instance]).
    - Python and numpy integers are [Z]; the sizes P, E, T and the indices
      of [range] loops are [nat].
    - numpy integer arrays are [list Z]; reading or writing them outside
      their bounds raises [IndexError], as numpy does.
    - Exceptions are values of [result]; a loop is a fold over [range],
      the variables it updates being the accumulator.
    - Functions that draw random numbers thread the state of the
      generators, which are an interface ([RandomSource]).
    - The optimizer never shares an array between two particles, so its
      arrays are values; [repair_solution], whose contract is about which
      arrays it writes, runs on an explicit store of arrays. *)

From Stdlib Require Import QArith ZArith Lia Lqa List Bool Sorted.
From stdpp Require Import base list.

Local Open Scope Z_scope.

(** ** Exceptions *)

Inductive exn : Type := IndexError | ValueError.

Inductive result (A : Type) : Type :=
| Ok (a : A)
| Raise (e : exn).
Arguments Ok {A} a.
Arguments Raise {A} e.

#[global] Instance result_ret : MRet result := fun _ a => Ok a.
#[global] Instance result_bind : MBind result := fun _ _ f m =>
  match m with Ok a => f a | Raise e => Raise e end.

(** State threaded through fallible code. *)
Definition M (S A : Type) : Type := S -> result (A * S).

#[global] Instance M_ret {S} : MRet (M S) := fun _ a s => Ok (a, s).
#[global] Instance M_bind {S} : MBind (M S) := fun _ _ f m s =>
  match m s with Ok (a, s') => f a s' | Raise e => Raise e end.

Definition raise {S A} (e : exn) : M S A := fun _ => Raise e.
Definition lift_result {S A} (r : result A) : M S A := fun s =>
  match r with Ok a => Ok (a, s) | Raise e => Raise e end.

(** [for x in xs: body], the loop-carried variables being [a]. *)
Fixpoint for_each `{MBind F, MRet F} {X A} (xs : list X) (body : X -> A -> F A) (a : A) : F A :=
  match xs with
  | [] => mret a
  | x :: xs' => a' ← body x a; for_each xs' body a'
  end.

(** The same with [break]: the body also says whether it broke out. *)
Fixpoint for_break `{MBind F, MRet F} {X A} (xs : list X) (body : X -> A -> F (A * bool)%type) (a : A) : F A :=
  match xs with
  | [] => mret a
  | x :: xs' =>
      r ← body x a;
      if snd (r : A * bool) then mret (fst r) else for_break xs' body (fst r)
  end.

(** [range(n)] *)
Definition range (n : nat) : list nat := seq 0 n.

(** ** Numbers *)

(** [x < y] on floats. *)
Definition Qltb (x y : Q) : bool := negb (Qle_bool y x).
(** [x <= y] on floats. *)
Definition Qleb (x y : Q) : bool := Qle_bool x y.

(** A float that may be [np.inf]. *)
Inductive score : Type := Fin (q : Q) | Inf.

(** [q < s] for a float [q] and a score [s]: a finite [q] is below
    [np.inf]. *)
Definition lt_score (q : Q) (s : score) : bool :=
  match s with Fin x => Qltb q x | Inf => true end.

(** ** Arrays *)

(** [a[i]] for [i >= 0] on a numpy array or a list. *)
Definition np_get {A} (a : list A) (i : nat) : result A :=
  match a !! i with Some x => Ok x | None => Raise IndexError end.

(** [a[i] = v] for [i >= 0] on a numpy array. *)
Definition np_set {A} (a : list A) (i : nat) (v : A) : result (list A) :=
  if decide (i < length a)%nat then Ok (<[i := v]> a) else Raise IndexError.

(** [l[i]] on a Python list: a negative index counts from the end. *)
Definition py_index {A} (l : list A) (i : Z) : result A :=
  let n := Z.of_nat (length l) in
  if (0 <=? i) && (i <? n) then np_get l (Z.to_nat i)
  else if (- n <=? i) && (i <? 0) then np_get l (Z.to_nat (n + i))
  else Raise IndexError.

(** [a[i] += d] on a float array, [i] in range; the sum is exact. *)
Definition add_at (a : list Q) (i : nat) (d : Q) : list Q :=
  match a !! i with Some x => <[i := (x + d)%Q]> a | None => a end.

(** ** The problem instance ([CloudletProblem.__init__]) *)

Record CloudletType : Type := {
  CPU : Q; MEM : Q; STO : Q; R : Q; base_cost : Q
}.

Record Demand : Type := { cpu : Q; mem : Q; sto : Q }.

(** The attributes of a constructed [CloudletProblem].  [dist] is the
    (E,P) matrix of device-to-location distances the constructor computes,
    [placement_cost_table] is [self.placement_cost], of shape (T,P), and
    [demands] has one entry per device: the three tables are total on their
    index ranges and are read as functions of the indices. *)
Record CloudletProblem : Type := {
  cloudlet_types : list CloudletType;
  demands : nat -> Demand;
  placement_cost_table : nat -> nat -> Q;
  dist : nat -> nat -> Q;
  P : nat;
  E : nat
}.

Definition T (pb : CloudletProblem) : nat := length (cloudlet_types pb).

(** The coordinates of an instance: a Python list of points, or a numpy
    array of shape (n, 2), as [generate_instance] makes them.  [np.array] of
    a list without elements is an array of one dimension. *)
Inductive Points : Type :=
  | PyList (pts : list (Q * Q))
  | Array2 (pts : list (Q * Q)).

Definition points (c : Points) : list (Q * Q) :=
  match c with PyList pts | Array2 pts => pts end.

(** [np.array(c)] has two dimensions, so that [dev[:, None, :]] and
    [loc[None, :, :]] can index it. *)
Definition two_dimensional (c : Points) : bool :=
  match c with PyList [] => false | _ => true end.

(** The [instance] dictionary. *)
Record Instance : Type := {
  locations : Points;
  devices : Points;
  instance_cloudlet_types : list CloudletType;
  devices_demands : nat -> Demand;
  instance_placement_cost : nat -> nat -> Q
}.

Section ProblemInit.

(** [np.linalg.norm] of the vector [(dx, dy)], as floats compute it. *)
Variable norm : Q -> Q -> Q.

(** [np.linalg.norm(dev[:, None, :] - loc[None, :, :], axis=2)[e, p]] *)
Definition distance (dev loc : list (Q * Q)) (e p : nat) : Q :=
  match dev !! e, loc !! p with
  | Some d, Some l => norm (fst d - fst l) (snd d - snd l)
  | _, _ => 0%Q
  end.

(** [CloudletProblem.__init__(instance)]: the attributes are taken from the
    instance as they are; the only step that can fail is the indexing of
    the two coordinate arrays, the devices first. *)
Definition CloudletProblem_init (instance : Instance) : result CloudletProblem :=
  if two_dimensional (devices instance) then
    if two_dimensional (locations instance) then
      Ok {| cloudlet_types := instance_cloudlet_types instance;
            demands := devices_demands instance;
            placement_cost_table := instance_placement_cost instance;
            dist := distance (points (devices instance)) (points (locations instance));
            P := length (points (locations instance));
            E := length (points (devices instance)) |}
    else Raise IndexError
  else Raise IndexError.

End ProblemInit.

(** [self.placement_cost[c, p]] for [c >= 0]: a (T,P) numpy array. *)
Definition cost_at (pb : CloudletProblem) (c : Z) (p : nat) : result Q :=
  if (c <? Z.of_nat (T pb)) && (Nat.ltb p (P pb))
  then Ok (placement_cost_table pb (Z.to_nat c) p)
  else Raise IndexError.

(** ** [CloudletProblem.evaluate] *)

Record Metrics : Type := {
  placement_cost : Q;
  latency : Q;
  penalty : Q;
  fitness : Q
}.

(** [p < 0 or p >= self.P] *)
Definition out_of_range (pb : CloudletProblem) (p : Z) : bool :=
  (p <? 0) || (Z.of_nat (P pb) <=? p).

Definition placement_step (pb : CloudletProblem) (place_loc : list Z)
    (p : nat) (placement_total : Q) : result Q :=
  c ← np_get place_loc p;
  if 0 <? c then
    pc ← cost_at pb (c - 1) p;
    mret (placement_total + pc)%Q
  else mret placement_total.

Definition latency_step (pb : CloudletProblem) (assign_dev : list Z)
    (e : nat) (lat : Q) : result Q :=
  p ← np_get assign_dev e;
  if out_of_range pb p then mret (lat + 1000000)%Q
  else mret (lat + dist pb e (Z.to_nat p))%Q.

Definition coverage_step (pb : CloudletProblem) (place_loc assign_dev : list Z)
    (e : nat) (penalty : Q) : result Q :=
  p ← np_get assign_dev e;
  if out_of_range pb p then mret (penalty + 100000)%Q
  else
    c ← np_get place_loc (Z.to_nat p);
    if c =? 0 then mret (penalty + 100000)%Q
    else
      t ← py_index (cloudlet_types pb) (c - 1);
      if Qltb (R t + (1 # 1000000000)) (dist pb e (Z.to_nat p))
      then mret (penalty + 100000)%Q
      else mret penalty.

(** The three arrays [cpu_used], [mem_used], [sto_used]. *)
Record Usage : Type := {
  cpu_used : list Q;
  mem_used : list Q;
  sto_used : list Q
}.

Definition zero_usage (n : nat) : Usage :=
  {| cpu_used := replicate n 0%Q; mem_used := replicate n 0%Q; sto_used := replicate n 0%Q |}.

Definition add_usage (u : Usage) (p : nat) (d : Demand) : Usage :=
  {| cpu_used := add_at (cpu_used u) p (cpu d);
     mem_used := add_at (mem_used u) p (mem d);
     sto_used := add_at (sto_used u) p (sto d) |}.

Definition usage_step (pb : CloudletProblem) (assign_dev : list Z)
    (e : nat) (u : Usage) : result Usage :=
  p ← np_get assign_dev e;
  if out_of_range pb p then mret u
  else mret (add_usage u (Z.to_nat p) (demands pb e)).

(** [used[p]] for [p] in [range(P)]. *)
Definition used_at (a : list Q) (p : nat) : Q := default 0%Q (a !! p).

(** [penalty += (used - cap) * 1e4] when [used > cap + 1e-9]. *)
Definition overage_term (used cap : Q) (penalty : Q) : Q :=
  if Qltb (cap + (1 # 1000000000)) used
  then (penalty + (used - cap) * 10000)%Q else penalty.

Definition capacity_step (pb : CloudletProblem) (place_loc : list Z) (u : Usage)
    (p : nat) (penalty : Q) : result Q :=
  c ← np_get place_loc p;
  if c =? 0 then
    if Qltb 0 (used_at (cpu_used u) p) || Qltb 0 (used_at (mem_used u) p)
       || Qltb 0 (used_at (sto_used u) p)
    then mret (penalty + 1000000)%Q
    else mret penalty
  else
    t ← py_index (cloudlet_types pb) (c - 1);
    mret (overage_term (used_at (sto_used u) p) (STO t)
           (overage_term (used_at (mem_used u) p) (MEM t)
             (overage_term (used_at (cpu_used u) p) (CPU t) penalty))).

Definition w_cost : Q := 4 # 10.
Definition w_lat : Q := 6 # 10.

Definition evaluate (pb : CloudletProblem) (place_loc assign_dev : list Z)
    (penalty_coeff : Q) : result Metrics :=
  placement_total ← for_each (range (P pb)) (placement_step pb place_loc) 0%Q;
  lat ← for_each (range (E pb)) (latency_step pb assign_dev) 0%Q;
  penalty1 ← for_each (range (E pb)) (coverage_step pb place_loc assign_dev) 0%Q;
  u ← for_each (range (E pb)) (usage_step pb assign_dev) (zero_usage (P pb));
  penalty ← for_each (range (P pb)) (capacity_step pb place_loc u) penalty1;
  mret {| placement_cost := placement_total;
          latency := lat;
          penalty := penalty;
          fitness := (w_cost * placement_total + w_lat * lat + penalty * penalty_coeff)%Q |}.

(** The default [penalty_coeff=1e6]. *)
Definition default_penalty_coeff : Q := 1000000.

(** ** The random number generators

    The code draws from Python's [random] module and from [numpy.random],
    both seeded in [HybridFFPSO.__init__].  Neither generator is part of the
    repository: they are an interface, a state [rng] holding both and one
    primitive per kind of draw, with the range each draw is documented to
    stay in. *)

Class RandomSource : Type := {
  rng : Type;
  (** [random.seed(seed); np.random.seed(seed)] *)
  seed_rng : Z -> rng;
  (** [random.random()] *)
  draw_random : rng -> Q * rng;
  (** [random.randint(a, b)], both ends included, for [a <= b] *)
  draw_randint : Z -> Z -> rng -> Z * rng;
  (** [np.random.randint(low, high)], [high] excluded, for [low < high] *)
  draw_np_randint : Z -> Z -> rng -> Z * rng;
  (** [np.random.choice(n, size=k, replace=False)] for [k <= n] *)
  draw_np_sample : nat -> nat -> rng -> list nat * rng;
  (** the position [np.random.choice(a)] picks in a sequence of length [n > 0] *)
  draw_np_position : nat -> rng -> nat * rng;
  draw_random_unit : forall g, (0 <= fst (draw_random g) /\ fst (draw_random g) < 1)%Q;
  draw_randint_range : forall a b g, a <= b ->
    a <= fst (draw_randint a b g) <= b;
  draw_np_randint_range : forall lo hi g, lo < hi ->
    lo <= fst (draw_np_randint lo hi g) < hi;
  draw_np_sample_spec : forall n k g, (k <= n)%nat ->
    length (fst (draw_np_sample n k g)) = k /\
    NoDup (fst (draw_np_sample n k g)) /\
    Forall (fun p => (p < n)%nat) (fst (draw_np_sample n k g));
  draw_np_position_range : forall n g, (0 < n)%nat ->
    (fst (draw_np_position n g) < n)%nat
}.

(** The seeds [np.random.seed] accepts: the integers of [0, 2^32 - 1]. *)
Definition valid_seed (seed : Z) : Prop := 0 <= seed <= 4294967295.

Section Random.
Context {RS : RandomSource}.

(** [random.seed(seed); np.random.seed(seed)]: [random.seed] takes every
    integer, [np.random.seed] raises [ValueError] for a seed outside
    [0, 2^32 - 1]. *)
Definition seed_generators (seed : Z) : result rng :=
  if (0 <=? seed) && (seed <=? 4294967295) then Ok (seed_rng seed) else Raise ValueError.

(** [random.random()] *)
Definition random_random : M rng Q := fun g => Ok (draw_random g).

(** [random.randint(a, b)]: [ValueError] on an empty range. *)
Definition random_randint (a b : Z) : M rng Z := fun g =>
  if a <=? b then Ok (draw_randint a b g) else Raise ValueError.

(** [np.random.randint(low, high)]: [ValueError] when [low >= high]. *)
Definition np_random_randint (lo hi : Z) : M rng Z := fun g =>
  if lo <? hi then Ok (draw_np_randint lo hi g) else Raise ValueError.

(** [np.random.choice(n, size=k, replace=False)]: [ValueError] for a
    negative size or a sample larger than the population. *)
Definition np_random_choice_range (n : nat) (k : Z) : M rng (list nat) := fun g =>
  if (0 <=? k) && (k <=? Z.of_nat n) then Ok (draw_np_sample n (Z.to_nat k) g)
  else Raise ValueError.

(** [np.random.choice(a)] for a list [a]: [ValueError] when it is empty. *)
Definition np_random_choice {A} (a : list A) : M rng A := fun g =>
  match a with
  | [] => Raise ValueError
  | x :: _ =>
      let (i, g') := draw_np_position (length a) g in
      Ok (nth i a x, g')
  end.

(** ** [CloudletProblem.random_solution] *)

(** [np.argmin]: the first index at which [f] is smallest over
    [range(n)]; [ValueError] on an empty row. *)
Fixpoint argmin_from (f : nat -> Q) (best : nat) (ps : list nat) : nat :=
  match ps with
  | [] => best
  | p :: ps' => if Qltb (f p) (f best) then argmin_from f p ps' else argmin_from f best ps'
  end.

Definition np_argmin (f : nat -> Q) (n : nat) : result nat :=
  match n with
  | O => Raise ValueError
  | S n' => Ok (argmin_from f 0%nat (seq 1 n'))
  end.

(** The locations [p] in [range(P)] with a cloudlet placed whose radius
    reaches device [e]: the inner loop shared by [random_solution]
    ([candidates]) and [repair_solution] ([feasible[e]]). *)
Definition covering_step (pb : CloudletProblem) (place_loc : list Z) (e : nat)
    (p : nat) (acc : list nat) : result (list nat) :=
  c ← np_get place_loc p;
  if 0 <? c then
    t ← py_index (cloudlet_types pb) (c - 1);
    if Qleb (dist pb e p) (R t) then mret (acc ++ [p]) else mret acc
  else mret acc.

Definition covering (pb : CloudletProblem) (place_loc : list Z) (e : nat) : result (list nat) :=
  for_each (range (P pb)) (covering_step pb place_loc e) [].

Definition place_random_type (pb : CloudletProblem) (p : nat) (place_loc : list Z)
    : M rng (list Z) :=
  t ← np_random_randint 0 (Z.of_nat (T pb));
  lift_result (np_set place_loc p (t + 1)).

Definition assign_random (pb : CloudletProblem) (place_loc : list Z)
    (e : nat) (assign_dev : list Z) : M rng (list Z) :=
  candidates ← lift_result (covering pb place_loc e);
  if (length candidates =? 0)%nat then
    near ← lift_result (np_argmin (dist pb e) (P pb));
    lift_result (np_set assign_dev e (Z.of_nat near))
  else
    p ← np_random_choice candidates;
    lift_result (np_set assign_dev e (Z.of_nat p)).

Definition random_solution (pb : CloudletProblem) (max_active_locations : option Z)
    : M rng (list Z * list Z) :=
  let max_active_locations :=
    match max_active_locations with
    | None => Z.max 1 (Z.of_nat (P pb) / 4)
    | Some m => m
    end in
  active_count ← np_random_randint 1 (max_active_locations + 1);
  loc_indices ← np_random_choice_range (P pb) active_count;
  place_loc ← for_each loc_indices (place_random_type pb) (replicate (P pb) 0);
  assign_dev ← for_each (range (E pb)) (assign_random pb place_loc) (replicate (E pb) 0);
  mret (place_loc, assign_dev).

End Random.

(** ** Sorting

    [sorted] and [list.sort] are stable: elements with equal keys keep
    their order, also with [reverse=True].  [before x y] says that [x] must
    come strictly before [y]. *)

Fixpoint insert_by {A} (before : A -> A -> bool) (x : A) (l : list A) : list A :=
  match l with
  | [] => [x]
  | y :: l' => if before y x then y :: insert_by before x l' else x :: y :: l'
  end.

Definition sort_by {A} (before : A -> A -> bool) (l : list A) : list A :=
  foldr (insert_by before) [] l.

(** ** The store of arrays

    [repair_solution] receives two numpy arrays by reference.  A reference
    is an index into the store; [a.copy()] allocates a new array at the end
    of the store. *)

Definition ref : Type := nat.

Section Repair.
Context {RS : RandomSource}.

Record RepState : Type := {
  store : list (list Z);
  gen : rng
}.

(** [a.copy()] *)
Definition array_copy (r : ref) : M RepState ref := fun s =>
  match store s !! r with
  | Some a => Ok (length (store s), {| store := store s ++ [a]; gen := gen s |})
  | None => Raise IndexError
  end.

(** The current contents of an array. *)
Definition array_read (r : ref) : M RepState (list Z) := fun s =>
  match store s !! r with
  | Some a => Ok (a, s)
  | None => Raise IndexError
  end.

(** [a[i]] *)
Definition array_get (r : ref) (i : nat) : M RepState Z :=
  a ← array_read r; lift_result (np_get a i).

(** [a[i] = v], in place. *)
Definition array_set (r : ref) (i : nat) (v : Z) : M RepState unit := fun s =>
  match store s !! r with
  | Some a =>
      match np_set a i v with
      | Ok a' => Ok (tt, {| store := <[r := a']> (store s); gen := gen s |})
      | Raise e => Raise e
      end
  | None => Raise IndexError
  end.

(** A draw, which leaves the store alone. *)
Definition with_rng {A} (m : M rng A) : M RepState A := fun s =>
  match m (gen s) with
  | Ok (a, g') => Ok (a, {| store := store s; gen := g' |})
  | Raise e => Raise e
  end.

(** ** [CloudletProblem.repair_solution] *)

(** [feasible[e]] *)
Definition feasible_of (feasible : list (list nat)) (e : nat) : list nat :=
  default [] (feasible !! e).

(** The first [t_idx] of [enumerate(self.cloudlet_types)] whose radius
    reaches distance [d] ([chosen]). *)
Fixpoint first_covering (types : list CloudletType) (d : Q) (t_idx : nat) : option nat :=
  match types with
  | [] => None
  | t :: types' => if Qleb d (R t) then Some t_idx else first_covering types' d (S t_idx)
  end.

Definition feasible_step (pb : CloudletProblem) (place_loc : ref)
    (e : nat) (feasible : list (list nat)) : M RepState (list (list nat)) :=
  pl ← array_read place_loc;
  fe ← lift_result (covering pb pl e);
  mret (feasible ++ [fe]).

Definition fix_step (pb : CloudletProblem) (place_loc assign_dev : ref)
    (e : nat) (feasible : list (list nat)) : M RepState (list (list nat)) :=
  p ← array_get assign_dev e;
  if out_of_range pb p || negb (bool_decide (Z.to_nat p ∈ feasible_of feasible e)) then
    if (0 <? length (feasible_of feasible e))%nat then
      q ← with_rng (np_random_choice (feasible_of feasible e));
      _ ← array_set assign_dev e (Z.of_nat q);
      mret feasible
    else
      near_p ← lift_result (np_argmin (dist pb e) (P pb));
      match first_covering (cloudlet_types pb) (dist pb e near_p) 0 with
      | Some chosen =>
          _ ← array_set place_loc near_p (Z.of_nat chosen + 1);
          _ ← array_set assign_dev e (Z.of_nat near_p);
          mret (<[e := feasible_of feasible e ++ [near_p]]> feasible)
      | None =>
          _ ← array_set assign_dev e (Z.of_nat near_p);
          mret feasible
      end
  else mret feasible.

(** [capacity_of(p)] *)
Definition capacity_of (pb : CloudletProblem) (place_loc : ref) (p : nat)
    : M RepState (Q * Q * Q) :=
  c ← array_get place_loc p;
  if c =? 0 then mret (0%Q, 0%Q, 0%Q)
  else
    t ← lift_result (py_index (cloudlet_types pb) (c - 1));
    mret (CPU t, MEM t, STO t).

(** [demands[e]['cpu'] + demands[e]['mem'] + demands[e]['sto']] *)
Definition demand_sum (pb : CloudletProblem) (e : nat) : Q :=
  (cpu (demands pb e) + mem (demands pb e) + sto (demands pb e))%Q.

(** [used[p] -= d] on the three arrays. *)
Definition sub_usage (u : Usage) (p : nat) (d : Demand) : Usage :=
  {| cpu_used := add_at (cpu_used u) p (- cpu d);
     mem_used := add_at (mem_used u) p (- mem d);
     sto_used := add_at (sto_used u) p (- sto d) |}.

(** [[e for e in range(E) if assign_dev[e] == p]] *)
Definition assigned_step (assign_dev : list Z) (p : nat) (e : nat) (acc : list nat)
    : result (list nat) :=
  q ← np_get assign_dev e;
  if q =? Z.of_nat p then mret (acc ++ [e]) else mret acc.

(** One device of an overloaded location [p]: the body of
    [for e in assigned_devices]. *)
Definition move_device (pb : CloudletProblem) (assign_dev : ref)
    (feasible : list (list nat)) (p : nat) (cap : Q * Q * Q)
    (e : nat) (st : Usage * bool) : M RepState ((Usage * bool) * bool) :=
  let alt := filter (fun pp => pp ≠ p) (feasible_of feasible e) in
  if (length alt =? 0)%nat then mret (st, false)
  else
    newp ← lift_result (np_get (sort_by (fun a b => Qltb (dist pb e a) (dist pb e b)) alt) 0);
    let d := demands pb e in
    let u := add_usage (sub_usage (fst st) p d) newp d in
    _ ← array_set assign_dev e (Z.of_nat newp);
    mret ((u, true),
          Qleb (used_at (cpu_used u) p) (fst (fst cap))
          && Qleb (used_at (mem_used u) p) (snd (fst cap))
          && Qleb (used_at (sto_used u) p) (snd cap)).

(** One location: the body of [for p in range(self.P)] of a pass. *)
Definition relieve (pb : CloudletProblem) (place_loc assign_dev : ref)
    (feasible : list (list nat)) (p : nat) (st : Usage * bool)
    : M RepState (Usage * bool) :=
  c ← array_get place_loc p;
  if c =? 0 then mret st
  else
    cap ← capacity_of pb place_loc p;
    let over_cpu := (used_at (cpu_used (fst st)) p - fst (fst cap))%Q in
    let over_mem := (used_at (mem_used (fst st)) p - snd (fst cap))%Q in
    let over_sto := (used_at (sto_used (fst st)) p - snd cap)%Q in
    if Qltb 0 over_cpu || Qltb 0 over_mem || Qltb 0 over_sto then
      ad ← array_read assign_dev;
      assigned_devices ← lift_result (for_each (range (E pb)) (assigned_step ad p) []);
      for_break
        (sort_by (fun a b => Qltb (demand_sum pb b) (demand_sum pb a)) assigned_devices)
        (move_device pb assign_dev feasible p cap) st
    else mret st.

(** One pass of [for _ in range(3)]; it breaks when nothing moved. *)
Definition relief_pass (pb : CloudletProblem) (place_loc assign_dev : ref)
    (feasible : list (list nat)) (_ : nat) (_ : unit) : M RepState (unit * bool) :=
  ad ← array_read assign_dev;
  u ← lift_result (for_each (range (E pb)) (usage_step pb ad) (zero_usage (P pb)));
  st ← for_each (range (P pb)) (relieve pb place_loc assign_dev feasible) (u, false);
  mret (tt, negb (snd (st : Usage * bool))).

Definition repair_solution (pb : CloudletProblem) (place_loc assign_dev : ref)
    : M RepState (ref * ref) :=
  place_loc ← array_copy place_loc;
  assign_dev ← array_copy assign_dev;
  feasible ← for_each (range (E pb)) (feasible_step pb place_loc) [];
  feasible ← for_each (range (E pb)) (fix_step pb place_loc assign_dev) feasible;
  _ ← for_break (range 3) (relief_pass pb place_loc assign_dev feasible) tt;
  mret (place_loc, assign_dev).

(** What [repair_solution] does after the two copies, in place, on the two
    arrays [place_loc] and [assign_dev] then name. *)
Definition repair_in_place (pb : CloudletProblem) (place_loc assign_dev : ref)
    : M RepState unit :=
  feasible ← for_each (range (E pb)) (feasible_step pb place_loc) [];
  feasible ← for_each (range (E pb)) (fix_step pb place_loc assign_dev) feasible;
  for_break (range 3) (relief_pass pb place_loc assign_dev feasible) tt.

(** [repair_solution] called on two arrays that nothing else refers to, and
    the contents of the two arrays it returns: what the optimizer's
    [part.place_loc, part.assign_dev = repair_solution(...)] observes. *)
Definition repair_solution_values (pb : CloudletProblem) (place_loc assign_dev : list Z)
    : M rng (list Z * list Z) := fun g =>
  match repair_solution pb 0%nat 1%nat {| store := [place_loc; assign_dev]; gen := g |} with
  | Ok ((rp, ra), s) =>
      match store s !! rp, store s !! ra with
      | Some a, Some b => Ok ((a, b), gen s)
      | _, _ => Raise IndexError
      end
  | Raise e => Raise e
  end.

End Repair.

(** ** The archive ([HybridFFPSO.nondominated_archive_update]) *)

Record ArchiveEntry : Type := {
  entry_place_loc : list Z;
  entry_assign_dev : list Z;
  metrics : Metrics
}.

(** [a] dominates [b] on (placement_cost, latency): the test written out
    twice in the loop. *)
Definition dominates (a b : Metrics) : bool :=
  Qleb (placement_cost a) (placement_cost b)
  && Qleb (latency a) (latency b)
  && (Qltb (placement_cost a) (placement_cost b) || Qltb (latency a) (latency b)).

(** [for i, entry in enumerate(self.archive)]: the result is [dominated]
    and [removals]. *)
Fixpoint scan_archive (entries : list (nat * ArchiveEntry)) (m : Metrics)
    (removals : list nat) : bool * list nat :=
  match entries with
  | [] => (false, removals)
  | (i, entry) :: rest =>
      if dominates (metrics entry) m then (true, removals)
      else if dominates m (metrics entry) then scan_archive rest m (removals ++ [i])
      else scan_archive rest m removals
  end.

(** [enumerate(l)] *)
Fixpoint enumerate_from {A} (k : nat) (l : list A) : list (nat * A) :=
  match l with
  | [] => []
  | x :: l' => (k, x) :: enumerate_from (S k) l'
  end.

Definition enumerate {A} (l : list A) : list (nat * A) := enumerate_from 0 l.

(** [for idx in sorted(removals, reverse=True): self.archive.pop(idx)];
    every index comes from [enumerate], so [pop] is within bounds. *)
Definition pop_all (archive : list ArchiveEntry) (removals : list nat) : list ArchiveEntry :=
  fold_left (fun a idx => delete idx a) (sort_by (fun a b => Nat.ltb b a) removals) archive.

Definition nondominated_archive_update (archive : list ArchiveEntry)
    (sol : list Z * list Z) (m : Metrics) : list ArchiveEntry :=
  let (dominated, removals) := scan_archive (enumerate archive) m [] in
  if negb dominated then
    pop_all archive removals
      ++ [ {| entry_place_loc := fst sol; entry_assign_dev := snd sol; metrics := m |} ]
  else archive.

(** ** The optimizer ([Particle], [HybridFFPSO]) *)

(** [v_place] and [v_assign] are written once by the constructor and read
    nowhere; they are left out.  No two particles share an array: the
    constructor, the best-so-far snapshots and [repair_solution] all copy. *)
Record Particle : Type := {
  place_loc : list Z;
  assign_dev : list Z;
  pbest_place : list Z;
  pbest_assign : list Z;
  pbest_score : score
}.

Definition new_particle (place_loc assign_dev : list Z) : Particle :=
  {| place_loc := place_loc; assign_dev := assign_dev;
     pbest_place := place_loc; pbest_assign := assign_dev;
     pbest_score := Inf |}.

Record HybridFFPSO : Type := {
  problem : CloudletProblem;
  pop_size : Z;
  max_iter : Z;
  population : list Particle;
  global_best : option (list Z * list Z);
  global_best_score : score;
  archive : list ArchiveEntry
}.

Section Optimizer.
Context {RS : RandomSource}.

Definition init_step (pb : CloudletProblem) (_ : nat) (population : list Particle)
    : M rng (list Particle) :=
  sol ← random_solution pb None;
  mret (population ++ [new_particle (fst sol) (snd (sol : list Z * list Z))]).

(** [HybridFFPSO.__init__(problem, pop_size, max_iter, seed)] *)
Definition HybridFFPSO_init (pb : CloudletProblem) (pop_size max_iter seed : Z)
    : result (HybridFFPSO * rng) :=
  g ← seed_generators seed;
  population ← for_each (range (Z.to_nat pop_size)) (init_step pb) [] g;
  mret ({| problem := pb; pop_size := pop_size; max_iter := max_iter;
           population := fst population;
           global_best := None; global_best_score := Inf; archive := [] |},
        snd (population : list Particle * rng)).

(** [evaluate_population] *)
Definition evaluate_population (o : HybridFFPSO) : result (list Metrics) :=
  for_each (population o)
    (fun part evals =>
       r ← evaluate (problem o) (place_loc part) (assign_dev part) default_penalty_coeff;
       mret (evals ++ [r]))
    [].

(** *** [firefly_move] *)

Definition firefly_slot (prob : Q) (brighter : list Z) (i : nat) (mine : list Z)
    : M rng (list Z) :=
  b ← lift_result (np_get brighter i);
  c ← lift_result (np_get mine i);
  if negb (b =? c) then
    r ← random_random;
    if Qltb r prob then lift_result (np_set mine i b) else mret mine
  else mret mine.

Definition firefly_move (pb : CloudletProblem) (part brighter_part : Particle)
    : M rng Particle :=
  pl ← for_each (range (P pb)) (firefly_slot (1 # 2) (place_loc brighter_part)) (place_loc part);
  ad ← for_each (range (E pb)) (firefly_slot (4 # 10) (assign_dev brighter_part)) (assign_dev part);
  mret {| place_loc := pl; assign_dev := ad;
          pbest_place := pbest_place part; pbest_assign := pbest_assign part;
          pbest_score := pbest_score part |}.

(** *** [local_pso_move] and [mutate] *)

(** The structural change of one placement slot, the same in
    [local_pso_move] and [mutate]. *)
Definition toggle_placement (pb : CloudletProblem) (p : nat) (pl : list Z) : M rng (list Z) :=
  c ← lift_result (np_get pl p);
  if c =? 0 then
    t ← random_randint 1 (Z.of_nat (T pb));
    lift_result (np_set pl p t)
  else
    r ← random_random;
    if Qltb r (1 # 2) then lift_result (np_set pl p 0)
    else
      t ← random_randint 1 (Z.of_nat (T pb));
      lift_result (np_set pl p t).

(** [if random.random() < prob: mine[i] = other[i]] *)
Definition adopt_slot (prob : Q) (other : list Z) (i : nat) (mine : list Z) : M rng (list Z) :=
  r ← random_random;
  if Qltb r prob then
    v ← lift_result (np_get other i);
    lift_result (np_set mine i v)
  else mret mine.

Definition pso_place_step (pb : CloudletProblem) (pbest g_place : list Z)
    (p : nat) (pl : list Z) : M rng (list Z) :=
  pl ← adopt_slot (3 # 10) pbest p pl;
  pl ← adopt_slot (2 # 10) g_place p pl;
  r ← random_random;
  if Qltb r (5 # 100) then toggle_placement pb p pl else mret pl.

(** [if random.random() < prob: assign_dev[e] = random.randint(0, P-1)] *)
Definition jump_slot (pb : CloudletProblem) (prob : Q) (e : nat) (ad : list Z) : M rng (list Z) :=
  r ← random_random;
  if Qltb r prob then
    p ← random_randint 0 (Z.of_nat (P pb) - 1);
    lift_result (np_set ad e p)
  else mret ad.

Definition pso_assign_step (pb : CloudletProblem) (pbest g_assign : list Z)
    (e : nat) (ad : list Z) : M rng (list Z) :=
  ad ← adopt_slot (35 # 100) pbest e ad;
  ad ← adopt_slot (25 # 100) g_assign e ad;
  jump_slot pb (2 # 100) e ad.

Definition local_pso_move (o : HybridFFPSO) (part : Particle) : M rng Particle :=
  let g_place := match global_best o with Some g => fst g | None => pbest_place part end in
  let g_assign := match global_best o with Some g => snd g | None => pbest_assign part end in
  pl ← for_each (range (P (problem o)))
         (pso_place_step (problem o) (pbest_place part) g_place) (place_loc part);
  ad ← for_each (range (E (problem o)))
         (pso_assign_step (problem o) (pbest_assign part) g_assign) (assign_dev part);
  mret {| place_loc := pl; assign_dev := ad;
          pbest_place := pbest_place part; pbest_assign := pbest_assign part;
          pbest_score := pbest_score part |}.

Definition mutate_place_step (pb : CloudletProblem) (pm_place : Q) (p : nat) (pl : list Z)
    : M rng (list Z) :=
  r ← random_random;
  if Qltb r pm_place then toggle_placement pb p pl else mret pl.

Definition mutate (pb : CloudletProblem) (part : Particle) (pm_place pm_assign : Q)
    : M rng Particle :=
  pl ← for_each (range (P pb)) (mutate_place_step pb pm_place) (place_loc part);
  ad ← for_each (range (E pb)) (jump_slot pb pm_assign) (assign_dev part);
  mret {| place_loc := pl; assign_dev := ad;
          pbest_place := pbest_place part; pbest_assign := pbest_assign part;
          pbest_score := pbest_score part |}.

Definition pm_place_default : Q := 2 # 100.
Definition pm_assign_default : Q := 3 # 100.

End Optimizer.

(** ** [HybridFFPSO.run] *)

Section Run.
Context {RS : RandomSource}.

Definition set_population (o : HybridFFPSO) (pop : list Particle) : HybridFFPSO :=
  {| problem := problem o; pop_size := pop_size o; max_iter := max_iter o;
     population := pop;
     global_best := global_best o; global_best_score := global_best_score o;
     archive := archive o |}.

(** [if metrics['fitness'] < part.pbest_score: ...] *)
Definition update_pbest (part : Particle) (m : Metrics) : Particle :=
  if lt_score (fitness m) (pbest_score part) then
    {| place_loc := place_loc part; assign_dev := assign_dev part;
       pbest_place := place_loc part; pbest_assign := assign_dev part;
       pbest_score := Fin (fitness m) |}
  else part.

(** [if metrics['fitness'] < self.global_best_score: ...] *)
Definition update_gbest (o : HybridFFPSO) (part : Particle) (m : Metrics)
    : option (list Z * list Z) * score :=
  if lt_score (fitness m) (global_best_score o)
  then (Some (place_loc part, assign_dev part), Fin (fitness m))
  else (global_best o, global_best_score o).

(** The body of [for i, part in enumerate(self.population)]. *)
Definition update_step (evals : list Metrics) (i : nat) (o : HybridFFPSO) : result HybridFFPSO :=
  part ← np_get (population o) i;
  m ← np_get evals i;
  let part' := update_pbest part m in
  let g := update_gbest o part m in
  mret {| problem := problem o; pop_size := pop_size o; max_iter := max_iter o;
          population := <[i := part']> (population o);
          global_best := fst g; global_best_score := snd g;
          archive := nondominated_archive_update (archive o)
                       (place_loc part, assign_dev part) m |}.

(** [evals[i]['fitness']] *)
Definition fitness_at (evals : list Metrics) (i : nat) : Q :=
  match evals !! i with Some m => fitness m | None => 0%Q end.

(** [sorted(range(len(self.population)), key=lambda i: evals[i]['fitness'])] *)
Definition sorted_idx (evals : list Metrics) (n : nat) : list nat :=
  sort_by (fun i j => Qltb (fitness_at evals i) (fitness_at evals j)) (range n).

(** The body of [for jj in range(ii)]. *)
Definition firefly_pair (pb : CloudletProblem) (evals : list Metrics) (order : list nat)
    (i : nat) (jj : nat) (pop : list Particle) : M rng (list Particle) :=
  j ← lift_result (np_get order jj);
  if Qltb (fitness_at evals j) (fitness_at evals i) then
    part ← lift_result (np_get pop i);
    brighter_part ← lift_result (np_get pop j);
    part' ← firefly_move pb part brighter_part;
    mret (<[i := part']> pop)
  else mret pop.

(** The body of [for ii in range(len(self.population))]. *)
Definition firefly_row (pb : CloudletProblem) (evals : list Metrics) (order : list nat)
    (ii : nat) (pop : list Particle) : M rng (list Particle) :=
  i ← lift_result (np_get order ii);
  for_each (range ii) (firefly_pair pb evals order i) pop.

Definition firefly_phase (pb : CloudletProblem) (evals : list Metrics)
    (pop : list Particle) : M rng (list Particle) :=
  for_each (range (length pop))
    (firefly_row pb evals (sorted_idx evals (length pop))) pop.

(** The body of the last [for part in self.population]. *)
Definition move_step (o : HybridFFPSO) (i : nat) (pop : list Particle) : M rng (list Particle) :=
  part ← lift_result (np_get pop i);
  part ← local_pso_move o part;
  part ← mutate (problem o) part pm_place_default pm_assign_default;
  sol ← repair_solution_values (problem o) (place_loc part) (assign_dev part);
  mret (<[i := {| place_loc := fst sol; assign_dev := snd (sol : list Z * list Z);
                 pbest_place := pbest_place part; pbest_assign := pbest_assign part;
                 pbest_score := pbest_score part |}]> pop).

(** One generation: the body of [for it in trange(self.max_iter)].  The
    progress line printed when [verbose] is set is output only. *)
Definition generation (_ : nat) (st : HybridFFPSO * list score)
    : M rng (HybridFFPSO * list score) :=
  let o := fst st in
  evals ← lift_result (evaluate_population o);
  o ← lift_result (for_each (range (length (population o))) (update_step evals) o);
  pop ← firefly_phase (problem o) evals (population o);
  pop ← for_each (range (length pop)) (move_step o) pop;
  let o := set_population o pop in
  mret (o, snd st ++ [global_best_score o]).

Record RunResult : Type := {
  res_archive : list ArchiveEntry;
  best_score : score;
  best_solution : option (list Z * list Z);
  history : list score
}.

(** [run] returns the result dictionary; the optimizer object it has
    updated is returned with it. *)
Definition run (o : HybridFFPSO) : M rng (RunResult * HybridFFPSO) :=
  st ← for_each (range (Z.to_nat (max_iter o))) generation (o, []);
  let o := fst (st : HybridFFPSO * list score) in
  mret ({| res_archive := archive o; best_score := global_best_score o;
           best_solution := global_best o; history := snd st |}, o).

End Run.

(** ** A generator that replays a script

    Used to run the code on concrete inputs: every draw takes the next
    number [n] of a list (0 once the list is used up) and maps it into the
    range of the draw: [n / (n + 1)] for a float of [0,1), the [n]-th
    element of an integer range, or its last one. *)

Definition next_raw (g : list nat) : nat * list nat :=
  match g with [] => (0%nat, []) | n :: g' => (n, g') end.

(** [k] distinct elements of [range(n)]: [range(n)] rotated by the draw. *)
Definition rotate_sample (n k raw : nat) : list nat :=
  take k (drop (Nat.min raw n) (seq 0 n) ++ take (Nat.min raw n) (seq 0 n)).

Definition script_random (g : list nat) : Q * list nat :=
  (Z.of_nat (fst (next_raw g)) # Pos.of_succ_nat (fst (next_raw g)), snd (next_raw g)).

Definition script_int (lo hi : Z) (g : list nat) : Z * list nat :=
  (lo + Z.min (Z.of_nat (fst (next_raw g))) (hi - lo), snd (next_raw g)).

Definition script_position (n : nat) (g : list nat) : nat * list nat :=
  (Nat.min (fst (next_raw g)) (n - 1), snd (next_raw g)).

(** The draws of the script stay in their ranges. *)
Lemma script_random_unit g :
  (0 <= fst (script_random g) /\ fst (script_random g) < 1)%Q.
Proof. unfold script_random, Qle, Qlt; simpl. lia. Qed.

Lemma script_int_range lo hi g :
  lo <= hi -> lo <= fst (script_int lo hi g) <= hi.
Proof. intros Hle. unfold script_int; simpl. lia. Qed.

Lemma script_int_below lo hi g :
  lo < hi -> lo <= fst (script_int lo (hi - 1) g) < hi.
Proof. intros Hlt. pose proof (script_int_range lo (hi - 1) g ltac:(lia)). lia. Qed.

Lemma rotate_sample_spec n k raw :
  (k <= n)%nat ->
  length (rotate_sample n k raw) = k /\
  NoDup (rotate_sample n k raw) /\
  Forall (fun p => (p < n)%nat) (rotate_sample n k raw).
Proof.
  intros Hk. unfold rotate_sample.
  set (r := Nat.min raw n).
  assert (Hperm : drop r (seq 0 n) ++ take r (seq 0 n) ≡ₚ seq 0 n).
  { rewrite Permutation_app_comm. by rewrite take_drop. }
  split; [|split].
  - rewrite length_take, Hperm, length_seq. lia.
  - assert (Hnd : NoDup (drop r (seq 0 n) ++ take r (seq 0 n)))
      by (rewrite Hperm; apply NoDup_seq).
    rewrite <- (take_drop k (_ ++ _)) in Hnd. by apply NoDup_app in Hnd as [? _].
  - apply Forall_take. rewrite Hperm. apply Forall_forall. intros x Hx.
    apply elem_of_seq in Hx. lia.
Qed.

Lemma script_position_range n (g : list nat) :
  (0 < n)%nat -> (fst (script_position n g) < n)%nat.
Proof. intros Hn. unfold script_position; simpl. lia. Qed.

(** The replaying generator is a [RandomSource]. *)
Definition script_source : RandomSource :=
  {| rng := list nat;
     seed_rng := fun seed => [Z.to_nat seed];
     draw_random := script_random;
     draw_randint := script_int;
     draw_np_randint := fun lo hi => script_int lo (hi - 1);
     draw_np_sample := fun n k g => (rotate_sample n k (fst (next_raw g)), snd (next_raw g));
     draw_np_position := script_position;
     draw_random_unit := script_random_unit;
     draw_randint_range := script_int_range;
     draw_np_randint_range := script_int_below;
     draw_np_sample_spec := fun n k g => rotate_sample_spec n k (fst (next_raw g));
     draw_np_position_range := script_position_range |}.

(** * Specification *)

(** ** Specifications of fallible and stateful code *)

(** [wpr r Q]: [r] is a value, not an exception, and it satisfies [Q]. *)
Definition wpr {A} (r : result A) (Q : A -> Prop) : Prop :=
  match r with Ok a => Q a | Raise _ => False end.

(** [wp m Q s]: run from [s], [m] returns, with a value and a final state
    that satisfy [Q]. *)
Definition wp {S A} (m : M S A) (Q : A -> S -> Prop) (s : S) : Prop :=
  wpr (m s) (fun r => Q (fst r) (snd r)).

(** ** Vectors of the data model *)

(** A placement vector of the data model: length P, entries in {0,...,T}. *)
Definition valid_placement (pb : CloudletProblem) (place_loc : list Z) : Prop :=
  length place_loc = P pb /\ Forall (fun c => 0 <= c <= Z.of_nat (T pb)) place_loc.

(** An assignment vector with every entry in [0,P). *)
Definition valid_assignment (pb : CloudletProblem) (assign_dev : list Z) : Prop :=
  length assign_dev = E pb /\ Forall (fun p => 0 <= p < Z.of_nat (P pb)) assign_dev.

(** The number of nonzero entries of a placement vector. *)
Definition count_nonzero (l : list Z) : nat :=
  length (List.filter (fun c => negb (c =? 0)) l).

(** Every particle holds a placement vector of length P and an assignment
    vector of length E. *)
Definition shaped (pb : CloudletProblem) (pop : list Particle) : Prop :=
  Forall (fun part => length (place_loc part) = P pb /\ length (assign_dev part) = E pb) pop.

(** A particle whose current and best vectors are vectors of the data
    model (assignment entries are not constrained). *)
Definition particle_ok (pb : CloudletProblem) (part : Particle) : Prop :=
  valid_placement pb (place_loc part) /\ length (assign_dev part) = E pb /\
  valid_placement pb (pbest_place part) /\ length (pbest_assign part) = E pb.

(** The global best snapshot, when there is one, holds such vectors. *)
Definition best_ok (pb : CloudletProblem) (gb : option (list Z * list Z)) : Prop :=
  match gb with
  | Some g => valid_placement pb (fst g) /\ length (snd g) = E pb
  | None => True
  end.

(** An optimizer on an instance with at least one location and one cloudlet
    type, all of whose vectors are vectors of the data model. *)
Definition optimizer_ok (o : HybridFFPSO) : Prop :=
  (1 <= P (problem o))%nat /\ (1 <= T (problem o))%nat /\
  Forall (particle_ok (problem o)) (population o) /\
  best_ok (problem o) (global_best o).

(** ** The quantities [evaluate] is specified with *)

(** The sum of a sequence of numbers. *)
Definition Qsum (l : list Q) : Q := foldr Qplus 0%Q l.

(** A natural number as a float. *)
Definition Qnat (n : nat) : Q := inject_Z (Z.of_nat n).

(** Device [e] is assigned to location [p]. *)
Definition assigned_to (assign_dev : list Z) (e p : nat) : bool :=
  match assign_dev !! e with Some q => q =? Z.of_nat p | None => false end.

(** The demand on one resource aggregated at location [p] from all the
    devices assigned there. *)
Definition load (pb : CloudletProblem) (res : Demand -> Q) (assign_dev : list Z) (p : nat) : Q :=
  Qsum (map (fun e => if assigned_to assign_dev e p then res (demands pb e) else 0%Q)
            (range (E pb))).

(** Location [p] has nonzero aggregated demand. *)
Definition loaded (pb : CloudletProblem) (assign_dev : list Z) (p : nat) : bool :=
  Qltb 0 (load pb cpu assign_dev p) || Qltb 0 (load pb mem assign_dev p)
  || Qltb 0 (load pb sto assign_dev p).

(** The number of locations with nonzero aggregated demand. *)
Definition loaded_count (pb : CloudletProblem) (assign_dev : list Z) : nat :=
  length (List.filter (loaded pb assign_dev) (range (P pb))).

(** What device [e] adds to the latency: the distance to its assigned
    location, or 1e6 for an assignment outside [0,P). *)
Definition latency_term (pb : CloudletProblem) (assign_dev : list Z) (e : nat) : Q :=
  match assign_dev !! e with
  | Some p => if out_of_range pb p then 1000000%Q else dist pb e (Z.to_nat p)
  | None => 0%Q
  end.

(** The sum of the latency terms of all the devices. *)
Definition total_latency (pb : CloudletProblem) (assign_dev : list Z) : Q :=
  Qsum (map (latency_term pb assign_dev) (range (E pb))).

(** ** The archive invariant *)

(** The archive invariant: no entry dominates another. *)
Definition nondominated (archive : list ArchiveEntry) : Prop :=
  forall x y, x ∈ archive -> y ∈ archive -> dominates (metrics x) (metrics y) = false.

(** A sequence of calls of [nondominated_archive_update]. *)
Definition archive_updates (archive : list ArchiveEntry)
    (calls : list ((list Z * list Z) * Metrics)) : list ArchiveEntry :=
  fold_left (fun a c => nondominated_archive_update a (fst c) (snd c)) calls archive.

(** The positions, counted from [k], of the entries that [m] dominates. *)
Fixpoint dominated_positions (m : Metrics) (k : nat) (l : list ArchiveEntry) : list nat :=
  match l with
  | [] => []
  | x :: l' =>
      if dominates m (metrics x) then k :: dominated_positions m (S k) l'
      else dominated_positions m (S k) l'
  end.

(** ** The firefly phase, as the specification words it *)

Section FireflySpec.
Context {RS : RandomSource}.

(** Slot by slot: where the brighter vector differs, one draw is made and
    the brighter value is copied when the draw is below [prob]; where the
    two agree nothing is drawn. *)
Fixpoint attract (prob : Q) (brighter mine : list Z) (g : rng) : list Z * rng :=
  match brighter, mine with
  | b :: bs, c :: cs =>
      if b =? c then
        let r := attract prob bs cs g in (c :: fst r, snd r)
      else
        let d := draw_random g in
        let r := attract prob bs cs (snd d) in
        ((if Qltb (fst d) prob then b else c) :: fst r, snd r)
  | _, _ => (mine, g)
  end.

(** Placement slots with probability 0.5, then assignment slots with 0.4. *)
Definition attract_particle (part brighter : Particle) (g : rng) : Particle * rng :=
  let pl := attract (1 # 2) (place_loc brighter) (place_loc part) g in
  let ad := attract (4 # 10) (assign_dev brighter) (assign_dev part) (snd pl) in
  ({| place_loc := fst pl; assign_dev := fst ad;
      pbest_place := pbest_place part; pbest_assign := pbest_assign part;
      pbest_score := pbest_score part |}, snd ad).

(** The ordered pairs (dim [i], brighter [j]) with [j] ranked ahead of [i],
    in the order of the ranks. *)
Definition rank_pairs (order : list nat) : list (nat * nat) :=
  flat_map (fun ii => map (fun jj => (nth ii order 0%nat, nth jj order 0%nat)) (range ii))
           (range (length order)).

(** One pair: [i] moves towards [j] when the fitness of [j] is strictly
    lower; otherwise nothing moves and nothing is drawn. *)
Definition attract_pair (evals : list Metrics) (st : list Particle * rng) (ij : nat * nat)
    : list Particle * rng :=
  if Qltb (fitness_at evals (snd ij)) (fitness_at evals (fst ij)) then
    match fst st !! fst ij, fst st !! snd ij with
    | Some part, Some brighter =>
        let r := attract_particle part brighter (snd st) in
        (<[fst ij := fst r]> (fst st), snd r)
    | _, _ => st
    end
  else st.

Definition firefly_phase_spec (evals : list Metrics) (pop : list Particle) (g : rng)
    : list Particle * rng :=
  fold_left (attract_pair evals) (rank_pairs (sorted_idx evals (length pop))) (pop, g).

End FireflySpec.

(** ** What [repair_solution] may do to the store *)

(** Every array of the store before the call is still there, unchanged. *)
Definition unchanged (before after : list (list Z)) : Prop :=
  forall r a, before !! r = Some a -> after !! r = Some a.

(** The array at [r] keeps its length and its nonzero entries stay nonzero. *)
Definition never_cleared (r : ref) (before after : list (list Z)) : Prop :=
  forall a, before !! r = Some a ->
    exists a', after !! r = Some a' /\ length a' = length a /\
      forall p c, a !! p = Some c -> c ≠ 0 -> exists c', a' !! p = Some c' /\ c' ≠ 0.

(** The store keeps its size and its first [n] arrays. *)
Definition kept (n : nat) (before after : list (list Z)) : Prop :=
  length before = length after /\ forall r, (r < n)%nat -> after !! r = before !! r.

Section Respects.
Context {RS : RandomSource}.

(** Every run of [m] that returns relates the store it started from to the
    store it ends with. *)
Definition respects {A} (Rel : list (list Z) -> list (list Z) -> Prop) (m : M RepState A) : Prop :=
  forall s a s', m s = Ok (a, s') -> Rel (store s) (store s').

(** The run of [repair_solution] from [s] to [s'] after the two copies, on
    the copies [place_loc] and [assign_dev]: it respects every preorder on
    stores that writing a nonzero value to [place_loc] and writing to
    [assign_dev] respect. *)
Definition respects_run (s s' : RepState) (place_loc assign_dev : ref)
    (pb : CloudletProblem) : Prop :=
  forall Rel : list (list Z) -> list (list Z) -> Prop,
    (forall h, Rel h h) ->
    (forall h1 h2 h3, Rel h1 h2 -> Rel h2 h3 -> Rel h1 h3) ->
    (forall i v, v ≠ 0 -> respects Rel (array_set place_loc i v)) ->
    (forall i v, respects Rel (array_set assign_dev i v)) ->
    Rel (store s) (store s').

(** The two arrays [repair_solution] works on: two different arrays of the
    store, a placement vector of the data model and an assignment vector of
    length E. *)
Definition repair_inv (pb : CloudletProblem) (place_loc assign_dev : ref) (s : RepState) : Prop :=
  place_loc ≠ assign_dev /\
  exists pl ad, store s !! place_loc = Some pl /\ store s !! assign_dev = Some ad /\
                valid_placement pb pl /\ length ad = E pb.

End Respects.

(** Every [feasible[e]] holds locations of [range(P)]. *)
Definition feasible_ok (pb : CloudletProblem) (feasible : list (list nat)) : Prop :=
  Forall (Forall (fun p => (p < P pb)%nat)) feasible.

(** ** Feasibility without the tolerance *)

(** Location [p] holds a cloudlet whose radius reaches device [e], the
    test of [repair_solution] (and of [random_solution]): no tolerance. *)
Definition covered (pb : CloudletProblem) (place_loc : list Z) (e p : nat) : bool :=
  match place_loc !! p with
  | Some c =>
      (0 <? c) &&
      match py_index (cloudlet_types pb) (c - 1) with
      | Ok t => Qleb (dist pb e p) (R t)
      | Raise _ => false
      end
  | None => false
  end.

(** The aggregated demand at [p] is within the capacity of the cloudlet
    placed there, without tolerance. *)
Definition within_capacity (pb : CloudletProblem) (place_loc assign_dev : list Z) (p : nat) : Prop :=
  forall c t, place_loc !! p = Some c -> c ≠ 0 ->
    py_index (cloudlet_types pb) (c - 1) = Ok t ->
    (load pb cpu assign_dev p <= CPU t)%Q /\
    (load pb mem assign_dev p <= MEM t)%Q /\
    (load pb sto assign_dev p <= STO t)%Q.

(** A solution that meets the coverage and capacity constraints exactly. *)
Definition strictly_feasible (pb : CloudletProblem) (place_loc assign_dev : list Z) : Prop :=
  valid_placement pb place_loc /\ length assign_dev = E pb /\
  (forall e q, assign_dev !! e = Some q ->
     0 <= q < Z.of_nat (P pb) /\ covered pb place_loc e (Z.to_nat q) = true) /\
  (forall p, (p < P pb)%nat -> within_capacity pb place_loc assign_dev p).

(** ** The order of scores *)

(** [a <= b] on scores, [np.inf] being the largest. *)
Definition score_le (a b : score) : Prop :=
  match a, b with
  | _, Inf => True
  | Fin x, Fin y => (x <= y)%Q
  | Inf, Fin _ => False
  end.

(** A sequence of scores in which no element is larger than the one
    before it. *)
Definition nonincreasing (l : list score) : Prop :=
  forall i a b, l !! i = Some a -> l !! S i = Some b -> score_le b a.

(** ** Instances and states the code is run on *)

(** One device, one location, nothing placed, the device assigned to the
    location and asking for one unit of CPU. *)
Definition one_device : CloudletProblem :=
  {| cloudlet_types := [ {| CPU := 10; MEM := 10; STO := 10; R := 10; base_cost := 1 |} ];
     demands := fun _ => {| cpu := 1; mem := 0; sto := 0 |};
     placement_cost_table := fun _ _ => 7%Q;
     dist := fun _ _ => 3%Q;
     P := 1; E := 1 |}.

(** Two locations and one device, at distance 2 of location 0 and 5 of
    location 1; one cloudlet type of radius 4. *)
Definition two_sites : CloudletProblem :=
  {| cloudlet_types := [ {| CPU := 10; MEM := 10; STO := 10; R := 4; base_cost := 1 |} ];
     demands := fun _ => {| cpu := 1; mem := 1; sto := 1 |};
     placement_cost_table := fun _ p => match p with O => 7%Q | _ => 9%Q end;
     dist := fun _ p => match p with O => 2%Q | _ => 5%Q end;
     P := 2; E := 1 |}.

(** Two locations and one device asking for 5 units of CPU.  Location 0
    holds a cloudlet of radius 10 and CPU capacity 10, and the device is at
    distance 10 + 5e-10 of it: inside the 1e-9 tolerance of [evaluate].
    Location 1 holds a cloudlet of radius 100 and CPU capacity 1, at
    distance 50 of the device. *)
Definition tolerance_band : CloudletProblem :=
  {| cloudlet_types :=
       [ {| CPU := 10; MEM := 10; STO := 10; R := 10; base_cost := 1 |};
         {| CPU := 1; MEM := 1; STO := 1; R := 100; base_cost := 1 |} ];
     demands := fun _ => {| cpu := 5; mem := 0; sto := 0 |};
     placement_cost_table := fun _ _ => 7%Q;
     dist := fun _ p => match p with
                        | O => (10 + (5 # 10000000000))%Q
                        | _ => 50%Q
                        end;
     P := 2; E := 1 |}.

(** The same instance without any location. *)
Definition no_locations (pb : CloudletProblem) : CloudletProblem :=
  {| cloudlet_types := cloudlet_types pb; demands := demands pb;
     placement_cost_table := placement_cost_table pb; dist := dist pb;
     P := 0; E := E pb |}.

(** The same optimizer asked for no generation. *)
Definition no_generations (o : HybridFFPSO) : HybridFFPSO :=
  {| problem := problem o; pop_size := pop_size o; max_iter := 0;
     population := population o;
     global_best := global_best o; global_best_score := global_best_score o;
     archive := archive o |}.

(** Metrics with the given cost and latency. *)
Definition cost_latency (c l : Q) : Metrics :=
  {| placement_cost := c; latency := l; penalty := 0; fitness := 0 |}.

(** Metrics of two particles, the first of lower fitness. *)
Definition ranked_evals : list Metrics :=
  [ {| placement_cost := 7; latency := 2; penalty := 0; fitness := 4 |};
    {| placement_cost := 9; latency := 5; penalty := 0; fitness := 6 |} ].

(** Two particles of equal fitness that differ in their placement. *)
Definition tie_evals : list Metrics :=
  [ {| placement_cost := 7; latency := 2; penalty := 0; fitness := 4 |};
    {| placement_cost := 9; latency := 5; penalty := 0; fitness := 4 |} ].

Definition tie_population : list Particle :=
  [ new_particle [1; 0] [0]; new_particle [0; 1] [1] ].

(** A store and a script for the replaying generator. *)
Definition script_state (h : list (list Z)) (g : list nat) : @RepState script_source :=
  @Build_RepState script_source h g.

(** * Further definitions *)

(** ** The archive *)

(** [a] is at least as good as [b] on both objectives. *)
Definition as_good (a b : Metrics) : Prop :=
  (placement_cost a <= placement_cost b)%Q /\ (latency a <= latency b)%Q.

(** The entry [nondominated_archive_update] appends. *)
Definition archive_entry (sol : list Z * list Z) (m : Metrics) : ArchiveEntry :=
  {| entry_place_loc := fst sol; entry_assign_dev := snd sol; metrics := m |}.

(** ** The metrics of [evaluate], term by term *)

(** The deployment cost of location [p]: the table entry of the type placed
    there, nothing when nothing is placed. *)
Definition placement_term (pb : CloudletProblem) (place_loc : list Z) (p : nat) : Q :=
  match place_loc !! p with
  | Some c => if 0 <? c then placement_cost_table pb (Z.to_nat (c - 1)) p else 0%Q
  | None => 0%Q
  end.

(** Device [e] pays the coverage penalty: its assignment is out of range,
    or points at a location with nothing placed, or at a cloudlet whose
    radius plus the 1e-9 tolerance is below the distance. *)
Definition uncovered (pb : CloudletProblem) (place_loc assign_dev : list Z) (e : nat) : bool :=
  match assign_dev !! e with
  | Some q =>
      if out_of_range pb q then true
      else match place_loc !! Z.to_nat q with
           | Some c =>
               if c =? 0 then true
               else match py_index (cloudlet_types pb) (c - 1) with
                    | Ok t => Qltb (R t + (1 # 1000000000)) (dist pb e (Z.to_nat q))
                    | Raise _ => false
                    end
           | None => false
           end
  | None => false
  end.

(** The penalty of a demand [ld] on a capacity [cap]: the overage times
    1e4 beyond the 1e-9 tolerance. *)
Definition overage (ld cap : Q) : Q :=
  if Qltb (cap + (1 # 1000000000)) ld then ((ld - cap) * 10000)%Q else 0%Q.

(** The capacity penalty of location [p]: 1e6 when it receives demand with
    nothing placed, the overages on the three resources otherwise. *)
Definition capacity_term (pb : CloudletProblem) (place_loc assign_dev : list Z) (p : nat) : Q :=
  match place_loc !! p with
  | Some c =>
      if c =? 0 then (if loaded pb assign_dev p then 1000000%Q else 0%Q)
      else match py_index (cloudlet_types pb) (c - 1) with
           | Ok t =>
               (overage (load pb cpu assign_dev p) (CPU t)
                + overage (load pb mem assign_dev p) (MEM t)
                + overage (load pb sto assign_dev p) (STO t))%Q
           | Raise _ => 0%Q
           end
  | None => 0%Q
  end.

(** The number of devices that pay the coverage penalty. *)
Definition uncovered_count (pb : CloudletProblem) (place_loc assign_dev : list Z) : nat :=
  length (List.filter (uncovered pb place_loc assign_dev) (range (E pb))).

(** ** Assignments *)

(** Device [e] is served as [random_solution] means it: by a location
    that covers it, or, when none does, by the nearest location. *)
Definition served (pb : CloudletProblem) (place_loc assign_dev : list Z) (e : nat) : Prop :=
  exists q, assign_dev !! e = Some (Z.of_nat q) /\ (q < P pb)%nat /\
    (covered pb place_loc e q = true \/
     ((forall p, (p < P pb)%nat -> covered pb place_loc e p = false) /\
      np_argmin (dist pb e) (P pb) = Ok q)).

Section RepairRange.
Context {RS : RandomSource}.

(** The invariant of [repair_solution] once the first [k] devices have
    been looked at: their assignments are in [0,P). *)
Definition repair_inv_range (pb : CloudletProblem) (place_loc assign_dev : ref) (k : nat)
    (s : RepState) : Prop :=
  place_loc ≠ assign_dev /\
  exists pl ad, store s !! place_loc = Some pl /\ store s !! assign_dev = Some ad /\
    valid_placement pb pl /\ length ad = E pb /\
    forall e q, (e < k)%nat -> ad !! e = Some q -> 0 <= q < Z.of_nat (P pb).

End RepairRange.

(** ** [utils.py] *)

(** [min(a, b)] and [max(a, b)] of Python on two numbers: the first
    argument, unless the second is strictly smaller (larger). *)
Definition py_min (a b : Q) : Q := if Qltb b a then b else a.
Definition py_max (a b : Q) : Q := if Qltb a b then b else a.

(** [clamp(x, lo, hi)] *)
Definition clamp (x lo hi : Q) : Q := py_max lo (py_min hi x).

Section Utils.
Context {RS : RandomSource}.

(** [one_point_crossover(a, b)]: the cut point is drawn in [1, n-1]; the
    arrays returned are new ones. *)
Definition one_point_crossover (a b : list Z) : M rng (list Z * list Z) :=
  let n := length a in
  if (n <? 2)%nat then mret (a, b)
  else
    pt ← random_randint 1 (Z.of_nat n - 1);
    let pt := Z.to_nat pt in
    mret (take pt a ++ drop pt b, take pt b ++ drop pt a).

(** The body of [for i in range(n)] of [uniform_crossover]:
    [child1[i], child2[i] = child2[i], child1[i]] reads [child2[i]] and
    [child1[i]], then writes [child1[i]] and [child2[i]]. *)
Definition swap_slot (prob : Q) (i : nat) (c : list Z * list Z) : M rng (list Z * list Z) :=
  r ← random_random;
  if Qltb r prob then
    x ← lift_result (np_get (snd c) i);
    y ← lift_result (np_get (fst c) i);
    child1 ← lift_result (np_set (fst c) i x);
    child2 ← lift_result (np_set (snd c) i y);
    mret (child1, child2)
  else mret c.

(** [uniform_crossover(a, b, prob)] *)
Definition uniform_crossover (a b : list Z) (prob : Q) : M rng (list Z * list Z) :=
  for_each (range (length a)) (swap_slot prob) (a, b).

Definition uniform_crossover_default_prob : Q := 1 # 2.

End Utils.

(** ** The bookkeeping of a run *)

(** [m] is what [evaluate] returns on the current vectors of [part]. *)
Definition evaluated_as (pb : CloudletProblem) (part : Particle) (m : Metrics) : Prop :=
  evaluate pb (place_loc part) (assign_dev part) default_penalty_coeff = Ok m.

(** The score [s] is the fitness [evaluate] gives to the two vectors. *)
Definition scored (pb : CloudletProblem) (place assign : list Z) (s : score) : Prop :=
  exists m, evaluate pb place assign default_penalty_coeff = Ok m /\ s = Fin (fitness m).

(** The best-so-far snapshot of a particle carries its own fitness, or the
    particle has never been scored. *)
Definition pbest_evaluated (pb : CloudletProblem) (part : Particle) : Prop :=
  pbest_score part = Inf \/ scored pb (pbest_place part) (pbest_assign part) (pbest_score part).

(** The same for the global best snapshot. *)
Definition best_evaluated (pb : CloudletProblem) (gb : option (list Z * list Z)) (s : score)
    : Prop :=
  match gb with
  | Some sol => scored pb (fst sol) (snd sol) s
  | None => s = Inf
  end.

(** An archive entry carries the metrics of its own vectors. *)
Definition entry_evaluated (pb : CloudletProblem) (x : ArchiveEntry) : Prop :=
  evaluate pb (entry_place_loc x) (entry_assign_dev x) default_penalty_coeff = Ok (metrics x).

(** What a particle must satisfy for the global best score [s]. *)
Definition pbest_kept (pb : CloudletProblem) (s : score) (part : Particle) : Prop :=
  pbest_evaluated pb part /\ score_le s (pbest_score part).

Definition bookkeeping (o : HybridFFPSO) : Prop :=
  best_evaluated (problem o) (global_best o) (global_best_score o) /\
  Forall (pbest_kept (problem o) (global_best_score o)) (population o) /\
  Forall (entry_evaluated (problem o)) (archive o).

(** Two particles with the same best-so-far snapshot. *)
Definition same_pbest (part part' : Particle) : Prop :=
  pbest_place part' = pbest_place part /\ pbest_assign part' = pbest_assign part /\
  pbest_score part' = pbest_score part.

(** ** [experiments.py] *)

Section Experiments.
Context {RS : RandomSource}.

(** The default [seed] of [HybridFFPSO.__init__]. *)
Definition default_seed : Z := 42.

(** [run_simple_experiment(problem, pop_size, max_iter)] *)
Definition run_simple_experiment (pb : CloudletProblem) (pop_size max_iter : Z)
    : result ((RunResult * HybridFFPSO) * rng) :=
  algo ← HybridFFPSO_init pb pop_size max_iter default_seed;
  run (fst algo) (snd (algo : HybridFFPSO * rng)).

End Experiments.

(** An optimizer as the constructor leaves it, on [two_sites], with the
    two particles of [tie_population] and one generation to run. *)
Definition two_fireflies : HybridFFPSO :=
  {| problem := two_sites; pop_size := 2; max_iter := 1;
     population := tie_population;
     global_best := None; global_best_score := Inf; archive := [] |}.

(** ** Solutions of the data model *)

(** A placement vector and an assignment vector of the data model. *)
Definition solution_ok (pb : CloudletProblem) (place_loc assign_dev : list Z) : Prop :=
  valid_placement pb place_loc /\ valid_assignment pb assign_dev.

(** The current vectors of a particle are such a solution. *)
Definition particle_in_model (pb : CloudletProblem) (part : Particle) : Prop :=
  solution_ok pb (place_loc part) (assign_dev part).

Definition entry_in_model (pb : CloudletProblem) (x : ArchiveEntry) : Prop :=
  solution_ok pb (entry_place_loc x) (entry_assign_dev x).

Definition best_in_model (pb : CloudletProblem) (gb : option (list Z * list Z)) : Prop :=
  match gb with
  | Some sol => solution_ok pb (fst sol) (snd sol)
  | None => True
  end.

(** A particle as the constructor makes it: the best-so-far snapshot is
    the current solution and has no score yet. *)
Definition fresh_particle (part : Particle) : Prop :=
  pbest_place part = place_loc part /\ pbest_assign part = assign_dev part /\
  pbest_score part = Inf.

(** ** The rank order of the firefly phase *)

(** [i] comes before [j] in the ascending-fitness order of a stable sort:
    its fitness is strictly lower, or the two are equal and [i] is the
    smaller index. *)
Definition ranked_before (evals : list Metrics) (i j : nat) : Prop :=
  (fitness_at evals i < fitness_at evals j)%Q \/
  ((fitness_at evals i == fitness_at evals j)%Q /\ (i < j)%nat).

(** ** Runs of [repair_solution] on different stores *)

Section Simulation.
Context {RS : RandomSource}.

(** The arrays [place_loc1] and [assign_dev1] hold in the first state what
    [place_loc2] and [assign_dev2] hold in the second, and the generators
    are in the same state. *)
Definition same_arrays (place_loc1 assign_dev1 place_loc2 assign_dev2 : ref)
    (s1 s2 : RepState) : Prop :=
  store s1 !! place_loc1 = store s2 !! place_loc2 /\
  store s1 !! assign_dev1 = store s2 !! assign_dev2 /\
  gen s1 = gen s2.

(** From related states the two computations raise the same exception, or
    return the same value in related states. *)
Definition simulates {A} (Rel : RepState -> RepState -> Prop) (m1 m2 : M RepState A) : Prop :=
  forall s1 s2, Rel s1 s2 ->
    match m1 s1, m2 s2 with
    | Ok (a1, s1'), Ok (a2, s2') => a1 = a2 /\ Rel s1' s2'
    | Raise e1, Raise e2 => e1 = e2
    | _, _ => False
    end.

End Simulation.

(** ** Inputs on which float64 and int64 are exact *)

(** An integer of [0, 2^53]: float64 holds it exactly. *)
Definition exact_int (q : Q) : Prop :=
  exists n : Z, 0 <= n <= 9007199254740992 /\ (q == inject_Z n)%Q.

(** On one resource, every demand is such an integer and so is the sum of
    all the demands. *)
Definition exact_demands (pb : CloudletProblem) (res : Demand -> Q) : Prop :=
  (forall e, (e < E pb)%nat -> exact_int (res (demands pb e))) /\
  exact_int (Qsum (map (fun e => res (demands pb e)) (range (E pb)))).

(** Demands and capacities are integers that float64 adds and compares
    without rounding: the loads [evaluate] and [repair_solution] accumulate
    are the exact sums, and a load exceeds a capacity plus 1e-9 exactly
    when it exceeds the capacity. *)
Definition exact_loads (pb : CloudletProblem) : Prop :=
  exact_demands pb cpu /\ exact_demands pb mem /\ exact_demands pb sto /\
  Forall (fun t => exact_int (CPU t) /\ exact_int (MEM t) /\ exact_int (STO t))
         (cloudlet_types pb).

(** An entry of an int64 array, which [np.asarray(..., dtype=int)] makes. *)
Definition fits_int64 (z : Z) : Prop :=
  - 9223372036854775808 <= z <= 9223372036854775807.

(** ** Instances on which no fitness overflows *)

(** Costs, distances, demands and capacities are not negative, and costs,
    distances and demands are at most [B]. *)
Definition bounded_instance (pb : CloudletProblem) (B : Q) : Prop :=
  (0 <= B)%Q /\
  (forall c p, (c < T pb)%nat -> (p < P pb)%nat ->
     (0 <= placement_cost_table pb c p <= B)%Q) /\
  (forall e p, (e < E pb)%nat -> (p < P pb)%nat -> (0 <= dist pb e p <= B)%Q) /\
  (forall e, (e < E pb)%nat ->
     (0 <= cpu (demands pb e) <= B)%Q /\ (0 <= mem (demands pb e) <= B)%Q /\
     (0 <= sto (demands pb e) <= B)%Q) /\
  Forall (fun t => (0 <= CPU t)%Q /\ (0 <= MEM t)%Q /\ (0 <= STO t)%Q) (cloudlet_types pb).

(** What the fitness of a solution of the data model cannot exceed on such
    an instance, with the default penalty coefficient. *)
Definition fitness_bound (pb : CloudletProblem) (B : Q) : Q :=
  ((4 # 10) * (Qnat (P pb) * B)
   + (6 # 10) * (Qnat (E pb) * (B + 1000000))
   + (100000 * Qnat (E pb) + Qnat (P pb) * (1000000 + 30000 * (Qnat (E pb) * B)))
     * 1000000)%Q.

(** A number below the largest float64, 1.797e308. *)
Definition float_bound : Q := inject_Z (10 ^ 300).

(** * Reasoning about fallible and stateful code *)

Lemma wpr_ok {A} (r : result A) (Q : A -> Prop) :
  wpr r Q <-> exists a, r = Ok a /\ Q a.
Proof.
  destruct r as [a|e]; simpl; split.
  - intros H; by exists a.
  - by intros (? & [= ->] & ?).
  - intros [].
  - by intros (? & ? & _).
Qed.

Lemma wpr_mono {A} (r : result A) (Q Q' : A -> Prop) :
  wpr r Q -> (forall a, Q a -> Q' a) -> wpr r Q'.
Proof. destruct r; simpl; auto. Qed.

Lemma wpr_bind {A B} (r : result A) (f : A -> result B) (Q : B -> Prop) :
  wpr r (fun a => wpr (f a) Q) -> wpr (r ≫= f) Q.
Proof. destruct r; simpl; auto. Qed.

Lemma wpr_bind_inv {A B} (r : result A) (f : A -> result B) (Q : B -> Prop) :
  wpr (r ≫= f) Q -> wpr r (fun a => wpr (f a) Q).
Proof. destruct r; simpl; auto. Qed.

Lemma wpr_ret {A} (a : A) (Q : A -> Prop) : Q a -> wpr (mret a) Q.
Proof. auto. Qed.

Lemma wpr_and {A} (r : result A) (Q Q' : A -> Prop) :
  wpr r Q -> wpr r Q' -> wpr r (fun a => Q a /\ Q' a).
Proof. destruct r; simpl; auto. Qed.

(** The loop rule: an invariant of the elements done so far. *)
Lemma wpr_for_each_prefix {X A} (body : X -> A -> result A) (I : list X -> A -> Prop)
    (xs : list X) (a : A) :
  I [] a ->
  (forall done x todo a', xs = done ++ x :: todo -> I done a' ->
     wpr (body x a') (I (done ++ [x]))) ->
  wpr (for_each xs body a) (I xs).
Proof.
  intros H0 Hstep.
  cut (forall todo done a', I done a' -> xs = done ++ todo ->
         wpr (for_each todo body a') (I (done ++ todo))).
  { intros Hcut. apply (Hcut xs [] a H0). done. }
  induction todo as [|x todo IH]; intros done a' HI Hxs; simpl.
  - by rewrite app_nil_r.
  - apply wpr_bind. eapply wpr_mono.
    + eapply Hstep; [exact Hxs | exact HI].
    + intros a'' HI'. replace (done ++ x :: todo) with ((done ++ [x]) ++ todo)
        by (by rewrite <- app_assoc).
      apply IH; [exact HI'|]. by rewrite <- app_assoc.
Qed.

Lemma wpr_for_each {X A} (body : X -> A -> result A) (I : list X -> A -> Prop)
    (xs : list X) (a : A) :
  I [] a ->
  (forall done x a', x ∈ xs -> I done a' -> wpr (body x a') (I (done ++ [x]))) ->
  wpr (for_each xs body a) (I xs).
Proof.
  intros H0 Hstep. apply wpr_for_each_prefix; [done|].
  intros done x todo a' -> HI. apply Hstep; [|done].
  apply elem_of_app. right. left.
Qed.

Lemma wp_ok {S A} (m : M S A) (Q : A -> S -> Prop) (s : S) :
  wp m Q s <-> exists a s', m s = Ok (a, s') /\ Q a s'.
Proof.
  unfold wp. rewrite wpr_ok. split.
  - intros ([a s'] & ? & ?). by exists a, s'.
  - intros (a & s' & ? & ?). by exists (a, s').
Qed.

Lemma wp_inv {S A} (m : M S A) (Q : A -> S -> Prop) s a s' :
  wp m Q s -> m s = Ok (a, s') -> Q a s'.
Proof.
  intros Hwp Hrun. apply wp_ok in Hwp as (a0 & s0 & Hrun0 & HQ).
  rewrite Hrun in Hrun0. by injection Hrun0 as <- <-.
Qed.

Lemma wp_mono {S A} (m : M S A) (Q Q' : A -> S -> Prop) (s : S) :
  wp m Q s -> (forall a s', Q a s' -> Q' a s') -> wp m Q' s.
Proof. unfold wp. intros H HQ. eapply wpr_mono; [exact H|]. intros []; apply HQ. Qed.

Lemma wp_bind {S A B} (m : M S A) (f : A -> M S B) (Q : B -> S -> Prop) (s : S) :
  wp m (fun a s' => wp (f a) Q s') s -> wp (m ≫= f) Q s.
Proof.
  unfold wp, mbind, M_bind. destruct (m s) as [[a s']|e]; simpl; auto.
Qed.

Lemma wp_bind_inv {S A B} (m : M S A) (f : A -> M S B) (Q : B -> S -> Prop) (s : S) :
  wp (m ≫= f) Q s -> wp m (fun a s' => wp (f a) Q s') s.
Proof.
  unfold wp, mbind, M_bind. destruct (m s) as [[a s']|e]; simpl; auto.
Qed.

Lemma M_bind_raise {S A B} (m : M S A) (f : A -> M S B) s e :
  m s = Raise e -> (m ≫= f) s = Raise e.
Proof. intros H. unfold mbind, M_bind. by rewrite H. Qed.

Lemma M_bind_ok {S A B} (m : M S A) (f : A -> M S B) s a s' :
  m s = Ok (a, s') -> (m ≫= f) s = f a s'.
Proof. intros H. unfold mbind, M_bind. by rewrite H. Qed.

Lemma M_bind_ok_pair {S A B} (m : M S A) (f : A -> M S B) s r :
  m s = Ok r -> (m ≫= f) s = f (fst r) (snd r).
Proof. intros H. unfold mbind, M_bind. rewrite H. by destruct r. Qed.

Lemma M_bind_inv {S A B} (m : M S A) (f : A -> M S B) s b s' :
  (m ≫= f) s = Ok (b, s') -> exists a s1, m s = Ok (a, s1) /\ f a s1 = Ok (b, s').
Proof.
  unfold mbind, M_bind. destruct (m s) as [[a s1]|e]; [|done]. intros H. by exists a, s1.
Qed.

Lemma wp_ret {S A} (a : A) (Q : A -> S -> Prop) (s : S) : Q a s -> wp (mret a) Q s.
Proof. auto. Qed.

Lemma wp_lift {S A} (r : result A) (Q : A -> S -> Prop) (s : S) :
  wpr r (fun a => Q a s) -> wp (lift_result r) Q s.
Proof. unfold wp, lift_result. destruct r; simpl; auto. Qed.

Lemma wp_for_each_prefix {S X A} (body : X -> A -> M S A) (I : list X -> A -> S -> Prop)
    (xs : list X) (a : A) (s : S) :
  I [] a s ->
  (forall done x todo a' s', xs = done ++ x :: todo -> I done a' s' ->
     wp (body x a') (I (done ++ [x])) s') ->
  wp (for_each xs body a) (I xs) s.
Proof.
  intros H0 Hstep.
  cut (forall todo done a' s', I done a' s' -> xs = done ++ todo ->
         wp (for_each todo body a') (I (done ++ todo)) s').
  { intros Hcut. apply (Hcut xs [] a s H0). done. }
  induction todo as [|x todo IH]; intros done a' s' HI Hxs; simpl.
  - rewrite app_nil_r. by apply wp_ret.
  - apply wp_bind. eapply wp_mono.
    + eapply Hstep; [exact Hxs | exact HI].
    + intros a'' s'' HI'. replace (done ++ x :: todo) with ((done ++ [x]) ++ todo)
        by (by rewrite <- app_assoc).
      apply IH; [exact HI'|]. by rewrite <- app_assoc.
Qed.

Lemma wp_for_each {S X A} (body : X -> A -> M S A) (I : list X -> A -> S -> Prop)
    (xs : list X) (a : A) (s : S) :
  I [] a s ->
  (forall done x a' s', x ∈ xs -> I done a' s' ->
     wp (body x a') (I (done ++ [x])) s') ->
  wp (for_each xs body a) (I xs) s.
Proof.
  intros H0 Hstep. apply wp_for_each_prefix; [done|].
  intros done x todo a' s' -> HI. apply Hstep; [|done].
  apply elem_of_app. right. left.
Qed.

(** A loop with [break] keeps an invariant that every body keeps. *)
Lemma wp_for_break {S X A} (body : X -> A -> M S (A * bool)) (I : A -> S -> Prop)
    (xs : list X) (a : A) (s : S) :
  I a s ->
  (forall x a' s', x ∈ xs -> I a' s' -> wp (body x a') (fun r s'' => I (fst r) s'') s') ->
  wp (for_break xs body a) I s.
Proof.
  revert a s. induction xs as [|x xs IH]; intros a s HI Hstep; simpl.
  - by apply wp_ret.
  - apply wp_bind. eapply wp_mono.
    + apply Hstep; [left | exact HI].
    + intros [a' b] s' HI'; simpl in *. destruct b.
      * by apply wp_ret.
      * apply IH; [exact HI'|]. intros y a'' s'' Hy. apply Hstep. by right.
Qed.


(** * Numbers and arrays *)

Lemma Qltb_lt x y : Qltb x y = true <-> (x < y)%Q.
Proof.
  unfold Qltb. rewrite negb_true_iff, <- not_true_iff_false, Qle_bool_iff.
  split; [apply Qnot_le_lt | apply Qlt_not_le].
Qed.

Lemma Qleb_le x y : Qleb x y = true <-> (x <= y)%Q.
Proof. apply Qle_bool_iff. Qed.

Lemma Qltb_compat x x' y y' : (x == x')%Q -> (y == y')%Q -> Qltb x y = Qltb x' y'.
Proof.
  intros Hx Hy. apply eq_true_iff_eq. rewrite !Qltb_lt. by rewrite Hx, Hy.
Qed.

Lemma Qltb_irrefl x : Qltb x x = false.
Proof. apply not_true_iff_false. rewrite Qltb_lt. apply Qlt_irrefl. Qed.

Lemma Qsum_snoc l x : (Qsum (l ++ [x]) == Qsum l + x)%Q.
Proof.
  induction l as [|y l IH]; simpl; [ring|]. rewrite IH. ring.
Qed.

Lemma Qnat_S n : (Qnat (S n) == Qnat n + 1)%Q.
Proof.
  unfold Qnat. rewrite Nat2Z.inj_succ. unfold Z.succ. by rewrite inject_Z_plus.
Qed.

Lemma elem_of_range n i : i ∈ range n <-> (i < n)%nat.
Proof. unfold range. rewrite elem_of_seq. lia. Qed.

Lemma np_get_ok {A} (a : list A) i x : a !! i = Some x -> np_get a i = Ok x.
Proof. unfold np_get. by intros ->. Qed.

Lemma np_get_lt {A} (a : list A) i :
  (i < length a)%nat -> exists x, a !! i = Some x /\ np_get a i = Ok x.
Proof.
  intros Hi. destruct (lookup_lt_is_Some_2 a i Hi) as [x Hx].
  exists x. split; [done|]. by apply np_get_ok.
Qed.

Lemma np_get_replicate {A} n (x : A) i : (i < n)%nat -> np_get (replicate n x) i = Ok x.
Proof. intros Hi. apply np_get_ok. by apply lookup_replicate_2. Qed.

Lemma np_get_inv {A} (a : list A) i x : np_get a i = Ok x -> a !! i = Some x.
Proof. unfold np_get. destruct (a !! i); by intros [= ->]. Qed.

Lemma np_set_ok {A} (a : list A) i v :
  (i < length a)%nat -> np_set a i v = Ok (<[i := v]> a).
Proof. intros Hi. unfold np_set. by rewrite decide_True. Qed.

Lemma np_set_inv {A} (a a' : list A) i v :
  np_set a i v = Ok a' -> (i < length a)%nat /\ a' = <[i := v]> a.
Proof. unfold np_set. case_decide; by intros [= <-]. Qed.

Lemma out_of_range_false pb p :
  out_of_range pb p = false <-> 0 <= p < Z.of_nat (P pb).
Proof. unfold out_of_range. rewrite orb_false_iff, Z.ltb_ge, Z.leb_gt. lia. Qed.

Lemma used_at_add_at a i d p :
  (i < length a)%nat ->
  used_at (add_at a i d) p = if decide (i = p) then (used_at a p + d)%Q else used_at a p.
Proof.
  intros Hi. unfold used_at, add_at.
  destruct (lookup_lt_is_Some_2 a i Hi) as [x Hx]. rewrite Hx.
  case_decide as Hip.
  - subst p. rewrite list_lookup_insert_eq by done. by rewrite Hx.
  - by rewrite list_lookup_insert_ne.
Qed.

Lemma length_add_at a i d : length (add_at a i d) = length a.
Proof. unfold add_at. destruct (a !! i); [apply length_insert | done]. Qed.

Lemma used_at_replicate n p : used_at (replicate n 0%Q) p = 0%Q.
Proof.
  unfold used_at. destruct (replicate n 0%Q !! p) as [x|] eqn:Hx; [|done].
  by apply lookup_replicate in Hx as [-> _].
Qed.

(** * [evaluate] *)

(** The usage arrays hold the aggregated demand of each location. *)
Lemma usage_loop_res pb assign_dev (res : Demand -> Q) (sel : Usage -> list Q) :
  length assign_dev = E pb ->
  (forall u i d, sel (add_usage u i d) = add_at (sel u) i (res d)) ->
  sel (zero_usage (P pb)) = replicate (P pb) 0%Q ->
  wpr (for_each (range (E pb)) (usage_step pb assign_dev) (zero_usage (P pb)))
      (fun u => length (sel u) = P pb /\
                forall p, (p < P pb)%nat -> (used_at (sel u) p == load pb res assign_dev p)%Q).
Proof.
  intros Hlen Hadd Hzero. unfold load.
  apply (wpr_for_each _ (fun done u => length (sel u) = P pb /\
    forall p, (p < P pb)%nat ->
      (used_at (sel u) p ==
       Qsum (map (fun e => if assigned_to assign_dev e p then res (demands pb e) else 0%Q) done))%Q)).
  - rewrite Hzero. split; [apply length_replicate|].
    intros p _. by rewrite used_at_replicate.
  - intros done e u He [Hl Hu]. apply elem_of_range in He.
    destruct (np_get_lt assign_dev e ltac:(lia)) as (q & Hq & Hget).
    unfold usage_step. rewrite Hget; simpl.
    assert (Hterm : forall p, assigned_to assign_dev e p = (q =? Z.of_nat p))
      by (intros p; unfold assigned_to; by rewrite Hq).
    destruct (out_of_range pb q) eqn:Hoor; simpl.
    + split; [done|]. intros p Hp. rewrite map_app; cbn [map]; rewrite Qsum_snoc.
      rewrite (Hu p Hp), Hterm.
      replace (q =? Z.of_nat p) with false; [ring|].
      symmetry. apply Z.eqb_neq. intros ->.
      unfold out_of_range in Hoor. apply orb_true_iff in Hoor as [H|H]; lia.
    + apply out_of_range_false in Hoor. rewrite Hadd, length_add_at.
      split; [done|]. intros p Hp. rewrite map_app; cbn [map]; rewrite Qsum_snoc.
      rewrite used_at_add_at by lia. rewrite Hterm.
      case_decide as Hqp.
      * replace (q =? Z.of_nat p) with true by (symmetry; apply Z.eqb_eq; lia).
        by rewrite (Hu p Hp).
      * replace (q =? Z.of_nat p) with false by (symmetry; apply Z.eqb_neq; lia).
        rewrite (Hu p Hp). ring.
Qed.

Lemma usage_loop pb assign_dev :
  length assign_dev = E pb ->
  wpr (for_each (range (E pb)) (usage_step pb assign_dev) (zero_usage (P pb)))
      (fun u => forall p, (p < P pb)%nat ->
         (used_at (cpu_used u) p == load pb cpu assign_dev p)%Q /\
         (used_at (mem_used u) p == load pb mem assign_dev p)%Q /\
         (used_at (sto_used u) p == load pb sto assign_dev p)%Q).
Proof.
  intros Hlen.
  pose proof (usage_loop_res pb assign_dev cpu cpu_used Hlen ltac:(done) ltac:(done)) as H1.
  pose proof (usage_loop_res pb assign_dev mem mem_used Hlen ltac:(done) ltac:(done)) as H2.
  pose proof (usage_loop_res pb assign_dev sto sto_used Hlen ltac:(done) ltac:(done)) as H3.
  eapply wpr_mono; [exact (wpr_and _ _ _ H1 (wpr_and _ _ _ H2 H3))|].
  intros u ([_ Hc] & [_ Hm] & [_ Hs]) p Hp. auto.
Qed.

(** The latency loop adds one [latency_term] per device. *)
Lemma latency_loop pb assign_dev :
  length assign_dev = E pb ->
  wpr (for_each (range (E pb)) (latency_step pb assign_dev) 0%Q)
      (fun lat => (lat == total_latency pb assign_dev)%Q).
Proof.
  intros Hlen. unfold total_latency.
  apply (wpr_for_each _ (fun done lat =>
    (lat == Qsum (map (latency_term pb assign_dev) done))%Q)); [done|].
  intros done e lat He Hlat. apply elem_of_range in He.
  destruct (np_get_lt assign_dev e ltac:(lia)) as (q & Hq & Hget).
  unfold latency_step. rewrite Hget; simpl.
  assert (Hterm : latency_term pb assign_dev e =
                  if out_of_range pb q then 1000000%Q else dist pb e (Z.to_nat q))
    by (unfold latency_term; by rewrite Hq).
  destruct (out_of_range pb q); simpl;
    rewrite map_app; cbn [map]; rewrite Qsum_snoc; by rewrite Hlat, Hterm.
Qed.

Lemma placement_loop_zeros pb :
  wpr (for_each (range (P pb)) (placement_step pb (replicate (P pb) 0)) 0%Q)
      (fun total => total = 0%Q).
Proof.
  apply (wpr_for_each _ (fun _ total => total = 0%Q)); [done|].
  intros done p total Hp ->. apply elem_of_range in Hp.
  unfold placement_step. by rewrite np_get_replicate.
Qed.

Lemma coverage_loop_zeros pb assign_dev :
  length assign_dev = E pb ->
  wpr (for_each (range (E pb)) (coverage_step pb (replicate (P pb) 0) assign_dev) 0%Q)
      (fun pen => (pen == 100000 * Qnat (E pb))%Q).
Proof.
  intros Hlen.
  eapply wpr_mono.
  - apply (wpr_for_each _ (fun done pen => (pen == 100000 * Qnat (length done))%Q)); [done|].
    intros done e pen He Hpen. apply elem_of_range in He.
    destruct (np_get_lt assign_dev e ltac:(lia)) as (q & Hq & Hget).
    assert (Hnext : (pen + 100000 == 100000 * Qnat (length (done ++ [e])))%Q).
    { rewrite length_app; simpl. rewrite Nat.add_1_r, Qnat_S, Hpen. ring. }
    unfold coverage_step. rewrite Hget; simpl.
    destruct (out_of_range pb q) eqn:Hoor; simpl; [done|].
    apply out_of_range_false in Hoor.
    rewrite np_get_replicate by lia. simpl. done.
  - intros pen Hpen. simpl in Hpen. unfold range in Hpen. by rewrite length_seq in Hpen.
Qed.

Lemma capacity_loop_zeros pb assign_dev u pen1 :
  (forall p, (p < P pb)%nat ->
     (used_at (cpu_used u) p == load pb cpu assign_dev p)%Q /\
     (used_at (mem_used u) p == load pb mem assign_dev p)%Q /\
     (used_at (sto_used u) p == load pb sto assign_dev p)%Q) ->
  wpr (for_each (range (P pb)) (capacity_step pb (replicate (P pb) 0) u) pen1)
      (fun pen => (pen == pen1 + 1000000 * Qnat (loaded_count pb assign_dev))%Q).
Proof.
  intros Hu. unfold loaded_count.
  apply (wpr_for_each _ (fun done pen =>
    (pen == pen1 + 1000000 * Qnat (length (List.filter (loaded pb assign_dev) done)))%Q)).
  - simpl. unfold Qnat; simpl. ring.
  - intros done p pen Hp Hpen. apply elem_of_range in Hp.
    unfold capacity_step. rewrite np_get_replicate by lia. simpl.
    destruct (Hu p Hp) as (Hc & Hm & Hs).
    rewrite (Qltb_compat 0 0 _ _ (Qeq_refl 0) Hc), (Qltb_compat 0 0 _ _ (Qeq_refl 0) Hm),
      (Qltb_compat 0 0 _ _ (Qeq_refl 0) Hs).
    fold (loaded pb assign_dev p).
    rewrite List.filter_app; simpl.
    destruct (loaded pb assign_dev p); simpl.
    + rewrite length_app; simpl. rewrite Nat.add_1_r, Qnat_S, Hpen. ring.
    + by rewrite app_nil_r.
Qed.

(** ** C1 *)

(** C1, as the specification states it, fails: with nothing placed, a
    location that receives demand adds 1e6 to the penalty on top of the
    1e5 of its uncovered device. *)
Lemma evaluate_nothing_placed_counterexample :
  exists m, evaluate one_device [0] [0] default_penalty_coeff = Ok m /\
            ~ (penalty m == 100000 * Qnat (E one_device))%Q.
Proof.
  eexists. split; [vm_compute; reflexivity|]. vm_compute. discriminate.
Qed.

(** C1 (amended): with an all-zero placement vector, [evaluate] returns
    placement_cost 0, latency the sum over the devices of the distance to
    the assigned location (1e6 for an assignment outside [0,P)), and
    penalty 1e5 per device plus 1e6 per location with nonzero aggregated
    demand. *)
Theorem evaluate_nothing_placed pb assign_dev :
  length assign_dev = E pb ->
  exists m, evaluate pb (replicate (P pb) 0) assign_dev default_penalty_coeff = Ok m /\
    (placement_cost m == 0)%Q /\
    (latency m == total_latency pb assign_dev)%Q /\
    (penalty m == 100000 * Qnat (E pb) + 1000000 * Qnat (loaded_count pb assign_dev))%Q.
Proof.
  intros Hlen. apply wpr_ok. unfold evaluate.
  apply wpr_bind. eapply wpr_mono; [apply placement_loop_zeros|]. intros total ->.
  apply wpr_bind. eapply wpr_mono; [by apply latency_loop|]. intros lat Hlat.
  apply wpr_bind. eapply wpr_mono; [by apply coverage_loop_zeros|]. intros pen1 Hpen1.
  apply wpr_bind. eapply wpr_mono; [by apply usage_loop|]. intros u Hu.
  apply wpr_bind. eapply wpr_mono; [by apply (capacity_loop_zeros pb assign_dev u pen1)|].
  intros pen Hpen. simpl. split; [done|]. split; [done|]. by rewrite Hpen, Hpen1.
Qed.

Lemma evaluate_nothing_placed_witness :
  exists m, evaluate one_device (replicate (P one_device) 0) [0] default_penalty_coeff = Ok m /\
    (placement_cost m == 0)%Q /\
    (latency m == total_latency one_device [0%Z])%Q /\
    (penalty m == 100000 * Qnat (E one_device) + 1000000 * Qnat (loaded_count one_device [0%Z]))%Q.
Proof. apply (evaluate_nothing_placed one_device [0]). reflexivity. Defined.

Lemma py_index_ok {A} (l : list A) (c : Z) :
  1 <= c <= Z.of_nat (length l) -> exists t, py_index l (c - 1) = Ok t.
Proof.
  intros Hc. unfold py_index.
  replace ((0 <=? c - 1) && (c - 1 <? Z.of_nat (length l))) with true
    by (symmetry; apply andb_true_iff; split; [apply Z.leb_le | apply Z.ltb_lt]; lia).
  destruct (np_get_lt l (Z.to_nat (c - 1)) ltac:(lia)) as (t & _ & Ht). by exists t.
Qed.

Lemma valid_placement_lookup pb place_loc p :
  valid_placement pb place_loc -> (p < P pb)%nat ->
  exists c, place_loc !! p = Some c /\ np_get place_loc p = Ok c /\ 0 <= c <= Z.of_nat (T pb).
Proof.
  intros [Hlen Hall] Hp.
  destruct (np_get_lt place_loc p ltac:(lia)) as (c & Hc & Hget).
  exists c. split; [done|]. split; [done|].
  rewrite Forall_forall in Hall. apply Hall. by apply list_elem_of_lookup_2 in Hc.
Qed.

Lemma placement_loop_total pb place_loc :
  valid_placement pb place_loc ->
  wpr (for_each (range (P pb)) (placement_step pb place_loc) 0%Q) (fun _ => True).
Proof.
  intros Hv. apply (wpr_for_each _ (fun _ _ => True)); [done|].
  intros done p total Hp _. apply elem_of_range in Hp.
  destruct (valid_placement_lookup pb place_loc p Hv Hp) as (c & _ & Hget & Hc).
  unfold placement_step. rewrite Hget; simpl.
  destruct (0 <? c) eqn:Hpos; [|done]. apply Z.ltb_lt in Hpos.
  unfold cost_at.
  replace (c - 1 <? Z.of_nat (T pb)) with true by (symmetry; apply Z.ltb_lt; lia).
  replace (p <? P pb)%nat with true by (symmetry; apply Nat.ltb_lt; lia).
  done.
Qed.

Lemma coverage_loop_total pb place_loc assign_dev :
  valid_placement pb place_loc -> length assign_dev = E pb ->
  wpr (for_each (range (E pb)) (coverage_step pb place_loc assign_dev) 0%Q) (fun _ => True).
Proof.
  intros Hv Hlen. apply (wpr_for_each _ (fun _ _ => True)); [done|].
  intros done e pen He _. apply elem_of_range in He.
  destruct (np_get_lt assign_dev e ltac:(lia)) as (q & Hq & Hget).
  unfold coverage_step. rewrite Hget; simpl.
  destruct (out_of_range pb q) eqn:Hoor; [done|].
  apply out_of_range_false in Hoor.
  destruct (valid_placement_lookup pb place_loc (Z.to_nat q) Hv ltac:(lia)) as (c & _ & Hc & Hr).
  rewrite Hc; simpl.
  destruct (c =? 0) eqn:Hz; [done|]. apply Z.eqb_neq in Hz.
  destruct (py_index_ok (cloudlet_types pb) c) as [t Ht]; [unfold T in Hr; lia|].
  rewrite Ht; simpl. by destruct (Qltb _ _).
Qed.

Lemma capacity_loop_total pb place_loc u pen1 :
  valid_placement pb place_loc ->
  wpr (for_each (range (P pb)) (capacity_step pb place_loc u) pen1) (fun _ => True).
Proof.
  intros Hv. apply (wpr_for_each _ (fun _ _ => True)); [done|].
  intros done p pen Hp _. apply elem_of_range in Hp.
  destruct (valid_placement_lookup pb place_loc p Hv Hp) as (c & _ & Hget & Hc).
  unfold capacity_step. rewrite Hget; simpl.
  destruct (c =? 0) eqn:Hz.
  - by destruct (_ || _).
  - apply Z.eqb_neq in Hz.
    destruct (py_index_ok (cloudlet_types pb) c) as [t Ht]; [unfold T in Hc; lia|].
    by rewrite Ht.
Qed.

(** On vectors of the data model [evaluate] returns; its fitness is the
    weighted sum of the three metrics and its latency the sum of the
    devices' terms. *)
Lemma evaluate_metrics pb place_loc assign_dev coeff :
  valid_placement pb place_loc ->
  length assign_dev = E pb ->
  wpr (evaluate pb place_loc assign_dev coeff)
      (fun m => fitness m = (w_cost * placement_cost m + w_lat * latency m + penalty m * coeff)%Q
                /\ (latency m == total_latency pb assign_dev)%Q).
Proof.
  intros Hv Hlen. unfold evaluate.
  apply wpr_bind. eapply wpr_mono; [by apply placement_loop_total|]. intros total _.
  apply wpr_bind. eapply wpr_mono; [by apply latency_loop|]. intros lat Hlat.
  apply wpr_bind. eapply wpr_mono; [by apply coverage_loop_total|]. intros pen1 _.
  apply wpr_bind. eapply wpr_mono; [by apply usage_loop|]. intros u _.
  apply wpr_bind. eapply wpr_mono; [by apply capacity_loop_total|]. intros pen _.
  simpl. split; [reflexivity | exact Hlat].
Qed.

(** ** C2 *)

(** C2: on a placement vector and an assignment vector of the data model,
    [evaluate] returns, with fitness = 0.4 * placement_cost + 0.6 * latency
    + penalty * 1e6 under the default coefficient, the latency being the sum
    over the devices of the distance to the assigned location, or of 1e6 for
    an assignment index outside [0,P). *)
Theorem evaluate_fitness pb place_loc assign_dev :
  valid_placement pb place_loc ->
  length assign_dev = E pb ->
  exists m, evaluate pb place_loc assign_dev default_penalty_coeff = Ok m /\
    (fitness m == (4 # 10) * placement_cost m + (6 # 10) * latency m + penalty m * 1000000)%Q /\
    (latency m == total_latency pb assign_dev)%Q.
Proof.
  intros Hv Hlen.
  pose proof (evaluate_metrics pb place_loc assign_dev default_penalty_coeff Hv Hlen) as Hwp.
  apply wpr_ok in Hwp as (m & Hrun & Hfit & Hlat).
  exists m. split; [exact Hrun|]. split; [|exact Hlat].
  rewrite Hfit. unfold w_cost, w_lat, default_penalty_coeff. reflexivity.
Qed.

Lemma evaluate_fitness_witness :
  exists m, evaluate two_sites [1; 0] [7] default_penalty_coeff = Ok m /\
    (fitness m == (4 # 10) * placement_cost m + (6 # 10) * latency m + penalty m * 1000000)%Q /\
    (latency m == total_latency two_sites [7%Z])%Q.
Proof.
  apply (evaluate_fitness two_sites [1; 0] [7]).
  - split; [reflexivity|]. repeat constructor; vm_compute; discriminate.
  - reflexivity.
Defined.

(** * The archive *)

Lemma scan_archive_spec m l k removals :
  scan_archive (enumerate_from k l) m removals =
  if existsb (fun x => dominates (metrics x) m) l
  then (true, snd (scan_archive (enumerate_from k l) m removals))
  else (false, removals ++ dominated_positions m k l).
Proof.
  revert k removals. induction l as [|x l IH]; intros k removals; simpl.
  - by rewrite app_nil_r.
  - destruct (dominates (metrics x) m); simpl; [done|].
    destruct (dominates m (metrics x)); rewrite IH;
      destruct (existsb _ l); simpl; try done.
    by rewrite <- app_assoc.
Qed.

Lemma dominated_positions_lower m k l :
  Forall (fun i => (k <= i)%nat) (dominated_positions m k l).
Proof.
  revert k. induction l as [|x l IH]; intros k; simpl; [constructor|].
  assert (Forall (fun i => (k <= i)%nat) (dominated_positions m (S k) l)).
  { eapply Forall_impl; [apply IH|]. simpl. lia. }
  destruct (dominates m (metrics x)); [constructor; [lia|done] | done].
Qed.

(** Sorting in decreasing order a list whose head is below all the rest. *)
Lemma insert_by_below x l :
  Forall (fun y => (x < y)%nat) l ->
  insert_by (fun a b => Nat.ltb b a) x l = l ++ [x].
Proof.
  induction l as [|y l IH]; intros Hall; simpl; [done|].
  apply Forall_cons in Hall as [Hy Hall].
  replace (x <? y)%nat with true by (symmetry; apply Nat.ltb_lt; lia).
  by rewrite IH.
Qed.

Lemma sort_dominated_positions m k l :
  sort_by (fun a b => Nat.ltb b a) (dominated_positions m k l)
  = rev (dominated_positions m k l).
Proof.
  revert k. induction l as [|x l IH]; intros k; simpl; [done|].
  destruct (dominates m (metrics x)); [|apply IH].
  unfold sort_by in *. simpl. rewrite IH. apply insert_by_below.
  apply Forall_rev. eapply Forall_impl; [apply dominated_positions_lower|]. simpl. lia.
Qed.

Lemma pop_dominated m pre l :
  fold_left (fun a idx => delete idx a) (rev (dominated_positions m (length pre) l)) (pre ++ l)
  = pre ++ List.filter (fun x => negb (dominates m (metrics x))) l.
Proof.
  revert pre. induction l as [|x l IH]; intros pre; simpl; [done|].
  pose proof (IH (pre ++ [x])) as IH'.
  rewrite length_app, Nat.add_1_r, <- app_assoc in IH'. simpl in IH'.
  destruct (dominates m (metrics x)); simpl.
  - rewrite fold_left_app, IH'. simpl. rewrite <- app_assoc. simpl.
    rewrite delete_middle. done.
  - rewrite IH'. by rewrite <- app_assoc.
Qed.

(** What the update amounts to: a candidate that some entry dominates is
    dropped; otherwise the entries it dominates go and it is appended. *)
Lemma nondominated_archive_update_spec archive sol m :
  nondominated_archive_update archive sol m =
  if existsb (fun x => dominates (metrics x) m) archive then archive
  else List.filter (fun x => negb (dominates m (metrics x))) archive
       ++ [ {| entry_place_loc := fst sol; entry_assign_dev := snd sol; metrics := m |} ].
Proof.
  unfold nondominated_archive_update, enumerate.
  rewrite scan_archive_spec. destruct (existsb _ archive); simpl; [done|].
  unfold pop_all. rewrite sort_dominated_positions.
  pose proof (pop_dominated m [] archive) as Hpop. simpl in Hpop. by rewrite Hpop.
Qed.

Lemma dominates_irrefl m : dominates m m = false.
Proof. unfold dominates. rewrite !Qltb_irrefl. simpl. apply andb_false_r. Qed.

Lemma archive_update_keeps_nondominated archive sol m :
  nondominated archive -> nondominated (nondominated_archive_update archive sol m).
Proof.
  intros Hinv. rewrite nondominated_archive_update_spec.
  destruct (existsb _ archive) eqn:Hex; [done|].
  assert (Hnone : forall x, x ∈ archive -> dominates (metrics x) m = false).
  { intros x Hx. apply not_true_iff_false. intros Hd.
    apply not_true_iff_false in Hex. apply Hex. apply existsb_exists.
    exists x. split; [by apply list_elem_of_In | done]. }
  intros x y Hx Hy.
  apply elem_of_app in Hx as [Hx|Hx]; apply elem_of_app in Hy as [Hy|Hy].
  - apply list_elem_of_In, filter_In in Hx as [Hx _].
    apply list_elem_of_In, filter_In in Hy as [Hy _].
    apply Hinv; by apply list_elem_of_In.
  - apply list_elem_of_In, filter_In in Hx as [Hx _].
    apply list_elem_of_singleton in Hy as ->. simpl.
    apply Hnone. by apply list_elem_of_In.
  - apply list_elem_of_In, filter_In in Hy as [_ Hy].
    apply list_elem_of_singleton in Hx as ->. simpl.
    by apply negb_true_iff in Hy.
  - apply list_elem_of_singleton in Hx as ->. apply list_elem_of_singleton in Hy as ->.
    simpl. apply dominates_irrefl.
Qed.

(** ** C3 *)

(** C3: starting from an archive in which no entry dominates another, after
    any sequence of [nondominated_archive_update] calls no entry of the
    archive dominates another, dominance being: both objectives <= and at
    least one <. *)
Theorem archive_stays_nondominated archive calls :
  nondominated archive -> nondominated (archive_updates archive calls).
Proof.
  unfold archive_updates. revert archive.
  induction calls as [|c calls IH]; intros archive Hinv; simpl; [done|].
  apply IH. by apply archive_update_keeps_nondominated.
Qed.

Lemma archive_stays_nondominated_witness :
  nondominated (archive_updates []
    [ (([1], [0]), cost_latency 5 5); (([1], [0]), cost_latency 3 7);
      (([0], [0]), cost_latency 2 6); (([1], [0]), cost_latency 9 9) ]).
Proof.
  apply (archive_stays_nondominated []).
  intros x y Hx. by apply elem_of_nil in Hx.
Defined.

(** * Random draws *)

Section RandomFacts.
Context {RS : RandomSource}.

Lemma wp_random_random (Q : Q -> rng -> Prop) g :
  (forall r g', Q r g') -> wp random_random Q g.
Proof. intros HQ. unfold wp, random_random. simpl. apply HQ. Qed.

Lemma wp_random_randint a b (Q : Z -> rng -> Prop) g :
  a <= b -> (forall v g', a <= v <= b -> Q v g') -> wp (random_randint a b) Q g.
Proof.
  intros Hab HQ. unfold wp, random_randint.
  replace (a <=? b) with true by (symmetry; by apply Z.leb_le). simpl.
  apply HQ. by apply draw_randint_range.
Qed.

Lemma wp_np_random_randint lo hi (Q : Z -> rng -> Prop) g :
  lo < hi -> (forall v g', lo <= v < hi -> Q v g') -> wp (np_random_randint lo hi) Q g.
Proof.
  intros Hlt HQ. unfold wp, np_random_randint.
  replace (lo <? hi) with true by (symmetry; by apply Z.ltb_lt). simpl.
  apply HQ. by apply draw_np_randint_range.
Qed.

Lemma wp_np_random_choice_range n k (Q : list nat -> rng -> Prop) g :
  0 <= k <= Z.of_nat n ->
  (forall l g', length l = Z.to_nat k -> NoDup l -> Forall (fun p => (p < n)%nat) l -> Q l g') ->
  wp (np_random_choice_range n k) Q g.
Proof.
  intros Hk HQ. unfold wp, np_random_choice_range.
  replace ((0 <=? k) && (k <=? Z.of_nat n)) with true
    by (symmetry; apply andb_true_iff; split; apply Z.leb_le; lia).
  simpl. destruct (draw_np_sample_spec n (Z.to_nat k) g ltac:(lia)) as (H1 & H2 & H3).
  by apply HQ.
Qed.

Lemma wp_np_random_choice {A} (a : list A) (Q : A -> rng -> Prop) g :
  a ≠ [] -> (forall x g', x ∈ a -> Q x g') -> wp (np_random_choice a) Q g.
Proof.
  intros Hne HQ. unfold wp, np_random_choice. destruct a as [|x a]; [done|].
  pose proof (draw_np_position_range (length (x :: a)) g ltac:(simpl; lia)) as Hi.
  destruct (draw_np_position (length (x :: a)) g) as [i g']. simpl in *.
  apply HQ. apply list_elem_of_In. destruct i as [|i]; [by left|].
  right. apply nth_In. lia.
Qed.

End RandomFacts.

(** * [random_solution] *)

Lemma argmin_from_elem f best ps : argmin_from f best ps ∈ best :: ps.
Proof.
  revert best. induction ps as [|p ps IH]; intros best; simpl; [left|].
  destruct (Qltb (f p) (f best)).
  - right. apply IH.
  - specialize (IH best). apply elem_of_cons in IH as [->|IH]; [left | right; by right].
Qed.

Lemma np_argmin_lt f n :
  (1 <= n)%nat -> exists p, np_argmin f n = Ok p /\ (p < n)%nat.
Proof.
  intros Hn. destruct n as [|n]; [lia|]. simpl. eexists. split; [done|].
  pose proof (argmin_from_elem f 0%nat (seq 1 n)) as Hin.
  apply elem_of_cons in Hin as [->|Hin]; [lia|].
  apply elem_of_seq in Hin. lia.
Qed.

Lemma covering_range pb place_loc e :
  valid_placement pb place_loc ->
  wpr (covering pb place_loc e) (fun l => Forall (fun p => (p < P pb)%nat) l).
Proof.
  intros Hv. unfold covering.
  apply (wpr_for_each _ (fun _ l => Forall (fun p => (p < P pb)%nat) l)); [constructor|].
  intros done p acc Hp Hacc. apply elem_of_range in Hp.
  destruct (valid_placement_lookup pb place_loc p Hv Hp) as (c & _ & Hget & Hc).
  unfold covering_step. rewrite Hget; simpl.
  destruct (0 <? c) eqn:Hpos; [|done]. apply Z.ltb_lt in Hpos.
  destruct (py_index_ok (cloudlet_types pb) c) as [t Ht]; [unfold T in Hc; lia|].
  rewrite Ht; simpl. destruct (Qleb _ _); simpl; [|done].
  apply Forall_app. split; [done|]. by repeat constructor.
Qed.

Lemma count_nonzero_insert l i v :
  l !! i = Some 0 -> v ≠ 0 -> count_nonzero (<[i := v]> l) = S (count_nonzero l).
Proof.
  unfold count_nonzero. revert i. induction l as [|c l IH]; intros i Hi Hv; [done|].
  destruct i as [|i]; simpl in *.
  - injection Hi as ->. simpl.
    replace (v =? 0) with false by (symmetry; by apply Z.eqb_neq). done.
  - destruct (negb (c =? 0)); simpl; by rewrite IH.
Qed.

Lemma count_nonzero_replicate n : count_nonzero (replicate n 0) = 0%nat.
Proof. unfold count_nonzero. induction n; simpl; done. Qed.

Section RandomSolution.
Context {RS : RandomSource}.

(** The placement loop: the sampled locations, and only they, get a type. *)
Lemma place_loop pb loc_indices g :
  NoDup loc_indices -> Forall (fun p => (p < P pb)%nat) loc_indices ->
  (1 <= T pb)%nat ->
  wp (for_each loc_indices (place_random_type pb) (replicate (P pb) 0))
     (fun pl _ => valid_placement pb pl /\ count_nonzero pl = length loc_indices) g.
Proof.
  intros Hnd Hall HT.
  eapply wp_mono.
  - apply (wp_for_each_prefix _ (fun done pl _ =>
      valid_placement pb pl /\ count_nonzero pl = length done /\
      forall i, i ∉ done -> (i < P pb)%nat -> pl !! i = Some 0)).
    + split; [|split].
      * split; [apply length_replicate|]. apply Forall_replicate. lia.
      * apply count_nonzero_replicate.
      * intros i _ Hi. by apply lookup_replicate_2.
    + intros done p todo pl g' Hxs ((Hlen & Hrange) & Hcount & Hzero).
      subst loc_indices. apply NoDup_app in Hnd as (_ & Hdisj & _).
      assert (Hp : (p < P pb)%nat).
      { rewrite Forall_forall in Hall. apply Hall. apply elem_of_app. right. left. }
      assert (Hfresh : p ∉ done) by (intros Hin; apply (Hdisj p Hin); left).
      unfold place_random_type. apply wp_bind. apply wp_np_random_randint; [lia|].
      intros t g'' Ht. apply wp_lift. rewrite np_set_ok by lia. simpl.
      split; [|split].
      * split; [by rewrite length_insert|]. apply Forall_insert; [done|lia].
      * rewrite length_app; simpl. rewrite Nat.add_1_r.
        rewrite count_nonzero_insert; [by rewrite Hcount | by apply Hzero | lia].
      * intros i Hi Hlt. rewrite list_lookup_insert_ne.
        -- apply Hzero; [|done]. intros Hin. apply Hi. apply elem_of_app. by left.
        -- intros ->. apply Hi. apply elem_of_app. right. left.
  - intros pl _ (Hv & Hcount & _). done.
Qed.

(** The assignment loop: every device gets a location of [range(P)]. *)
Lemma assign_loop pb place_loc g :
  valid_placement pb place_loc -> (1 <= P pb)%nat ->
  wp (for_each (range (E pb)) (assign_random pb place_loc) (replicate (E pb) 0))
     (fun ad _ => valid_assignment pb ad) g.
Proof.
  intros Hv HP.
  apply (wp_for_each _ (fun _ ad _ => valid_assignment pb ad)).
  - split; [apply length_replicate|]. apply Forall_replicate. lia.
  - intros done e ad g' He [Hlen Hrange]. apply elem_of_range in He.
    unfold assign_random. apply wp_bind. apply wp_lift.
    eapply wpr_mono; [by apply covering_range|]. intros candidates Hcand.
    destruct (length candidates =? 0)%nat eqn:Hempty.
    + apply wp_bind. apply wp_lift.
      destruct (np_argmin_lt (dist pb e) (P pb) HP) as (near & -> & Hnear). simpl.
      apply wp_lift. rewrite np_set_ok by lia. simpl.
      split; [by rewrite length_insert|]. apply Forall_insert; [done|lia].
    + apply wp_bind. apply wp_np_random_choice.
      { intros ->. by apply Nat.eqb_neq in Hempty. }
      intros p g'' Hp. apply wp_lift. rewrite np_set_ok by lia. simpl.
      split; [by rewrite length_insert|]. apply Forall_insert; [done|].
      rewrite Forall_forall in Hcand. specialize (Hcand p Hp). lia.
Qed.

(** With P >= 1 and T >= 1 [random_solution] returns a placement vector of
    the data model with 1 to max(1, P/4) nonzero entries and an assignment
    vector with entries in [0,P). *)
Lemma random_solution_returns pb g :
  (1 <= P pb)%nat -> (1 <= T pb)%nat ->
  wp (random_solution pb None)
     (fun sol _ => valid_placement pb (fst sol) /\
        1 <= Z.of_nat (count_nonzero (fst sol)) <= Z.max 1 (Z.of_nat (P pb) / 4) /\
        valid_assignment pb (snd sol)) g.
Proof.
  intros HP HT. unfold random_solution.
  assert (Hmax : Z.max 1 (Z.of_nat (P pb) / 4) <= Z.of_nat (P pb)).
  { pose proof (Z.div_le_upper_bound (Z.of_nat (P pb)) 4 (Z.of_nat (P pb))). lia. }
  apply wp_bind. apply wp_np_random_randint; [lia|]. intros k g1 Hk.
  apply wp_bind. apply wp_np_random_choice_range; [lia|]. intros l g2 Hlen Hnd Hall.
  apply wp_bind. eapply wp_mono; [by apply place_loop|]. intros pl g3 [Hv Hcount].
  apply wp_bind. eapply wp_mono; [by apply assign_loop|]. intros ad g4 Hva.
  apply wp_ret. simpl. split; [done|]. split; [|done]. rewrite Hcount, Hlen. lia.
Qed.

(** ** C6 *)

(** C6: for an instance with P >= 1 and T >= 1, [random_solution] returns a
    pair whose placement entries are in {0,...,T}, between 1 and max(1, P/4)
    of them nonzero, and whose assignment entries are in [0,P). *)
Theorem random_solution_ranges pb g :
  (1 <= P pb)%nat -> (1 <= T pb)%nat ->
  exists place_loc assign_dev g',
    random_solution pb None g = Ok ((place_loc, assign_dev), g') /\
    length place_loc = P pb /\
    Forall (fun c => 0 <= c <= Z.of_nat (T pb)) place_loc /\
    1 <= Z.of_nat (count_nonzero place_loc) <= Z.max 1 (Z.of_nat (P pb) / 4) /\
    length assign_dev = E pb /\
    Forall (fun p => 0 <= p < Z.of_nat (P pb)) assign_dev.
Proof.
  intros HP HT.
  pose proof (random_solution_returns pb g HP HT) as Hwp.
  apply wp_ok in Hwp as ([pl ad] & g' & Hrun & [Hlen Hrange] & Hcount & [Hlen' Hrange']).
  exists pl, ad, g'. simpl in *. done.
Qed.

End RandomSolution.

Lemma random_solution_ranges_witness :
  exists place_loc assign_dev g',
    random_solution (RS := script_source) two_sites None [5; 1; 3]%nat
      = Ok ((place_loc, assign_dev), g') /\
    length place_loc = P two_sites /\
    Forall (fun c => 0 <= c <= Z.of_nat (T two_sites)) place_loc /\
    1 <= Z.of_nat (count_nonzero place_loc) <= Z.max 1 (Z.of_nat (P two_sites) / 4) /\
    length assign_dev = E two_sites /\
    Forall (fun p => 0 <= p < Z.of_nat (P two_sites)) assign_dev.
Proof.
  apply (random_solution_ranges (RS := script_source) two_sites [5; 1; 3]%nat).
  - simpl. lia.
  - unfold T. simpl. lia.
Defined.

(** * Construction *)

(** ** C7 *)

(** C7, as the specification states it, fails: the constructor accepts a
    population size of zero (and zero generations) and returns an optimizer
    with an empty population. *)
Lemma init_zero_population_counterexample :
  exists o g, HybridFFPSO_init (RS := script_source) two_sites 0 0 42 = Ok (o, g) /\
              population o = [] /\ max_iter o = 0.
Proof. eexists _, _. split; [vm_compute; reflexivity|]. done. Qed.

Section Construction.
Context {RS : RandomSource}.

Lemma random_solution_no_locations pb g :
  random_solution (no_locations pb) None g = Raise ValueError.
Proof.
  unfold random_solution. cbn [P no_locations].
  change (Z.max 1 (Z.of_nat 0 / 4) + 1) with 2.
  unfold mbind at 1, M_bind, np_random_randint.
  change (1 <? 2) with true. cbn iota.
  pose proof (draw_np_randint_range 1 2 g ltac:(lia)) as Hk.
  destruct (draw_np_randint 1 2 g) as [k g1]. simpl in Hk.
  unfold mbind at 1, M_bind, np_random_choice_range.
  replace ((0 <=? k) && (k <=? Z.of_nat 0)) with false; [done|].
  symmetry. apply andb_false_iff. right. apply Z.leb_gt. lia.
Qed.

Lemma random_solution_raises pb g :
  P pb = 0%nat \/ T pb = 0%nat -> random_solution pb None g = Raise ValueError.
Proof.
  intros Hzero. unfold random_solution.
  assert (Hmax : 1 <= Z.max 1 (Z.of_nat (P pb) / 4)) by lia.
  set (mx := Z.max 1 (Z.of_nat (P pb) / 4)) in *.
  unfold mbind at 1, M_bind, np_random_randint.
  replace (1 <? mx + 1) with true by (symmetry; apply Z.ltb_lt; lia).
  pose proof (draw_np_randint_range 1 (mx + 1) g ltac:(lia)) as Hk.
  destruct (draw_np_randint 1 (mx + 1) g) as [k g1]. simpl in Hk.
  unfold mbind at 1, M_bind, np_random_choice_range.
  destruct ((0 <=? k) && (k <=? Z.of_nat (P pb))) eqn:Hsize; [|done].
  apply andb_true_iff in Hsize as [_ Hle%Z.leb_le].
  destruct Hzero as [HP|HT]; [lia|].
  pose proof (draw_np_sample_spec (P pb) (Z.to_nat k) g1 ltac:(lia)) as (Hlen & _ & _).
  destruct (draw_np_sample (P pb) (Z.to_nat k) g1) as [l g2]. simpl in Hlen.
  destruct l as [|p l]; [simpl in Hlen; lia|].
  apply M_bind_raise. cbn [for_each]. apply M_bind_raise.
  unfold place_random_type. apply M_bind_raise.
  unfold np_random_randint. by rewrite HT.
Qed.

End Construction.

(** * The firefly phase *)

Lemma insert_by_perm {A} (before : A -> A -> bool) x l : insert_by before x l ≡ₚ x :: l.
Proof.
  induction l as [|y l IH]; simpl; [done|].
  destruct (before y x); [|done]. rewrite IH. apply Permutation_swap.
Qed.

Lemma sort_by_perm {A} (before : A -> A -> bool) l : sort_by before l ≡ₚ l.
Proof.
  unfold sort_by. induction l as [|x l IH]; simpl; [done|].
  by rewrite insert_by_perm, IH.
Qed.

Lemma sorted_idx_length evals n : length (sorted_idx evals n) = n.
Proof. unfold sorted_idx. rewrite sort_by_perm. apply length_seq. Qed.

Lemma sorted_idx_lookup evals n ii :
  (ii < n)%nat ->
  exists i, sorted_idx evals n !! ii = Some i /\ nth ii (sorted_idx evals n) 0%nat = i /\ (i < n)%nat.
Proof.
  intros Hii.
  destruct (lookup_lt_is_Some_2 (sorted_idx evals n) ii) as [i Hi];
    [by rewrite sorted_idx_length|].
  exists i. split; [done|]. split.
  - apply nth_lookup_Some with (d := 0%nat) in Hi. by rewrite <- Hi, nth_lookup.
  - apply list_elem_of_lookup_2 in Hi. unfold sorted_idx in Hi.
    rewrite sort_by_perm in Hi. by apply elem_of_range in Hi.
Qed.

(** A loop whose bodies never raise is a fold. *)
Lemma for_each_fold {S X A} (body : X -> A -> M S A) (f : A * S -> X -> A * S)
    (Inv : A * S -> Prop) (xs : list X) (a : A) (s : S) :
  Inv (a, s) ->
  (forall x st, x ∈ xs -> Inv st ->
     body x (fst st) (snd st) = Ok (f st x) /\ Inv (f st x)) ->
  for_each xs body a s = Ok (fold_left f xs (a, s)) /\ Inv (fold_left f xs (a, s)).
Proof.
  revert a s. induction xs as [|x xs IH]; intros a s HI Hstep; simpl; [done|].
  destruct (Hstep x (a, s) ltac:(left) HI) as [Hrun HI']. simpl in Hrun.
  destruct (f (a, s) x) as [a' s'] eqn:Hf.
  rewrite (M_bind_ok _ _ _ _ _ Hrun).
  apply IH; [done|]. intros y st Hy. apply Hstep. by right.
Qed.

Lemma fold_left_flat_map {A X Y} (f : A -> Y -> A) (h : X -> list Y) (l : list X) (a : A) :
  fold_left f (flat_map h l) a = fold_left (fun a x => fold_left f (h x) a) l a.
Proof.
  revert a. induction l as [|x l IH]; intros a; simpl; [done|].
  by rewrite fold_left_app, IH.
Qed.

Lemma fold_left_fmap {A X Y} (f : A -> Y -> A) (h : X -> Y) (l : list X) (a : A) :
  fold_left f (map h l) a = fold_left (fun a x => f a (h x)) l a.
Proof. revert a. induction l as [|x l IH]; intros a; simpl; [done|]. apply IH. Qed.

Section Firefly.
Context {RS : RandomSource}.

Lemma attract_length prob brighter mine g :
  length (fst (attract prob brighter mine g)) = length mine.
Proof.
  revert mine g. induction brighter as [|b bs IH]; intros mine g; simpl; [done|].
  destruct mine as [|c cs]; [done|].
  destruct (b =? c); simpl; by rewrite IH.
Qed.

(** The loop over the slots, in place and by index, is [attract]. *)
Lemma firefly_slots_from prob bpre bs pre cs g :
  length bpre = length pre -> length bs = length cs ->
  for_each (seq (length pre) (length cs)) (firefly_slot prob (bpre ++ bs)) (pre ++ cs) g
  = Ok (pre ++ fst (attract prob bs cs g), snd (attract prob bs cs g)).
Proof.
  revert bpre bs pre g. induction cs as [|c cs IH]; intros bpre bs pre g Hpre Hlen.
  - destruct bs; [|done]. simpl. done.
  - destruct bs as [|b bs]; [done|]. simpl in Hlen.
    cbn [length seq for_each].
    assert (Hb : np_get (bpre ++ b :: bs) (length pre) = Ok b).
    { apply np_get_ok. rewrite <- Hpre. by apply list_lookup_middle. }
    assert (Hc : forall c', np_get (pre ++ c' :: cs) (length pre) = Ok c').
    { intros c'. apply np_get_ok. by apply list_lookup_middle. }
    assert (Hnext : forall c' g',
      for_each (seq (S (length pre)) (length cs)) (firefly_slot prob (bpre ++ b :: bs))
        (pre ++ c' :: cs) g'
      = Ok (pre ++ c' :: fst (attract prob bs cs g'), snd (attract prob bs cs g'))).
    { intros c' g'.
      pose proof (IH (bpre ++ [b]) bs (pre ++ [c']) g') as IH'.
      rewrite !length_app, <- !app_assoc in IH'. simpl in IH'.
      rewrite !Nat.add_1_r in IH'. apply IH'; lia. }
    assert (Hslot : firefly_slot prob (bpre ++ b :: bs) (length pre) (pre ++ c :: cs) g
      = if b =? c then Ok (pre ++ c :: cs, g)
        else Ok (pre ++ (if Qltb (fst (draw_random g)) prob then b else c) :: cs,
                 snd (draw_random g))).
    { unfold firefly_slot.
      unfold mbind at 1, M_bind, lift_result. rewrite Hb.
      unfold mbind at 1, M_bind. rewrite Hc.
      destruct (b =? c); simpl; [done|].
      unfold mbind, M_bind, random_random. destruct (draw_random g) as [r g']; simpl.
      destruct (Qltb r prob); [|done].
      rewrite np_set_ok by (rewrite length_app; simpl; lia).
      by rewrite insert_app_r_alt, Nat.sub_diag by lia. }
    simpl attract.
    destruct (b =? c).
    + rewrite (M_bind_ok _ _ _ _ _ Hslot). by rewrite Hnext.
    + rewrite (M_bind_ok _ _ _ _ _ Hslot). by rewrite Hnext.
Qed.

Lemma firefly_slots prob brighter mine g :
  length brighter = length mine ->
  for_each (range (length mine)) (firefly_slot prob brighter) mine g
  = Ok (attract prob brighter mine g).
Proof.
  intros Hlen. pose proof (firefly_slots_from prob [] brighter [] mine g eq_refl Hlen) as H.
  simpl in H. unfold range. rewrite H. by destruct (attract prob brighter mine g).
Qed.

Lemma firefly_move_attracts pb part brighter_part g :
  length (place_loc part) = P pb -> length (assign_dev part) = E pb ->
  length (place_loc brighter_part) = P pb -> length (assign_dev brighter_part) = E pb ->
  firefly_move pb part brighter_part g = Ok (attract_particle part brighter_part g).
Proof.
  intros Hp He Hbp Hbe. unfold firefly_move, attract_particle.
  rewrite <- Hp at 1. erewrite M_bind_ok_pair; [|apply firefly_slots; lia].
  rewrite <- He at 1. erewrite M_bind_ok_pair; [|apply firefly_slots; lia].
  done.
Qed.

Lemma attract_pair_shaped pb evals pop g ij :
  shaped pb pop ->
  shaped pb (fst (attract_pair evals (pop, g) ij))
  /\ length (fst (attract_pair evals (pop, g) ij)) = length pop.
Proof.
  intros Hs. unfold attract_pair. simpl.
  destruct (Qltb _ _); [|done].
  destruct (pop !! fst ij) as [part|] eqn:Hi; [|done].
  destruct (pop !! snd ij) as [brighter|] eqn:Hj; [|done].
  simpl. split; [|by rewrite length_insert].
  apply Forall_insert; [done|]. simpl. rewrite !attract_length.
  unfold shaped in Hs. rewrite Forall_forall in Hs. apply Hs.
  by apply list_elem_of_lookup_2 in Hi.
Qed.

(** The two nested loops of the phase are one fold over the ranked pairs. *)
Lemma firefly_phase_fold pb evals pop g :
  shaped pb pop ->
  firefly_phase pb evals pop g
  = Ok (fold_left (attract_pair evals) (rank_pairs (sorted_idx evals (length pop))) (pop, g)).
Proof.
  intros Hshaped. unfold firefly_phase, rank_pairs.
  rewrite fold_left_flat_map, sorted_idx_length.
  set (n := length pop). set (order := sorted_idx evals n).
  set (Inv := fun st : list Particle * rng => shaped pb (fst st) /\ length (fst st) = n).
  apply (for_each_fold _ _ Inv); [done|].
  intros ii [pop1 g1] Hii [Hs1 Hn1]. simpl in Hs1, Hn1. apply elem_of_range in Hii.
  destruct (sorted_idx_lookup evals n ii Hii) as (i & Hi & Hnth_i & Hilt).
  fold order in Hi, Hnth_i.
  unfold firefly_row. simpl fst; simpl snd.
  erewrite M_bind_ok; [|by rewrite (np_get_ok _ _ _ Hi)].
  rewrite fold_left_fmap.
  apply (for_each_fold _ _ Inv); [done|].
  intros jj [pop2 g2] Hjj [Hs2 Hn2]. simpl in Hs2, Hn2. apply elem_of_range in Hjj.
  destruct (sorted_idx_lookup evals n jj ltac:(lia)) as (j & Hj & Hnth_j & Hjlt).
  fold order in Hj, Hnth_j. rewrite Hnth_i, Hnth_j.
  split; [|unfold Inv; destruct (attract_pair_shaped pb evals pop2 g2 (i, j) Hs2); split; [done|lia]].
  unfold firefly_pair, attract_pair. simpl fst; simpl snd.
  erewrite M_bind_ok; [|by rewrite (np_get_ok _ _ _ Hj)].
  destruct (Qltb _ _); [|done].
  destruct (lookup_lt_is_Some_2 pop2 i ltac:(lia)) as [part Hpart].
  destruct (lookup_lt_is_Some_2 pop2 j ltac:(lia)) as [brighter Hbr].
  rewrite Hpart, Hbr.
  erewrite M_bind_ok; [|by rewrite (np_get_ok _ _ _ Hpart)].
  erewrite M_bind_ok; [|by rewrite (np_get_ok _ _ _ Hbr)].
  unfold shaped in Hs2. rewrite Forall_forall in Hs2.
  destruct (Hs2 part) as [Hp1 Hp2]; [by apply list_elem_of_lookup_2 in Hpart|].
  destruct (Hs2 brighter) as [Hb1 Hb2]; [by apply list_elem_of_lookup_2 in Hbr|].
  erewrite M_bind_ok_pair; [|by apply firefly_move_attracts].
  done.
Qed.


(** ** The rank order *)

Lemma insert_by_sorted {A} (Rel : A -> A -> Prop) (before : A -> A -> bool) x l :
  (forall a b c, Rel a b -> Rel b c -> Rel a c) ->
  (forall y, y ∈ l -> before y x = true -> Rel y x) ->
  (forall y, y ∈ l -> before y x = false -> Rel x y) ->
  StronglySorted Rel l -> StronglySorted Rel (insert_by before x l).
Proof.
  intros Htrans. induction l as [|y l IH]; intros Hlow Hhigh Hs; simpl.
  - repeat constructor.
  - apply StronglySorted_inv in Hs as [Hs Hall].
    destruct (before y x) eqn:Hyx.
    + constructor.
      * apply IH; [| |done].
        -- intros z Hz. apply Hlow. by right.
        -- intros z Hz. apply Hhigh. by right.
      * rewrite insert_by_perm. constructor; [|done]. apply Hlow; [left|done].
    + assert (Hxy : Rel x y) by (apply Hhigh; [left|done]).
      constructor; [by constructor|]. constructor; [done|].
      eapply Forall_impl; [exact Hall|]. intros z Hz. by eapply Htrans.
Qed.

Lemma StronglySorted_lookup {A} (Rel : A -> A -> Prop) l a b x y :
  StronglySorted Rel l -> (a < b)%nat -> l !! a = Some x -> l !! b = Some y -> Rel x y.
Proof.
  intros Hs. revert a b. induction Hs as [|z l Hs IH Hall]; intros a b Hab Hx Hy; [done|].
  destruct b as [|b]; [lia|]. simpl in Hy. destruct a as [|a]; simpl in Hx.
  - injection Hx as <-. rewrite Forall_forall in Hall. apply Hall.
    by eapply list_elem_of_lookup_2.
  - apply (IH a b); [lia|done..].
Qed.

Lemma ranked_before_trans evals i j k :
  ranked_before evals i j -> ranked_before evals j k -> ranked_before evals i k.
Proof.
  unfold ranked_before. intros [H1|[H1 H1']] [H2|[H2 H2']].
  - left. lra.
  - left. lra.
  - left. lra.
  - right. split; [lra|lia].
Qed.

(** The rank order: [sorted] is stable, so the indices come by ascending
    fitness and, at equal fitness, by ascending index. *)
Lemma sorted_idx_ranked evals n : StronglySorted (ranked_before evals) (sorted_idx evals n).
Proof.
  unfold sorted_idx, range, sort_by. generalize 0%nat.
  induction n as [|n IH]; intros k; simpl; [constructor|].
  apply insert_by_sorted; [apply ranked_before_trans| | |apply IH].
  - intros y _ Hlt. apply Qltb_lt in Hlt. by left.
  - intros y Hy Hge. apply not_true_iff_false in Hge. rewrite Qltb_lt in Hge.
    apply Qnot_lt_le in Hge.
    assert (Hk : (k < y)%nat).
    { change (foldr (insert_by ?f) [] ?l) with (sort_by f l) in Hy.
      rewrite sort_by_perm in Hy. apply elem_of_seq in Hy. lia. }
    destruct (Qle_lt_or_eq _ _ Hge) as [Hlt|Heq]; [by left|by right].
Qed.

(** ** C8 *)

(** C8: in the firefly phase the ordered pairs (dim particle i, brighter
    particle j), j ranked ahead of i, are visited in rank order, the rank
    order being the population by ascending fitness and, at equal fitness,
    by position; a particle j ranked ahead of i is brighter when its fitness
    is strictly lower, and then each placement slot where the two differ is
    overwritten by the value of j exactly when its draw is below 0.5, and
    each differing assignment slot exactly when its draw is below 0.4.
    Nothing else is drawn or written. *)
Theorem firefly_phase_attracts pb evals pop g :
  shaped pb pop -> length evals = length pop ->
  firefly_phase pb evals pop g = Ok (firefly_phase_spec evals pop g) /\
  sorted_idx evals (length pop) ≡ₚ range (length pop) /\
  (forall a b i j, (a < b)%nat ->
     sorted_idx evals (length pop) !! a = Some i ->
     sorted_idx evals (length pop) !! b = Some j ->
     ranked_before evals i j).
Proof.
  intros Hshaped Hlen. split; [|split].
  - unfold firefly_phase_spec.
    rewrite (firefly_phase_fold pb evals pop g Hshaped). reflexivity.
  - unfold sorted_idx. apply sort_by_perm.
  - intros a b i j. apply StronglySorted_lookup, sorted_idx_ranked.
Qed.

End Firefly.

(** C8, as the specification states it, fails: particle 0 ranks strictly
    ahead of particle 1, their placement vectors differ in slot 0 and the
    next draw is below 0.5, yet the phase changes nothing and draws nothing,
    because the two have the same fitness. *)
(** Two particles of equal fitness: the one ranked ahead is not brighter,
    and the phase draws and writes nothing. *)
Lemma firefly_tie_skipped :
  sorted_idx tie_evals 2 = [0; 1]%nat /\
  place_loc <$> tie_population !! 0%nat = Some [1; 0] /\
  place_loc <$> tie_population !! 1%nat = Some [0; 1] /\
  Qltb (fst (draw_random (RandomSource := script_source) [0; 0; 0; 0]%nat)) (1 # 2) = true /\
  firefly_phase (RS := script_source) two_sites tie_evals tie_population [0; 0; 0; 0]%nat
  = Ok (tie_population, [0; 0; 0; 0]%nat).
Proof. repeat split; vm_compute; reflexivity. Qed.

(** Particle 1 moves towards particle 0, of lower fitness: the draws 0 and
    3/4 copy placement slot 0 and keep slot 1, the draw 0 copies the
    assignment. *)
Lemma firefly_phase_run :
  firefly_phase (RS := script_source) two_sites ranked_evals tie_population [0; 3; 0]%nat
  = Ok ([new_particle [1; 0] [0];
         {| place_loc := [1; 1]; assign_dev := [0];
            pbest_place := [0; 1]; pbest_assign := [1]; pbest_score := Inf |}], []).
Proof. vm_compute. reflexivity. Qed.

Lemma firefly_phase_attracts_witness :
  firefly_phase (RS := script_source) two_sites ranked_evals tie_population [0; 3; 0]%nat
  = Ok (firefly_phase_spec (RS := script_source) ranked_evals tie_population [0; 3; 0]%nat) /\
  sorted_idx ranked_evals (length tie_population) ≡ₚ range (length tie_population) /\
  (forall a b i j, (a < b)%nat ->
     sorted_idx ranked_evals (length tie_population) !! a = Some i ->
     sorted_idx ranked_evals (length tie_population) !! b = Some j ->
     ranked_before ranked_evals i j).
Proof.
  apply (firefly_phase_attracts (RS := script_source) two_sites ranked_evals tie_population).
  - repeat constructor.
  - reflexivity.
Defined.

(** * [repair_solution] and the store *)

Section RepairStore.
Context {RS : RandomSource}.
Variable Rel : list (list Z) -> list (list Z) -> Prop.
Hypothesis Rel_refl : forall h, Rel h h.
Hypothesis Rel_trans : forall h1 h2 h3, Rel h1 h2 -> Rel h2 h3 -> Rel h1 h3.

Lemma respects_ret {A} (a : A) : respects Rel (mret a).
Proof. intros s a' s' [= <- <-]. apply Rel_refl. Qed.

Lemma respects_bind {A B} (m : M RepState A) (f : A -> M RepState B) :
  respects Rel m -> (forall a, respects Rel (f a)) -> respects Rel (m ≫= f).
Proof.
  intros Hm Hf s b s' Hrun. unfold mbind, M_bind in Hrun.
  destruct (m s) as [[a s1]|e] eqn:Hms; [|done].
  eapply Rel_trans; [by eapply Hm | by eapply Hf].
Qed.

Lemma respects_lift {A} (r : result A) : respects Rel (lift_result r).
Proof. intros s a s' Hrun. unfold lift_result in Hrun. destruct r; [|done].
  injection Hrun as <- <-. apply Rel_refl. Qed.

Lemma respects_with_rng {A} (m : M rng A) : respects Rel (with_rng m).
Proof.
  intros s a s' Hrun. unfold with_rng in Hrun.
  destruct (m (gen s)) as [[a' g']|e]; [|done]. injection Hrun as <- <-. apply Rel_refl.
Qed.

Lemma respects_array_read r : respects Rel (array_read r).
Proof.
  intros s a s' Hrun. unfold array_read in Hrun.
  destruct (store s !! r); [|done]. injection Hrun as <- <-. apply Rel_refl.
Qed.

Lemma respects_array_get r i : respects Rel (array_get r i).
Proof.
  unfold array_get. apply respects_bind; [apply respects_array_read|].
  intros a. apply respects_lift.
Qed.

Lemma respects_for_each {X A} (body : X -> A -> M RepState A) xs a :
  (forall x a', respects Rel (body x a')) -> respects Rel (for_each xs body a).
Proof.
  intros Hbody. revert a. induction xs as [|x xs IH]; intros a; simpl.
  - apply respects_ret.
  - apply respects_bind; [apply Hbody | apply IH].
Qed.

Lemma respects_for_break {X A} (body : X -> A -> M RepState (A * bool)) xs a :
  (forall x a', respects Rel (body x a')) -> respects Rel (for_break xs body a).
Proof.
  intros Hbody. revert a. induction xs as [|x xs IH]; intros a; simpl.
  - apply respects_ret.
  - apply respects_bind; [apply Hbody|]. intros [a' b]; simpl.
    destruct b; [apply respects_ret | apply IH].
Qed.

(** The part of [repair_solution] after the two copies writes, in the
    placement array, values [chosen + 1] only, and otherwise writes the
    assignment array only. *)
Variables place_loc assign_dev : ref.
Hypothesis Rel_place : forall i v, v ≠ 0 -> respects Rel (array_set place_loc i v).
Hypothesis Rel_assign : forall i v, respects Rel (array_set assign_dev i v).

Lemma respects_feasible_step pb e feasible :
  respects Rel (feasible_step pb place_loc e feasible).
Proof.
  unfold feasible_step. apply respects_bind; [apply respects_array_read|]. intros pl.
  apply respects_bind; [apply respects_lift|]. intros fe. apply respects_ret.
Qed.

Lemma respects_fix_step pb e feasible :
  respects Rel (fix_step pb place_loc assign_dev e feasible).
Proof.
  unfold fix_step. apply respects_bind; [apply respects_array_get|]. intros p.
  destruct (_ || _); [|apply respects_ret].
  destruct (0 <? _)%nat.
  - apply respects_bind; [apply respects_with_rng|]. intros q.
    apply respects_bind; [apply Rel_assign|]. intros _. apply respects_ret.
  - apply respects_bind; [apply respects_lift|]. intros near_p.
    destruct (first_covering _ _ _) as [chosen|].
    + apply respects_bind; [apply Rel_place; lia|]. intros _.
      apply respects_bind; [apply Rel_assign|]. intros _. apply respects_ret.
    + apply respects_bind; [apply Rel_assign|]. intros _. apply respects_ret.
Qed.

Lemma respects_capacity_of pb p : respects Rel (capacity_of pb place_loc p).
Proof.
  unfold capacity_of. apply respects_bind; [apply respects_array_get|]. intros c.
  destruct (c =? 0); [apply respects_ret|].
  apply respects_bind; [apply respects_lift|]. intros t. apply respects_ret.
Qed.

Lemma respects_move_device pb feasible p cap e st :
  respects Rel (move_device pb assign_dev feasible p cap e st).
Proof.
  unfold move_device. destruct (_ =? _)%nat; [apply respects_ret|].
  apply respects_bind; [apply respects_lift|]. intros newp.
  apply respects_bind; [apply Rel_assign|]. intros _. apply respects_ret.
Qed.

Lemma respects_relieve pb feasible p st :
  respects Rel (relieve pb place_loc assign_dev feasible p st).
Proof.
  unfold relieve. apply respects_bind; [apply respects_array_get|]. intros c.
  destruct (c =? 0); [apply respects_ret|].
  apply respects_bind; [apply respects_capacity_of|]. intros cap.
  destruct (_ || _); [|apply respects_ret].
  apply respects_bind; [apply respects_array_read|]. intros ad.
  apply respects_bind; [apply respects_lift|]. intros assigned.
  apply respects_for_break. intros e st'. apply respects_move_device.
Qed.

Lemma respects_relief_pass pb feasible i u :
  respects Rel (relief_pass pb place_loc assign_dev feasible i u).
Proof.
  unfold relief_pass. apply respects_bind; [apply respects_array_read|]. intros ad.
  apply respects_bind; [apply respects_lift|]. intros us.
  apply respects_bind; [|intros st; apply respects_ret].
  apply respects_for_each. intros p st. apply respects_relieve.
Qed.

Lemma respects_repair_body pb :
  respects Rel
    (feasible ← for_each (range (E pb)) (feasible_step pb place_loc) [];
     feasible ← for_each (range (E pb)) (fix_step pb place_loc assign_dev) feasible;
     _ ← for_break (range 3) (relief_pass pb place_loc assign_dev feasible) tt;
     mret (place_loc, assign_dev)).
Proof.
  apply respects_bind.
  { apply respects_for_each. intros e f. apply respects_feasible_step. }
  intros feasible. apply respects_bind.
  { apply respects_for_each. intros e f. apply respects_fix_step. }
  intros feasible'. apply respects_bind.
  { apply respects_for_break. intros i u. apply respects_relief_pass. }
  intros _. apply respects_ret.
Qed.

End RepairStore.

Section RepairFrame.
Context {RS : RandomSource}.

Lemma array_set_inv r i v s u s' :
  array_set r i v s = Ok (u, s') ->
  exists a, store s !! r = Some a /\ (i < length a)%nat /\
            store s' = <[r := <[i := v]> a]> (store s).
Proof.
  unfold array_set. intros Hrun. destruct (store s !! r) as [a|] eqn:Ha; [|done].
  destruct (np_set a i v) as [a'|] eqn:Hset; [|done].
  apply np_set_inv in Hset as [Hi ->]. injection Hrun as _ <-. by exists a.
Qed.

Lemma array_copy_inv r s r' s' :
  array_copy r s = Ok (r', s') ->
  exists a, store s !! r = Some a /\ r' = length (store s) /\ store s' = store s ++ [a].
Proof.
  unfold array_copy. intros Hrun. destruct (store s !! r) as [a|] eqn:Ha; [|done].
  injection Hrun as <- <-. by exists a.
Qed.

Lemma kept_refl n h : kept n h h.
Proof. by split. Qed.

Lemma kept_trans n h1 h2 h3 : kept n h1 h2 -> kept n h2 h3 -> kept n h1 h3.
Proof.
  intros [Hl1 H1] [Hl2 H2]. split; [congruence|].
  intros r Hr. by rewrite H2, H1.
Qed.

Lemma kept_array_set n r i v : (n <= r)%nat -> respects (kept n) (array_set r i v).
Proof.
  intros Hr s u s' Hrun. apply array_set_inv in Hrun as (a & Ha & Hi & ->).
  split; [by rewrite length_insert|].
  intros r' Hr'. apply list_lookup_insert_ne. lia.
Qed.

Lemma never_cleared_refl r h : never_cleared r h h.
Proof. intros a Ha. exists a. split; [done|]. split; [done|]. intros p c Hc Hne. by exists c. Qed.

Lemma never_cleared_trans r h1 h2 h3 :
  never_cleared r h1 h2 -> never_cleared r h2 h3 -> never_cleared r h1 h3.
Proof.
  intros H12 H23 a Ha.
  destruct (H12 a Ha) as (a2 & Ha2 & Hl2 & Hnz2).
  destruct (H23 a2 Ha2) as (a3 & Ha3 & Hl3 & Hnz3).
  exists a3. split; [done|]. split; [congruence|].
  intros p c Hc Hne. destruct (Hnz2 p c Hc Hne) as (c2 & Hc2 & Hne2).
  by apply (Hnz3 p c2).
Qed.

Lemma never_cleared_array_set_nonzero r i v :
  v ≠ 0 -> respects (never_cleared r) (array_set r i v).
Proof.
  intros Hv s u s' Hrun. apply array_set_inv in Hrun as (a & Ha & Hi & ->).
  intros a0 Ha0. rewrite Ha in Ha0. injection Ha0 as <-.
  exists (<[i := v]> a). split.
  { apply list_lookup_insert_eq. by apply lookup_lt_Some in Ha. }
  split; [by rewrite length_insert|].
  intros p c Hc Hne. destruct (decide (p = i)) as [->|Hpi].
  - exists v. split; [by apply list_lookup_insert_eq | done].
  - exists c. split; [by rewrite list_lookup_insert_ne | done].
Qed.

Lemma never_cleared_array_set_other r r' i v :
  r ≠ r' -> respects (never_cleared r) (array_set r' i v).
Proof.
  intros Hne s u s' Hrun. apply array_set_inv in Hrun as (a & Ha & Hi & ->).
  intros a0 Ha0. exists a0. split; [by rewrite list_lookup_insert_ne|].
  split; [done|]. intros p c Hc Hc0. by exists c.
Qed.

(** The two copies, then the rest of the function on the copies. *)
Lemma repair_solution_inv pb place_loc assign_dev s res s' :
  repair_solution pb place_loc assign_dev s = Ok (res, s') ->
  exists pl ad s2,
    store s !! place_loc = Some pl /\
    store s2 = (store s ++ [pl]) ++ [ad] /\
    res = (length (store s), S (length (store s))) /\
    respects_run s2 s' (length (store s)) (S (length (store s))) pb.
Proof.
  unfold repair_solution. intros Hrun.
  apply M_bind_inv in Hrun as (rp & s1 & Hc1 & Hrun).
  apply array_copy_inv in Hc1 as (pl & Hpl & -> & Hs1).
  apply M_bind_inv in Hrun as (ra & s2 & Hc2 & Hrun).
  apply array_copy_inv in Hc2 as (ad & Had & -> & Hs2).
  rewrite Hs1 in Hs2. rewrite Hs1, length_app in Hrun. cbn [length] in Hrun.
  rewrite Nat.add_1_r in Hrun.
  exists pl, ad, s2. split; [done|]. split; [done|].
  assert (Hres : res = (length (store s), S (length (store s)))).
  { apply M_bind_inv in Hrun as (f1 & s3 & _ & Hrun).
    apply M_bind_inv in Hrun as (f2 & s4 & _ & Hrun).
    apply M_bind_inv in Hrun as (u & s5 & _ & Hrun).
    by injection Hrun as <- _. }
  split; [done|]. rewrite Hres in Hrun.
  intros Rel Hrefl Htrans Hplace Hassign.
  exact (respects_repair_body Rel Hrefl Htrans _ _ Hplace Hassign pb s2 _ s' Hrun).
Qed.

(** Every array of the store before the call is unchanged after it, and the
    pair returned consists of two distinct arrays that did not exist. *)
Lemma repair_solution_frame pb place_loc assign_dev s res s' :
  repair_solution pb place_loc assign_dev s = Ok (res, s') ->
  unchanged (store s) (store s') /\
  store s !! fst res = None /\ store s !! snd res = None /\
  fst res ≠ snd res /\
  is_Some (store s' !! fst res) /\ is_Some (store s' !! snd res).
Proof.
  intros Hrun.
  apply repair_solution_inv in Hrun as (pl & ad & s2 & Hpl & Hs2 & -> & Hbody).
  destruct (Hbody (kept (length (store s))) (kept_refl _) (kept_trans _)) as [Hlen Hkept].
  { intros i v _. by apply kept_array_set. }
  { intros i v. apply kept_array_set. lia. }
  assert (Hlen2 : length (store s') = S (S (length (store s)))).
  { rewrite <- Hlen, Hs2, !length_app. simpl. lia. }
  simpl. split; [|split; [|split; [|split; [|split]]]].
  - intros r a Ha. apply lookup_lt_Some in Ha as Hr.
    rewrite (Hkept r Hr), Hs2, <- app_assoc. by rewrite lookup_app_l.
  - by apply lookup_ge_None.
  - apply lookup_ge_None. lia.
  - lia.
  - apply lookup_lt_is_Some. lia.
  - apply lookup_lt_is_Some. lia.
Qed.

(** The placement vector returned has the length of the argument, and a
    nonzero entry wherever the argument has one. *)
Lemma repair_solution_keeps_placed pb place_loc assign_dev s res s' place :
  repair_solution pb place_loc assign_dev s = Ok (res, s') ->
  store s !! place_loc = Some place ->
  exists place', store s' !! fst res = Some place' /\
    length place' = length place /\
    forall p c, place !! p = Some c -> c ≠ 0 -> exists c', place' !! p = Some c' /\ c' ≠ 0.
Proof.
  intros Hrun Hplace.
  apply repair_solution_inv in Hrun as (pl & ad & s2 & Hpl & Hs2 & -> & Hbody).
  rewrite Hplace in Hpl. injection Hpl as <-. simpl.
  apply (Hbody (never_cleared (length (store s))) (never_cleared_refl _) (never_cleared_trans _)).
  - intros i v Hv. by apply never_cleared_array_set_nonzero.
  - intros i v. apply never_cleared_array_set_other. lia.
  - rewrite Hs2, <- app_assoc. by apply list_lookup_middle.
Qed.

End RepairFrame.

(** * The run *)

Lemma result_bind_inv {A B} (r : result A) (f : A -> result B) b :
  r ≫= f = Ok b -> exists a, r = Ok a /\ f a = Ok b.
Proof. destruct r as [a|]; [|done]. intros H. by exists a. Qed.

Lemma lift_result_inv {S A} (r : result A) (s : S) a s' :
  lift_result r s = Ok (a, s') -> r = Ok a /\ s' = s.
Proof. unfold lift_result. destruct r; [|done]. by intros [= -> ->]. Qed.

(** A loop that returns has kept every invariant its bodies keep. *)
Lemma for_each_result_inv {X A} (body : X -> A -> result A) (Inv : A -> Prop) xs a a' :
  for_each xs body a = Ok a' ->
  Inv a ->
  (forall x a1 a2, body x a1 = Ok a2 -> Inv a1 -> Inv a2) ->
  Inv a'.
Proof.
  intros Hrun HI Hstep. revert a Hrun HI.
  induction xs as [|x xs IH]; intros a Hrun HI; simpl in Hrun.
  - by injection Hrun as <-.
  - apply result_bind_inv in Hrun as (a1 & Hb & Hrun). eauto.
Qed.

Lemma for_each_M_inv {S X A} (body : X -> A -> M S A) (Inv : A -> Prop) xs a s a' s' :
  for_each xs body a s = Ok (a', s') ->
  Inv a ->
  (forall x a1 s1 a2 s2, body x a1 s1 = Ok (a2, s2) -> Inv a1 -> Inv a2) ->
  Inv a'.
Proof.
  intros Hrun HI Hstep. revert a s Hrun HI.
  induction xs as [|x xs IH]; intros a s Hrun HI; simpl in Hrun.
  - by injection Hrun as <- _.
  - apply M_bind_inv in Hrun as (a1 & s1 & Hb & Hrun). eauto.
Qed.

Lemma score_le_refl a : score_le a a.
Proof. destruct a; simpl; [apply Qle_refl | done]. Qed.

Lemma score_le_trans a b c : score_le a b -> score_le b c -> score_le a c.
Proof.
  destruct a, b, c; simpl; try done. apply Qle_trans.
Qed.

Lemma lt_score_le q s : lt_score q s = true -> score_le (Fin q) s.
Proof.
  destruct s as [x|]; simpl; [|done]. rewrite Qltb_lt. apply Qlt_le_weak.
Qed.

(** What one update does to the global best score. *)
Lemma update_step_score evals i o o' :
  update_step evals i o = Ok o' ->
  global_best_score o' = global_best_score o \/
  exists m, evals !! i = Some m /\
            lt_score (fitness m) (global_best_score o) = true /\
            global_best_score o' = Fin (fitness m).
Proof.
  unfold update_step. intros Hrun.
  apply result_bind_inv in Hrun as (part & _ & Hrun).
  apply result_bind_inv in Hrun as (m & Hm & Hrun).
  apply np_get_inv in Hm. injection Hrun as <-. simpl.
  unfold update_gbest. destruct (lt_score _ _) eqn:Hlt; simpl; [|by left].
  right. by exists m.
Qed.

Lemma update_step_le evals i o o' :
  update_step evals i o = Ok o' ->
  score_le (global_best_score o') (global_best_score o).
Proof.
  intros Hrun. destruct (update_step_score _ _ _ _ Hrun) as [->|(m & _ & Hlt & ->)].
  - apply score_le_refl.
  - by apply lt_score_le.
Qed.

Lemma nonincreasing_snoc l a b :
  nonincreasing (l ++ [a]) -> score_le b a -> nonincreasing ((l ++ [a]) ++ [b]).
Proof.
  intros Hl Hba i x y Hx Hy.
  destruct (decide (S i < length (l ++ [a]))%nat) as [Hlt|Hge].
  - rewrite lookup_app_l in Hx by lia. rewrite lookup_app_l in Hy by lia. by eapply Hl.
  - apply lookup_lt_Some in Hy as Hlen. rewrite length_app in Hlen. simpl in Hlen.
    assert (Hi : S i = length (l ++ [a])) by lia.
    rewrite Hi, list_lookup_middle in Hy by done. injection Hy as <-.
    rewrite lookup_app_l in Hx by lia.
    rewrite length_app in Hi. simpl in Hi.
    assert (i = length l) as -> by lia.
    rewrite list_lookup_middle in Hx by done. by injection Hx as <-.
Qed.

Section RunFacts.
Context {RS : RandomSource}.

(** A generation appends the global best score it ends with, which is not
    above the one it started from. *)
Lemma generation_score it o hist g o' hist' g' :
  generation it (o, hist) g = Ok ((o', hist'), g') ->
  hist' = hist ++ [global_best_score o'] /\
  score_le (global_best_score o') (global_best_score o) /\
  max_iter o' = max_iter o.
Proof.
  unfold generation. simpl fst; simpl snd. intros Hrun.
  apply M_bind_inv in Hrun as (evals & s1 & _ & Hrun).
  apply M_bind_inv in Hrun as (o1 & s2 & Hupd & Hrun).
  apply lift_result_inv in Hupd as [Hupd _].
  apply M_bind_inv in Hrun as (pop1 & s3 & _ & Hrun).
  apply M_bind_inv in Hrun as (pop2 & s4 & _ & Hrun).
  injection Hrun as <- <- _. simpl. split; [done|].
  apply (for_each_result_inv _
    (fun o1 => score_le (global_best_score o1) (global_best_score o) /\
               max_iter o1 = max_iter o) _ _ _ Hupd).
  - split; [apply score_le_refl | done].
  - intros i oa ob Hstep [Hle Hmax]. split.
    + eapply score_le_trans; [by eapply update_step_le | done].
    + unfold update_step in Hstep.
      apply result_bind_inv in Hstep as (part & _ & Hstep).
      apply result_bind_inv in Hstep as (m & _ & Hstep).
      by injection Hstep as <-.
Qed.

(** Every run that returns: the initial global best score followed by the
    history is non-increasing, the history has one score per generation and
    the best score returned is the last of the sequence. *)
Lemma run_history o g res o' g' :
  run o g = Ok ((res, o'), g') ->
  nonincreasing (global_best_score o :: history res) /\
  length (history res) = Z.to_nat (max_iter o) /\
  last (global_best_score o :: history res) = Some (best_score res).
Proof.
  intros Hrun. unfold run in Hrun.
  apply M_bind_inv in Hrun as ([o1 hist] & s1 & Hloop & Hrun).
  injection Hrun as <- <- _. simpl.
  set (n := Z.to_nat (max_iter o)) in *. clearbody n.
  cut (forall k (st : HybridFFPSO * list score) g0 st' g0',
         for_each (seq k n) generation st g0 = Ok (st', g0') ->
         nonincreasing (global_best_score o :: snd st) ->
         last (global_best_score o :: snd st) = Some (global_best_score (fst st)) ->
         nonincreasing (global_best_score o :: snd st') /\
         length (snd st') = (length (snd st) + n)%nat /\
         last (global_best_score o :: snd st') = Some (global_best_score (fst st'))).
  { intros Hcut. apply (Hcut 0%nat (o, []) g (o1, hist) s1 Hloop).
    - intros i a b Ha Hb. destruct i; done.
    - done. }
  clear. induction n as [|n IH]; intros k [oa ha] g0 [ob hb] g0' Hloop Hsorted Hlast.
  - simpl in Hloop. injection Hloop as <- <- _. simpl. split; [done|]. split; [lia|done].
  - cbn [seq for_each] in Hloop.
    apply M_bind_inv in Hloop as ([oc hc] & g1 & Hgen & Hloop).
    apply generation_score in Hgen as (-> & Hle & _).
    simpl in Hsorted, Hlast.
    destruct (IH (S k) _ _ _ _ Hloop) as (H1 & H2 & H3); simpl.
    + change (global_best_score o :: ha ++ [global_best_score oc])
        with ((global_best_score o :: ha) ++ [global_best_score oc]).
      destruct (exists_last (l := global_best_score o :: ha) ltac:(done)) as (l & a & Hl).
      rewrite Hl in *. rewrite last_snoc in Hlast. injection Hlast as ->.
      by apply nonincreasing_snoc.
    + change (global_best_score o :: ha ++ [global_best_score oc])
        with ((global_best_score o :: ha) ++ [global_best_score oc]).
      by rewrite last_snoc.
    + split; [done|]. split; [|done]. simpl in H2. rewrite length_app in H2. simpl in H2. lia.
Qed.

(** The archive of a run: every generation updates it once per particle,
    so it stays free of dominated entries. *)
Lemma generation_archive it o hist g o' hist' g' :
  generation it (o, hist) g = Ok ((o', hist'), g') ->
  nondominated (archive o) -> nondominated (archive o').
Proof.
  unfold generation. simpl fst; simpl snd. intros Hrun Hinv.
  apply M_bind_inv in Hrun as (evals & s1 & _ & Hrun).
  apply M_bind_inv in Hrun as (o1 & s2 & Hupd & Hrun).
  apply lift_result_inv in Hupd as [Hupd _].
  apply M_bind_inv in Hrun as (pop1 & s3 & _ & Hrun).
  apply M_bind_inv in Hrun as (pop2 & s4 & _ & Hrun).
  injection Hrun as <- _ _. simpl.
  apply (for_each_result_inv _ (fun o1 => nondominated (archive o1)) _ _ _ Hupd Hinv).
  intros i oa ob Hstep Ha. unfold update_step in Hstep.
  apply result_bind_inv in Hstep as (part & _ & Hstep).
  apply result_bind_inv in Hstep as (m & _ & Hstep).
  injection Hstep as <-. simpl. by apply archive_update_keeps_nondominated.
Qed.

Lemma run_archive o g res o' g' :
  run o g = Ok ((res, o'), g') ->
  nondominated (archive o) -> nondominated (res_archive res).
Proof.
  unfold run. intros Hrun Hinv.
  apply M_bind_inv in Hrun as ([o1 hist] & s1 & Hloop & Hrun).
  injection Hrun as <- _ _. simpl.
  apply (for_each_M_inv _ (fun st : HybridFFPSO * list score => nondominated (archive (fst st)))
           _ _ _ _ _ Hloop Hinv).
  intros it [oa ha] ga [ob hb] gb Hgen Ha. simpl in *. by eapply generation_archive.
Qed.

End RunFacts.

(** * [repair_solution] returns *)

Section RepairTotal.
Context {RS : RandomSource}.

Lemma wp_array_read r (Q : list Z -> RepState -> Prop) s a :
  store s !! r = Some a -> Q a s -> wp (array_read r) Q s.
Proof. intros Ha HQ. unfold wp, array_read. by rewrite Ha. Qed.

Lemma wp_array_get r i (Q : Z -> RepState -> Prop) s a x :
  store s !! r = Some a -> a !! i = Some x -> Q x s -> wp (array_get r i) Q s.
Proof.
  intros Ha Hx HQ. unfold array_get. apply wp_bind. eapply wp_array_read; [done|].
  apply wp_lift. by rewrite (np_get_ok _ _ _ Hx).
Qed.

Lemma wp_array_set r i v (Q : unit -> RepState -> Prop) s a :
  store s !! r = Some a -> (i < length a)%nat ->
  Q tt {| store := <[r := <[i := v]> a]> (store s); gen := gen s |} ->
  wp (array_set r i v) Q s.
Proof.
  intros Ha Hi HQ. unfold wp, array_set. rewrite Ha, np_set_ok by done. done.
Qed.

Lemma wp_array_copy r (Q : ref -> RepState -> Prop) s a :
  store s !! r = Some a ->
  Q (length (store s)) {| store := store s ++ [a]; gen := gen s |} ->
  wp (array_copy r) Q s.
Proof. intros Ha HQ. unfold wp, array_copy. by rewrite Ha. Qed.

Lemma wp_with_rng {A} (m : M rng A) (Q : A -> RepState -> Prop) s :
  wp m (fun a g' => Q a {| store := store s; gen := g' |}) (gen s) ->
  wp (with_rng m) Q s.
Proof.
  unfold wp, with_rng. destruct (m (gen s)) as [[a g']|e]; simpl; auto.
Qed.

Lemma repair_inv_gen pb rp ra h g g' :
  repair_inv pb rp ra {| store := h; gen := g |} ->
  repair_inv pb rp ra {| store := h; gen := g' |}.
Proof. done. Qed.

(** Writing an assignment keeps the invariant. *)
Lemma wp_set_assign pb rp ra e v (Q : unit -> RepState -> Prop) s :
  repair_inv pb rp ra s -> (e < E pb)%nat ->
  (forall s', repair_inv pb rp ra s' -> Q tt s') ->
  wp (array_set ra e v) Q s.
Proof.
  intros (Hne & pl & ad & Hpl & Had & Hv & Hlen) He HQ.
  eapply wp_array_set; [done|lia|]. apply HQ.
  split; [done|]. exists pl, (<[e := v]> ad). simpl.
  split; [by rewrite list_lookup_insert_ne|].
  split; [apply list_lookup_insert_eq; by apply lookup_lt_Some in Had|].
  split; [done|]. by rewrite length_insert.
Qed.

(** Writing a cloudlet type of the catalog keeps the invariant. *)
Lemma wp_set_place pb rp ra p v (Q : unit -> RepState -> Prop) s :
  repair_inv pb rp ra s -> (p < P pb)%nat -> 0 <= v <= Z.of_nat (T pb) ->
  (forall s', repair_inv pb rp ra s' -> Q tt s') ->
  wp (array_set rp p v) Q s.
Proof.
  intros (Hne & pl & ad & Hpl & Had & [Hlp Hrange] & Hlen) Hp Hv HQ.
  eapply wp_array_set; [done|lia|]. apply HQ.
  split; [done|]. exists (<[p := v]> pl), ad. simpl.
  split; [apply list_lookup_insert_eq; by apply lookup_lt_Some in Hpl|].
  split; [by rewrite list_lookup_insert_ne|].
  split; [|done]. split; [by rewrite length_insert|]. by apply Forall_insert.
Qed.

Lemma first_covering_lt types d k chosen :
  first_covering types d k = Some chosen -> (k <= chosen < k + length types)%nat.
Proof.
  revert k. induction types as [|t types IH]; intros k; simpl; [done|].
  destruct (Qleb d (R t)).
  - intros [= <-]. lia.
  - intros H. apply IH in H. lia.
Qed.

Lemma feasible_of_ok pb feasible e :
  feasible_ok pb feasible -> Forall (fun p => (p < P pb)%nat) (feasible_of feasible e).
Proof.
  intros Hok. unfold feasible_of. destruct (feasible !! e) as [fe|] eqn:Hfe; simpl; [|constructor].
  unfold feasible_ok in Hok. rewrite Forall_forall in Hok. apply Hok.
  by apply list_elem_of_lookup_2 in Hfe.
Qed.

Lemma wp_feasible_loop pb rp ra s :
  repair_inv pb rp ra s ->
  wp (for_each (range (E pb)) (feasible_step pb rp) [])
     (fun feasible s' => repair_inv pb rp ra s' /\ feasible_ok pb feasible) s.
Proof.
  intros Hinv.
  apply (wp_for_each _ (fun _ feasible s' => repair_inv pb rp ra s' /\ feasible_ok pb feasible)).
  - split; [done|constructor].
  - intros done e feasible s' He [Hi Hok].
    pose proof Hi as (Hne & pl & ad & Hpl & Had & Hv & Hlen).
    unfold feasible_step. apply wp_bind. eapply wp_array_read; [done|].
    apply wp_bind. apply wp_lift. eapply wpr_mono; [by apply covering_range|].
    intros fe Hfe. apply wp_ret. split; [done|].
    apply Forall_app. split; [done|]. by repeat constructor.
Qed.

Lemma wp_fix_loop pb rp ra feasible s :
  (1 <= P pb)%nat ->
  repair_inv pb rp ra s -> feasible_ok pb feasible ->
  wp (for_each (range (E pb)) (fix_step pb rp ra) feasible)
     (fun feasible' s' => repair_inv pb rp ra s' /\ feasible_ok pb feasible') s.
Proof.
  intros HP Hinv Hok.
  apply (wp_for_each _ (fun _ f s' => repair_inv pb rp ra s' /\ feasible_ok pb f));
    [done|].
  intros done e f s' He [Hi Hf]. apply elem_of_range in He.
  pose proof Hi as (Hne & pl & ad & Hpl & Had & Hv & Hlen).
  destruct (lookup_lt_is_Some_2 ad e ltac:(lia)) as [p Hp].
  unfold fix_step. apply wp_bind. eapply wp_array_get; [done..|].
  destruct (_ || _); [|by apply wp_ret].
  pose proof (feasible_of_ok pb f e Hf) as Hfe.
  destruct (0 <? length (feasible_of f e))%nat eqn:Hnonempty.
  - apply wp_bind. apply wp_with_rng. apply wp_np_random_choice.
    { intros Hnil. rewrite Hnil in Hnonempty. done. }
    intros q g' Hq. apply wp_bind.
    apply (wp_set_assign pb rp ra); [by destruct s'|done|].
    intros s'' Hi''. by apply wp_ret.
  - apply wp_bind. apply wp_lift.
    destruct (np_argmin_lt (dist pb e) (P pb) HP) as (near & -> & Hnear). simpl.
    destruct (first_covering _ _ _) as [chosen|] eqn:Hchosen.
    + apply first_covering_lt in Hchosen.
      apply wp_bind. apply (wp_set_place pb rp ra); [done|done|unfold T; lia|].
      intros s1 Hi1. apply wp_bind. apply (wp_set_assign pb rp ra); [done|done|].
      intros s2 Hi2. apply wp_ret. split; [done|].
      apply Forall_insert; [done|]. apply Forall_app. split; [done|]. by repeat constructor.
    + apply wp_bind. apply (wp_set_assign pb rp ra); [done|done|].
      intros s1 Hi1. by apply wp_ret.
Qed.

Lemma assigned_loop ad p n :
  length ad = n ->
  wpr (for_each (range n) (assigned_step ad p) [])
      (fun l => Forall (fun e => (e < n)%nat) l).
Proof.
  intros Hlen.
  apply (wpr_for_each _ (fun _ l => Forall (fun e => (e < n)%nat) l)); [constructor|].
  intros done e acc He Hacc. apply elem_of_range in He.
  destruct (np_get_lt ad e ltac:(lia)) as (q & _ & Hget).
  unfold assigned_step. rewrite Hget; simpl.
  destruct (q =? Z.of_nat p); simpl; [|done].
  apply Forall_app. split; [done|]. by repeat constructor.
Qed.

Lemma wp_move_device pb rp ra feasible p cap e st s :
  repair_inv pb rp ra s -> (e < E pb)%nat ->
  wp (move_device pb ra feasible p cap e st) (fun _ s' => repair_inv pb rp ra s') s.
Proof.
  intros Hi He. unfold move_device.
  set (alt := filter (fun pp => pp ≠ p) (feasible_of feasible e)).
  destruct (length alt =? 0)%nat eqn:Hempty; [by apply wp_ret|].
  apply Nat.eqb_neq in Hempty.
  set (sorted := sort_by _ alt).
  assert (Hlen : (0 < length sorted)%nat).
  { unfold sorted. rewrite sort_by_perm. lia. }
  destruct (np_get_lt sorted 0%nat Hlen) as (newp & _ & Hget).
  apply wp_bind. apply wp_lift. rewrite Hget. simpl.
  apply wp_bind. apply (wp_set_assign pb rp ra); [done|done|].
  intros s' Hi'. by apply wp_ret.
Qed.

Lemma wp_relieve pb rp ra feasible p st s :
  repair_inv pb rp ra s -> (p < P pb)%nat ->
  wp (relieve pb rp ra feasible p st) (fun _ s' => repair_inv pb rp ra s') s.
Proof.
  intros Hi Hp.
  pose proof Hi as (Hne & pl & ad & Hpl & Had & Hv & Hlen).
  destruct (valid_placement_lookup pb pl p Hv Hp) as (c & Hc & _ & Hrange).
  unfold relieve. apply wp_bind. eapply wp_array_get; [done..|].
  destruct (c =? 0) eqn:Hz; [by apply wp_ret|]. apply Z.eqb_neq in Hz.
  apply wp_bind. unfold capacity_of. apply wp_bind. eapply wp_array_get; [done..|].
  replace (c =? 0) with false by (symmetry; by apply Z.eqb_neq).
  destruct (py_index_ok (cloudlet_types pb) c) as [t Ht]; [unfold T in Hrange; lia|].
  apply wp_bind. apply wp_lift. rewrite Ht. simpl. apply wp_ret.
  destruct (_ || _); [|by apply wp_ret].
  apply wp_bind. eapply wp_array_read; [done|].
  apply wp_bind. apply wp_lift. eapply wpr_mono; [by apply assigned_loop|].
  intros assigned Hassigned.
  apply (wp_for_break _ (fun _ s' => repair_inv pb rp ra s')); [done|].
  intros e st' s' He Hi'. apply wp_move_device; [done|].
  apply list_elem_of_In in He. rewrite sort_by_perm in He.
  rewrite Forall_forall in Hassigned. apply Hassigned. by apply list_elem_of_In.
Qed.

Lemma wp_relief_pass pb rp ra feasible i u s :
  repair_inv pb rp ra s ->
  wp (relief_pass pb rp ra feasible i u) (fun _ s' => repair_inv pb rp ra s') s.
Proof.
  intros Hi. pose proof Hi as (Hne & pl & ad & Hpl & Had & Hv & Hlen).
  unfold relief_pass. apply wp_bind. eapply wp_array_read; [done|].
  apply wp_bind. apply wp_lift. eapply wpr_mono; [by apply usage_loop|].
  intros us _. apply wp_bind.
  eapply wp_mono.
  - apply (wp_for_each _ (fun _ _ s' => repair_inv pb rp ra s')); [done|].
    intros done p st s' Hp Hi'. apply elem_of_range in Hp. by apply wp_relieve.
  - intros st s' Hi'. by apply wp_ret.
Qed.

(** On a placement vector of the data model and an assignment vector of
    length E, with at least one location, [repair_solution] returns, and
    returns two such vectors. *)
Lemma repair_solution_returns pb place_loc assign_dev s pl ad :
  (1 <= P pb)%nat ->
  store s !! place_loc = Some pl -> store s !! assign_dev = Some ad ->
  valid_placement pb pl -> length ad = E pb ->
  wp (repair_solution pb place_loc assign_dev)
     (fun res s' => repair_inv pb (fst res) (snd res) s') s.
Proof.
  intros HP Hpl Had Hv Hlen. unfold repair_solution.
  apply lookup_lt_Some in Hpl as Hlt1. apply lookup_lt_Some in Had as Hlt2.
  apply wp_bind. eapply wp_array_copy; [done|].
  apply wp_bind. eapply wp_array_copy; [simpl; by rewrite lookup_app_l|].
  cbn [store gen]. rewrite length_app. cbn [length]. rewrite Nat.add_1_r.
  set (rp := length (store s)). set (ra := S rp).
  set (s2 := {| store := (store s ++ [pl]) ++ [ad]; gen := gen s |}).
  assert (Hi : repair_inv pb rp ra s2).
  { split; [unfold ra; lia|]. exists pl, ad. simpl.
    split; [rewrite <- app_assoc; by apply list_lookup_middle|].
    split; [apply list_lookup_middle; rewrite length_app; simpl; unfold ra, rp; lia|].
    done. }
  apply wp_bind. eapply wp_mono; [by apply (wp_feasible_loop pb rp ra)|].
  intros feasible s3 [Hi3 Hok3].
  apply wp_bind. eapply wp_mono; [by apply (wp_fix_loop pb rp ra)|].
  intros feasible' s4 [Hi4 Hok4].
  apply wp_bind. eapply wp_mono.
  - apply (wp_for_break _ (fun _ s' => repair_inv pb rp ra s')); [done|].
    intros i u s' _ Hi'. eapply wp_mono; [by apply wp_relief_pass|]. done.
  - intros u s5 Hi5. by apply wp_ret.
Qed.

Lemma repair_solution_values_returns pb pl ad g :
  (1 <= P pb)%nat -> valid_placement pb pl -> length ad = E pb ->
  wp (repair_solution_values pb pl ad)
     (fun sol _ => valid_placement pb (fst sol) /\ length (snd sol) = E pb) g.
Proof.
  intros HP Hv Hlen. unfold wp, repair_solution_values.
  pose proof (repair_solution_returns pb 0%nat 1%nat {| store := [pl; ad]; gen := g |}
                pl ad HP eq_refl eq_refl Hv Hlen) as Hwp.
  apply wp_ok in Hwp as ([rp ra] & s' & -> & Hne & pl' & ad' & Hpl' & Had' & Hv' & Hlen').
  simpl in *. rewrite Hpl', Had'. done.
Qed.

End RepairTotal.

(** * The run returns *)

Lemma evaluate_returns pb place_loc assign_dev :
  valid_placement pb place_loc -> length assign_dev = E pb ->
  wpr (evaluate pb place_loc assign_dev default_penalty_coeff) (fun _ => True).
Proof.
  intros Hv Hlen. apply wpr_ok.
  pose proof (evaluate_metrics pb place_loc assign_dev default_penalty_coeff Hv Hlen) as Hwp.
  apply wpr_ok in Hwp as (m & -> & _). by exists m.
Qed.

Lemma evaluate_population_returns o :
  Forall (particle_ok (problem o)) (population o) ->
  wpr (evaluate_population o) (fun evals => length evals = length (population o)).
Proof.
  intros Hok. unfold evaluate_population.
  apply (wpr_for_each _ (fun done evals => length evals = length done)); [done|].
  intros done part evals Hpart Hlen.
  rewrite Forall_forall in Hok. destruct (Hok part Hpart) as (Hv & Hl & _).
  apply wpr_bind. eapply wpr_mono; [by apply evaluate_returns|].
  intros m _. simpl. rewrite !length_app. simpl. lia.
Qed.

Lemma update_loop_returns evals o :
  optimizer_ok o -> length evals = length (population o) ->
  wpr (for_each (range (length (population o))) (update_step evals) o)
      (fun o' => optimizer_ok o' /\ problem o' = problem o /\
                 max_iter o' = max_iter o /\
                 length (population o') = length (population o)).
Proof.
  intros Hok Hlen.
  apply (wpr_for_each _ (fun _ o' => optimizer_ok o' /\ problem o' = problem o /\
           max_iter o' = max_iter o /\ length (population o') = length (population o))); [done|].
  intros done i o1 Hi ((HP & HT & Hpop & Hbest) & Hpb & Hmax & Hn). apply elem_of_range in Hi.
  destruct (np_get_lt (population o1) i ltac:(lia)) as (part & Hpart & Hget).
  destruct (np_get_lt evals i ltac:(lia)) as (m & _ & Hgetm).
  unfold update_step. rewrite Hget, Hgetm. simpl.
  assert (Hpok : particle_ok (problem o1) part).
  { rewrite Forall_forall in Hpop. apply Hpop. by apply list_elem_of_lookup_2 in Hpart. }
  destruct Hpok as (H1 & H2 & H3 & H4).
  split; [|split; [done|split; [done|by rewrite length_insert]]].
  split; [done|]. split; [done|]. simpl. split.
  - apply Forall_insert; [done|]. unfold update_pbest.
    destruct (lt_score _ _); simpl; done.
  - unfold update_gbest. destruct (lt_score _ _); simpl; done.
Qed.

Section RunTotal.
Context {RS : RandomSource}.

Lemma attract_Forall (Pr : Z -> Prop) prob brighter mine g :
  Forall Pr brighter -> Forall Pr mine -> Forall Pr (fst (attract prob brighter mine g)).
Proof.
  intros Hb. revert mine g. induction Hb as [|b bs Hb Hbs IH]; intros mine g Hm; simpl; [done|].
  destruct Hm as [|c cs Hc Hcs]; [done|].
  destruct (b =? c); simpl.
  - constructor; [done|]. by apply IH.
  - constructor; [by destruct (Qltb _ _)|]. by apply IH.
Qed.

Lemma attract_pair_ok pb evals pop g ij :
  Forall (particle_ok pb) pop ->
  Forall (particle_ok pb) (fst (attract_pair evals (pop, g) ij)).
Proof.
  intros Hs. unfold attract_pair. simpl.
  destruct (Qltb _ _); [|done].
  destruct (pop !! fst ij) as [part|] eqn:Hi; [|done].
  destruct (pop !! snd ij) as [brighter|] eqn:Hj; [|done].
  simpl. apply Forall_insert; [done|].
  rewrite Forall_forall in Hs.
  destruct (Hs part) as ([H1 H1'] & H2 & H3 & H4); [by apply list_elem_of_lookup_2 in Hi|].
  destruct (Hs brighter) as ([B1 B1'] & B2 & _); [by apply list_elem_of_lookup_2 in Hj|].
  split; [|split; [|done]]; simpl.
  - split; [by rewrite attract_length|]. by apply attract_Forall.
  - by rewrite attract_length.
Qed.

Lemma particle_ok_shaped pb pop : Forall (particle_ok pb) pop -> shaped pb pop.
Proof.
  intros H. eapply Forall_impl; [exact H|]. intros part ([H1 _] & H2 & _). done.
Qed.

Lemma firefly_phase_returns pb evals pop g :
  Forall (particle_ok pb) pop ->
  wp (firefly_phase pb evals pop)
     (fun pop' _ => Forall (particle_ok pb) pop' /\ length pop' = length pop) g.
Proof.
  intros Hok. unfold wp.
  rewrite (firefly_phase_fold pb evals pop g (particle_ok_shaped pb pop Hok)). simpl.
  generalize (rank_pairs (sorted_idx evals (length pop))). intros pairs.
  assert (Hgen : forall st,
    Forall (particle_ok pb) (fst st) ->
    Forall (particle_ok pb) (fst (fold_left (attract_pair evals) pairs st)) /\
    length (fst (fold_left (attract_pair evals) pairs st)) = length (fst st)).
  { induction pairs as [|ij pairs IH]; intros [pop1 g1] H1; simpl; [done|].
    pose proof (attract_pair_ok pb evals pop1 g1 ij H1) as H2.
    destruct (attract_pair_shaped pb evals pop1 g1 ij (particle_ok_shaped _ _ H1)) as [_ Hl].
    destruct (IH _ H2) as [H3 H4]. split; [done|]. simpl in *. congruence. }
  apply (Hgen (pop, g) Hok).
Qed.

(** Slots overwritten by values that satisfy [Pr]. *)
Lemma wp_adopt_slot (Pr : Z -> Prop) prob other i mine g :
  Forall Pr other -> Forall Pr mine ->
  (i < length other)%nat -> (i < length mine)%nat ->
  wp (adopt_slot prob other i mine)
     (fun l _ => Forall Pr l /\ length l = length mine) g.
Proof.
  intros Ho Hm Hio Him. unfold adopt_slot.
  apply wp_bind. apply wp_random_random. intros r g'.
  destruct (Qltb r prob); [|by apply wp_ret].
  destruct (np_get_lt other i Hio) as (v & Hv & ->).
  apply wp_bind. apply wp_lift. simpl. apply wp_lift.
  rewrite np_set_ok by done. simpl. split; [|by rewrite length_insert].
  apply Forall_insert; [done|]. rewrite Forall_forall in Ho. apply Ho.
  by apply list_elem_of_lookup_2 in Hv.
Qed.

Lemma wp_toggle_placement pb p pl g :
  (1 <= T pb)%nat -> valid_placement pb pl -> (p < P pb)%nat ->
  wp (toggle_placement pb p pl) (fun l _ => valid_placement pb l) g.
Proof.
  intros HT [Hlen Hr] Hp. unfold toggle_placement.
  destruct (np_get_lt pl p ltac:(lia)) as (c & _ & ->).
  apply wp_bind. apply wp_lift. simpl.
  assert (Hset : forall v (g' : rng), 0 <= v <= Z.of_nat (T pb) ->
            wp (lift_result (np_set pl p v)) (fun l _ => valid_placement pb l) g').
  { intros v g' Hv. apply wp_lift. rewrite np_set_ok by lia. simpl.
    split; [by rewrite length_insert|]. by apply Forall_insert. }
  destruct (c =? 0).
  - apply wp_bind. apply wp_random_randint; [lia|]. intros t g' Ht. apply Hset. lia.
  - apply wp_bind. apply wp_random_random. intros r g'.
    destruct (Qltb r (1 # 2)).
    + apply Hset. lia.
    + apply wp_bind. apply wp_random_randint; [lia|]. intros t g'' Ht. apply Hset. lia.
Qed.

Lemma wp_jump_slot pb prob e ad g :
  (1 <= P pb)%nat -> (e < length ad)%nat ->
  wp (jump_slot pb prob e ad) (fun l _ => length l = length ad) g.
Proof.
  intros HP He. unfold jump_slot.
  apply wp_bind. apply wp_random_random. intros r g'.
  destruct (Qltb r prob); [|by apply wp_ret].
  apply wp_bind. apply wp_random_randint; [lia|]. intros p g'' _.
  apply wp_lift. rewrite np_set_ok by done. simpl. by rewrite length_insert.
Qed.

Lemma local_pso_move_returns o part g :
  optimizer_ok o -> particle_ok (problem o) part ->
  wp (local_pso_move o part) (fun part' _ => particle_ok (problem o) part') g.
Proof.
  intros (HP & HT & _ & Hbest) ([Hl1 Hr1] & Hl2 & [Hl3 Hr3] & Hl4).
  unfold local_pso_move.
  set (g_place := match global_best o with Some gb => fst gb | None => pbest_place part end).
  set (g_assign := match global_best o with Some gb => snd gb | None => pbest_assign part end).
  assert (Hg : valid_placement (problem o) g_place /\ length g_assign = E (problem o)).
  { unfold g_place, g_assign. destruct (global_best o) as [gb|]; [exact Hbest|done]. }
  destruct Hg as [[Hgl Hgr] Hga].
  apply wp_bind. eapply wp_mono.
  - apply (wp_for_each _ (fun _ pl _ => valid_placement (problem o) pl)); [done|].
    intros done p pl g' Hp [Hl Hr]. apply elem_of_range in Hp. unfold pso_place_step.
    apply wp_bind. eapply wp_mono; [by apply (wp_adopt_slot _ _ _ _ _ _ Hr3 Hr); lia|].
    intros pl1 g1 [Hr1' Hl1']. simpl in *.
    apply wp_bind. eapply wp_mono; [by apply (wp_adopt_slot _ _ _ _ _ _ Hgr Hr1'); lia|].
    intros pl2 g2 [Hr2' Hl2']. simpl in *.
    apply wp_bind. apply wp_random_random. intros r g3.
    destruct (Qltb r (5 # 100)).
    + apply wp_toggle_placement; [done| |done]. split; [lia|done].
    + apply wp_ret. split; [lia|done].
  - intros pl g1 Hpl. simpl in Hpl.
    apply wp_bind. eapply wp_mono.
    + apply (wp_for_each _ (fun _ ad _ => length ad = E (problem o))); [done|].
      intros done e ad g' He Hl. apply elem_of_range in He. unfold pso_assign_step.
      apply wp_bind.
      eapply wp_mono; [apply (wp_adopt_slot (fun _ => True) _ (pbest_assign part) e ad);
                       [by apply Forall_true..|lia|lia]|].
      intros ad1 g2 [_ Hl1']. simpl in *.
      apply wp_bind.
      eapply wp_mono; [apply (wp_adopt_slot (fun _ => True) _ g_assign e ad1);
                       [by apply Forall_true..|lia|lia]|].
      intros ad2 g3 [_ Hl2']. simpl in *.
      eapply wp_mono; [apply wp_jump_slot; [done|lia]|]. intros ad3 g4 Hl3'. simpl in *. lia.
    + intros ad g2 Had. apply wp_ret. simpl. done.
Qed.

Lemma mutate_returns pb part pm_place pm_assign g :
  (1 <= P pb)%nat -> (1 <= T pb)%nat -> particle_ok pb part ->
  wp (mutate pb part pm_place pm_assign) (fun part' _ => particle_ok pb part') g.
Proof.
  intros HP HT (Hv & Hl2 & Hv3 & Hl4). unfold mutate.
  apply wp_bind. eapply wp_mono.
  - apply (wp_for_each _ (fun _ pl _ => valid_placement pb pl)); [done|].
    intros done p pl g' Hp Hpl. apply elem_of_range in Hp. unfold mutate_place_step.
    apply wp_bind. apply wp_random_random. intros r g1.
    destruct (Qltb r pm_place); [by apply wp_toggle_placement | by apply wp_ret].
  - intros pl g1 Hpl. simpl in Hpl.
    apply wp_bind. eapply wp_mono.
    + apply (wp_for_each _ (fun _ ad _ => length ad = E pb)); [done|].
      intros done e ad g' He Hl. apply elem_of_range in He.
      eapply wp_mono; [apply wp_jump_slot; [done|lia]|]. intros ad' g2 Hl'. simpl in *. lia.
    + intros ad g2 Had. apply wp_ret. simpl. done.
Qed.

Lemma move_loop_returns o pop g :
  optimizer_ok o -> Forall (particle_ok (problem o)) pop ->
  wp (for_each (range (length pop)) (move_step o) pop)
     (fun pop' _ => Forall (particle_ok (problem o)) pop' /\ length pop' = length pop) g.
Proof.
  intros Hok Hpop. pose proof Hok as (HP & HT & _).
  apply (wp_for_each _ (fun _ pop' _ =>
    Forall (particle_ok (problem o)) pop' /\ length pop' = length pop)); [done|].
  intros done i pop1 g1 Hi [Hpop1 Hlen1]. apply elem_of_range in Hi.
  destruct (np_get_lt pop1 i ltac:(lia)) as (part & Hpart & Hget).
  unfold move_step. apply wp_bind. apply wp_lift. rewrite Hget. simpl.
  assert (Hpok : particle_ok (problem o) part).
  { rewrite Forall_forall in Hpop1. apply Hpop1. by apply list_elem_of_lookup_2 in Hpart. }
  apply wp_bind. eapply wp_mono; [by apply local_pso_move_returns|].
  intros part1 g2 Hp1. simpl in Hp1.
  apply wp_bind. eapply wp_mono; [by apply mutate_returns|].
  intros part2 g3 (Hv & Hl & Hv' & Hl'). simpl in *.
  apply wp_bind. eapply wp_mono; [by apply repair_solution_values_returns|].
  intros sol g4 [Hsv Hsl]. simpl in *. apply wp_ret.
  split; [|by rewrite length_insert]. apply Forall_insert; [done|]. done.
Qed.

Lemma generation_returns it o hist g :
  optimizer_ok o ->
  wp (generation it (o, hist))
     (fun st _ => optimizer_ok (fst st) /\ max_iter (fst st) = max_iter o) g.
Proof.
  intros Hok. pose proof Hok as (HP & HT & Hpop & Hbest).
  unfold generation. simpl fst; simpl snd.
  apply wp_bind. apply wp_lift. eapply wpr_mono; [by apply evaluate_population_returns|].
  intros evals Hlen.
  apply wp_bind. apply wp_lift. eapply wpr_mono; [by apply update_loop_returns|].
  intros o1 (Hok1 & Hpb & Hmax & Hn).
  pose proof Hok1 as (HP1 & HT1 & Hpop1 & Hbest1).
  apply wp_bind. eapply wp_mono; [by apply firefly_phase_returns|].
  intros pop2 g2 [Hpop2 Hlen2]. simpl in *.
  apply wp_bind. eapply wp_mono; [by apply move_loop_returns|].
  intros pop3 g3 [Hpop3 Hlen3]. simpl in *.
  apply wp_ret. simpl. done.
Qed.

(** From a well-formed optimizer, [run] returns. *)
Lemma run_returns o g :
  optimizer_ok o -> exists res o' g', run o g = Ok ((res, o'), g').
Proof.
  intros Hok.
  cut (wp (run o) (fun _ _ => True) g).
  { intros Hwp. apply wp_ok in Hwp as ([res o'] & g' & Hrun & _). by exists res, o', g'. }
  unfold run. apply wp_bind. eapply wp_mono.
  - apply (wp_for_each _ (fun _ (st : HybridFFPSO * list score) _ => optimizer_ok (fst st)));
      [done|].
    intros done it [o1 hist] g1 _ Hok1. simpl in Hok1.
    eapply wp_mono; [by apply generation_returns|]. intros st g2 [Hok2 _]. done.
  - intros st g1 _. by apply wp_ret.
Qed.

Lemma init_loop_returns pb n g :
  (1 <= P pb)%nat -> (1 <= T pb)%nat ->
  wp (for_each (range n) (init_step pb) []) (fun pop _ => Forall (particle_ok pb) pop) g.
Proof.
  intros HP HT.
  apply (wp_for_each _ (fun _ pop _ => Forall (particle_ok pb) pop)); [done|].
  intros done i pop g1 _ Hpop. unfold init_step.
  apply wp_bind. eapply wp_mono; [by apply random_solution_returns|].
  intros [pl ad] g2 ([Hl Hr] & _ & [Hla _]). simpl in *. apply wp_ret.
  apply Forall_app. split; [done|]. repeat constructor; done.
Qed.

(** On an instance with at least one location and one cloudlet type the
    constructor returns a well-formed optimizer. *)
Lemma seed_generators_ok seed :
  valid_seed seed -> seed_generators seed = Ok (seed_rng seed).
Proof.
  intros [H0 H1]. unfold seed_generators.
  replace (0 <=? seed) with true by (symmetry; by apply Z.leb_le).
  by replace (seed <=? 4294967295) with true by (symmetry; by apply Z.leb_le).
Qed.

Lemma seed_generators_raise seed :
  ~ valid_seed seed -> seed_generators seed = Raise ValueError.
Proof.
  intros Hbad. unfold seed_generators.
  destruct (Z.leb_spec 0 seed), (Z.leb_spec seed 4294967295); simpl; try done.
  destruct Hbad. by split.
Qed.

Lemma default_seed_valid : valid_seed default_seed.
Proof. unfold valid_seed, default_seed. lia. Qed.

Lemma seed_generators_inv seed g :
  seed_generators seed = Ok g -> valid_seed seed /\ g = seed_rng seed.
Proof.
  unfold seed_generators.
  destruct (Z.leb_spec 0 seed), (Z.leb_spec seed 4294967295); simpl; try done.
  intros [= <-]. by split.
Qed.

Lemma HybridFFPSO_init_returns pb pop_size iters seed :
  (1 <= P pb)%nat -> (1 <= T pb)%nat -> valid_seed seed ->
  exists o g, HybridFFPSO_init pb pop_size iters seed = Ok (o, g) /\
              optimizer_ok o /\ global_best_score o = Inf /\ max_iter o = iters.
Proof.
  intros HP HT Hseed. unfold HybridFFPSO_init.
  rewrite (seed_generators_ok seed Hseed). cbn [mbind result_bind].
  pose proof (init_loop_returns pb (Z.to_nat pop_size) (seed_rng seed) HP HT) as Hwp.
  apply wp_ok in Hwp as (pop & g & -> & Hpop).
  eexists _, _. split; [reflexivity|]. simpl. done.
Qed.

End RunTotal.

(** ** C7 *)

Section ConstructionChecks.
Context {RS : RandomSource}.

(** C7 (amended): neither constructor checks the configuration, and none
    of the three cases raises a configuration error.
    [CloudletProblem.__init__] succeeds whenever the device and location
    coordinates make two-dimensional arrays, an array of zero locations
    (shape (0, 2)) among them, and then P, E and T are the three lengths;
    it raises numpy's [IndexError] when the devices or the locations are a
    Python list without elements.  [HybridFFPSO.__init__] rejects only a
    seed outside [0, 2^32 - 1], with the [ValueError] of [np.random.seed].
    With a seed inside: a population size of zero or less succeeds on every
    instance, with an empty population; zero generations or less succeed on
    an instance with at least one location and one cloudlet type, and [run]
    then returns at once, with an empty history, no best solution and an
    empty archive; on an instance without locations or without cloudlet
    types, a population size of one or more raises the [ValueError] of the
    random generators inside [random_solution]. *)
Theorem construction_checks_nothing :
  (forall norm instance,
     two_dimensional (devices instance) = true ->
     two_dimensional (locations instance) = true ->
     exists pb, CloudletProblem_init norm instance = Ok pb /\
       P pb = length (points (locations instance)) /\
       E pb = length (points (devices instance)) /\
       T pb = length (instance_cloudlet_types instance)) /\
  (forall norm instance,
     two_dimensional (devices instance) = false \/
     two_dimensional (locations instance) = false ->
     CloudletProblem_init norm instance = Raise IndexError) /\
  (forall pb pop_size iters seed,
     pop_size <= 0 -> valid_seed seed ->
     HybridFFPSO_init pb pop_size iters seed
     = Ok ({| problem := pb; pop_size := pop_size; max_iter := iters; population := [];
              global_best := None; global_best_score := Inf; archive := [] |},
           seed_rng seed)) /\
  (forall pb pop_size iters seed,
     (1 <= P pb)%nat -> (1 <= T pb)%nat -> valid_seed seed -> iters <= 0 ->
     exists o g,
       HybridFFPSO_init pb pop_size iters seed = Ok (o, g) /\
       run o g = Ok (({| res_archive := []; best_score := Inf;
                         best_solution := None; history := [] |}, o), g)) /\
  (forall pb pop_size iters seed,
     P pb = 0%nat \/ T pb = 0%nat -> 1 <= pop_size -> valid_seed seed ->
     HybridFFPSO_init pb pop_size iters seed = Raise ValueError) /\
  (forall pb pop_size iters seed,
     ~ valid_seed seed -> HybridFFPSO_init pb pop_size iters seed = Raise ValueError).
Proof.
  repeat apply conj.
  - intros norm instance Hd Hl. unfold CloudletProblem_init. rewrite Hd, Hl.
    eexists. split; [reflexivity|]. done.
  - intros norm instance Hbad. unfold CloudletProblem_init.
    destruct (two_dimensional (devices instance)); [|done].
    destruct Hbad as [Hbad|Hbad]; [done|]. by rewrite Hbad.
  - intros pb pop_size iters seed Hpop Hseed. unfold HybridFFPSO_init.
    rewrite (seed_generators_ok seed Hseed). cbn [mbind result_bind].
    by replace (Z.to_nat pop_size) with 0%nat by lia.
  - intros pb pop_size iters seed HP HT Hseed Hiters. unfold HybridFFPSO_init.
    rewrite (seed_generators_ok seed Hseed). cbn [mbind result_bind].
    pose proof (init_loop_returns pb (Z.to_nat pop_size) (seed_rng seed) HP HT) as Hwp.
    apply wp_ok in Hwp as (pop & g & -> & _).
    eexists _, _. split; [reflexivity|]. simpl fst; simpl snd.
    unfold run. cbn [max_iter].
    by replace (Z.to_nat iters) with 0%nat by lia.
  - intros pb pop_size iters seed Hzero Hpop Hseed. unfold HybridFFPSO_init.
    rewrite (seed_generators_ok seed Hseed). cbn [mbind result_bind].
    destruct (Z.to_nat pop_size) as [|k] eqn:Hn; [lia|].
    unfold range. cbn [seq for_each].
    rewrite M_bind_raise with (e := ValueError); [done|].
    unfold init_step. apply M_bind_raise. by apply random_solution_raises.
  - intros pb pop_size iters seed Hseed. unfold HybridFFPSO_init.
    by rewrite (seed_generators_raise seed Hseed).
Qed.

End ConstructionChecks.

(** ** C4 *)

Section GlobalBest.
Context {RS : RandomSource}.

(** C4: the global best score is replaced only by the fitness of a particle
    just evaluated that is strictly lower; in every run that returns, the
    sequence made of the initial global best score and of the history
    returned, one score per generation, is non-increasing and ends in the
    best score returned; and on an instance with at least one location and
    one cloudlet type, constructing the optimizer with a seed of
    [0, 2^32 - 1] and running it returns such a history. *)
Theorem global_best_never_worsens :
  (forall evals i o o',
     update_step evals i o = Ok o' ->
     global_best_score o' = global_best_score o \/
     exists m, evals !! i = Some m /\
               lt_score (fitness m) (global_best_score o) = true /\
               global_best_score o' = Fin (fitness m)) /\
  (forall o g res o' g',
     run o g = Ok ((res, o'), g') ->
     nonincreasing (global_best_score o :: history res) /\
     length (history res) = Z.to_nat (max_iter o) /\
     last (global_best_score o :: history res) = Some (best_score res)) /\
  (forall pb pop_size iters seed,
     (1 <= P pb)%nat -> (1 <= T pb)%nat -> valid_seed seed ->
     exists o g res o' g',
       HybridFFPSO_init pb pop_size iters seed = Ok (o, g) /\
       run o g = Ok ((res, o'), g') /\
       nonincreasing (Inf :: history res) /\
       length (history res) = Z.to_nat iters /\
       last (Inf :: history res) = Some (best_score res)).
Proof.
  split; [exact update_step_score|]. split; [exact run_history|].
  intros pb pop_size iters seed HP HT Hseed.
  destruct (HybridFFPSO_init_returns pb pop_size iters seed HP HT Hseed)
    as (o & g & Hinit & Hok & Hinf & Hmax).
  destruct (run_returns o g Hok) as (res & o' & g' & Hrun).
  exists o, g, res, o', g'. split; [done|]. split; [done|].
  destruct (run_history o g res o' g' Hrun) as (H1 & H2 & H3).
  by rewrite Hinf, Hmax in *.
Qed.

End GlobalBest.

(** * The contract of [repair_solution] on the store *)

Section RepairContract.
Context {RS : RandomSource}.

Lemma repair_solution_ok pb place_loc assign_dev s pl ad :
  (1 <= P pb)%nat ->
  store s !! place_loc = Some pl -> store s !! assign_dev = Some ad ->
  valid_placement pb pl -> length ad = E pb ->
  exists res s', repair_solution pb place_loc assign_dev s = Ok (res, s').
Proof.
  intros HP Hpl Had Hv Hlen.
  pose proof (repair_solution_returns pb place_loc assign_dev s pl ad HP Hpl Had Hv Hlen) as Hwp.
  apply wp_ok in Hwp as (res & s' & Hrun & _). by exists res, s'.
Qed.

(** ** Runs on different stores *)

Section SimulationFacts.
Variables (rp1 ra1 rp2 ra2 : ref).
Hypothesis Hne1 : rp1 ≠ ra1.
Hypothesis Hne2 : rp2 ≠ ra2.

#[local] Abbreviation Rel := (same_arrays rp1 ra1 rp2 ra2).

Lemma sim_ret {A} (a : A) : simulates Rel (mret a) (mret a).
Proof. intros s1 s2 HR. simpl. done. Qed.

Lemma sim_bind {A B} (m1 m2 : M RepState A) (f1 f2 : A -> M RepState B) :
  simulates Rel m1 m2 -> (forall a, simulates Rel (f1 a) (f2 a)) ->
  simulates Rel (m1 ≫= f1) (m2 ≫= f2).
Proof.
  intros Hm Hf s1 s2 HR. specialize (Hm s1 s2 HR). unfold mbind, M_bind.
  destruct (m1 s1) as [[a1 s1']|e1], (m2 s2) as [[a2 s2']|e2]; try done.
  destruct Hm as [-> HR']. by apply Hf.
Qed.

Lemma sim_lift {A} (r : result A) : simulates Rel (lift_result r) (lift_result r).
Proof. intros s1 s2 HR. unfold lift_result. by destruct r. Qed.

Lemma sim_with_rng {A} (m : M rng A) : simulates Rel (with_rng m) (with_rng m).
Proof.
  intros s1 s2 (Hp & Ha & Hg). unfold with_rng. rewrite Hg.
  destruct (m (gen s2)) as [[a g']|e]; [|done]. done.
Qed.

Lemma sim_read_place : simulates Rel (array_read rp1) (array_read rp2).
Proof.
  intros s1 s2 HR. pose proof HR as (Hp & Ha & Hg). unfold array_read. rewrite Hp.
  by destruct (store s2 !! rp2).
Qed.

Lemma sim_read_assign : simulates Rel (array_read ra1) (array_read ra2).
Proof.
  intros s1 s2 HR. pose proof HR as (Hp & Ha & Hg). unfold array_read. rewrite Ha.
  by destruct (store s2 !! ra2).
Qed.

Lemma sim_get_place i : simulates Rel (array_get rp1 i) (array_get rp2 i).
Proof. apply sim_bind; [apply sim_read_place|]. intros a. apply sim_lift. Qed.

Lemma sim_get_assign i : simulates Rel (array_get ra1 i) (array_get ra2 i).
Proof. apply sim_bind; [apply sim_read_assign|]. intros a. apply sim_lift. Qed.

Lemma sim_set_place i v : simulates Rel (array_set rp1 i v) (array_set rp2 i v).
Proof.
  intros s1 s2 (Hp & Ha & Hg). unfold array_set. rewrite Hp.
  destruct (store s2 !! rp2) as [a|] eqn:Hlook; [|done].
  destruct (np_set a i v) as [a'|e]; [|done].
  split; [done|]. split; [|split; [|done]]; cbn [store gen].
  - rewrite !list_lookup_insert_eq; [done|by eapply lookup_lt_Some..].
  - by rewrite !list_lookup_insert_ne.
Qed.

Lemma sim_set_assign i v : simulates Rel (array_set ra1 i v) (array_set ra2 i v).
Proof.
  intros s1 s2 (Hp & Ha & Hg). unfold array_set. rewrite Ha.
  destruct (store s2 !! ra2) as [a|] eqn:Hlook; [|done].
  destruct (np_set a i v) as [a'|e]; [|done].
  split; [done|]. split; [|split; [|done]]; cbn [store gen].
  - by rewrite !list_lookup_insert_ne.
  - rewrite !list_lookup_insert_eq; [done|by eapply lookup_lt_Some..].
Qed.

Lemma sim_for_each {X A} (b1 b2 : X -> A -> M RepState A) xs a :
  (forall x a, simulates Rel (b1 x a) (b2 x a)) ->
  simulates Rel (for_each xs b1 a) (for_each xs b2 a).
Proof.
  intros Hb. revert a. induction xs as [|x xs IH]; intros a; simpl.
  - apply sim_ret.
  - apply sim_bind; [apply Hb|]. intros a'. apply IH.
Qed.

Lemma sim_for_break {X A} (b1 b2 : X -> A -> M RepState (A * bool)) xs a :
  (forall x a, simulates Rel (b1 x a) (b2 x a)) ->
  simulates Rel (for_break xs b1 a) (for_break xs b2 a).
Proof.
  intros Hb. revert a. induction xs as [|x xs IH]; intros a; simpl.
  - apply sim_ret.
  - apply sim_bind; [apply Hb|]. intros r. destruct (snd r); [apply sim_ret|apply IH].
Qed.

Lemma sim_feasible_step pb e f :
  simulates Rel (feasible_step pb rp1 e f) (feasible_step pb rp2 e f).
Proof.
  unfold feasible_step. apply sim_bind; [apply sim_read_place|]. intros pl.
  apply sim_bind; [apply sim_lift|]. intros fe. apply sim_ret.
Qed.

Lemma sim_fix_step pb e f :
  simulates Rel (fix_step pb rp1 ra1 e f) (fix_step pb rp2 ra2 e f).
Proof.
  unfold fix_step. apply sim_bind; [apply sim_get_assign|]. intros p.
  destruct (_ || _); [|apply sim_ret].
  destruct (0 <? _)%nat.
  - apply sim_bind; [apply sim_with_rng|]. intros q.
    apply sim_bind; [apply sim_set_assign|]. intros _. apply sim_ret.
  - apply sim_bind; [apply sim_lift|]. intros near_p.
    destruct (first_covering _ _ _).
    + apply sim_bind; [apply sim_set_place|]. intros _.
      apply sim_bind; [apply sim_set_assign|]. intros _. apply sim_ret.
    + apply sim_bind; [apply sim_set_assign|]. intros _. apply sim_ret.
Qed.

Lemma sim_capacity_of pb p :
  simulates Rel (capacity_of pb rp1 p) (capacity_of pb rp2 p).
Proof.
  unfold capacity_of. apply sim_bind; [apply sim_get_place|]. intros c.
  destruct (c =? 0); [apply sim_ret|].
  apply sim_bind; [apply sim_lift|]. intros t. apply sim_ret.
Qed.

Lemma sim_move_device pb feasible p cap e st :
  simulates Rel (move_device pb ra1 feasible p cap e st)
                (move_device pb ra2 feasible p cap e st).
Proof.
  unfold move_device. destruct (_ =? 0)%nat; [apply sim_ret|].
  apply sim_bind; [apply sim_lift|]. intros newp.
  apply sim_bind; [apply sim_set_assign|]. intros _. apply sim_ret.
Qed.

Lemma sim_relieve pb feasible p st :
  simulates Rel (relieve pb rp1 ra1 feasible p st) (relieve pb rp2 ra2 feasible p st).
Proof.
  unfold relieve. apply sim_bind; [apply sim_get_place|]. intros c.
  destruct (c =? 0); [apply sim_ret|].
  apply sim_bind; [apply sim_capacity_of|]. intros cap.
  destruct (_ || _); [|apply sim_ret].
  apply sim_bind; [apply sim_read_assign|]. intros ad.
  apply sim_bind; [apply sim_lift|]. intros assigned.
  apply sim_for_break. intros e st'. apply sim_move_device.
Qed.

Lemma sim_relief_pass pb feasible i u :
  simulates Rel (relief_pass pb rp1 ra1 feasible i u) (relief_pass pb rp2 ra2 feasible i u).
Proof.
  unfold relief_pass. apply sim_bind; [apply sim_read_assign|]. intros ad.
  apply sim_bind; [apply sim_lift|]. intros us.
  apply sim_bind; [apply sim_for_each; intros p st; apply sim_relieve|].
  intros st. apply sim_ret.
Qed.

(** The repair in place does the same on two stores in which the two
    arrays hold the same contents, whatever else the stores hold. *)
Lemma sim_repair_in_place pb :
  simulates Rel (repair_in_place pb rp1 ra1) (repair_in_place pb rp2 ra2).
Proof.
  unfold repair_in_place.
  apply sim_bind; [apply sim_for_each; intros e f; apply sim_feasible_step|].
  intros feasible.
  apply sim_bind; [apply sim_for_each; intros e f; apply sim_fix_step|].
  intros feasible'. apply sim_for_break. intros i u. apply sim_relief_pass.
Qed.

End SimulationFacts.

(** [repair_solution] is the repair in place of two new arrays, which hold
    the contents of the two arguments. *)
Lemma repair_solution_unfold pb place_loc assign_dev s pl ad :
  store s !! place_loc = Some pl -> store s !! assign_dev = Some ad ->
  repair_solution pb place_loc assign_dev s
  = (_ ← repair_in_place pb (length (store s)) (S (length (store s)));
     mret (length (store s), S (length (store s))))
      {| store := store s ++ [pl; ad]; gen := gen s |}.
Proof.
  intros Hpl Had. unfold repair_solution.
  rewrite (M_bind_ok _ _ s (length (store s))
             {| store := store s ++ [pl]; gen := gen s |})
    by (unfold array_copy; by rewrite Hpl).
  rewrite (M_bind_ok _ _ _ (S (length (store s)))
             {| store := store s ++ [pl; ad]; gen := gen s |}).
  2:{ unfold array_copy. cbn [store gen].
      rewrite lookup_app_l by (by eapply lookup_lt_Some).
      unfold ref in Had. rewrite Had.
      rewrite length_app. cbn [length]. rewrite Nat.add_1_r, <- app_assoc. done. }
  unfold repair_in_place, mbind, M_bind.
  repeat match goal with
         | |- context [match ?m ?st with Ok _ => _ | Raise _ => _ end] =>
             destruct (m st) as [[? ?]|?]
         end; reflexivity.
Qed.

Lemma repair_solution_contents pb place_loc assign_dev s pl ad res s' :
  store s !! place_loc = Some pl -> store s !! assign_dev = Some ad ->
  repair_solution pb place_loc assign_dev s = Ok (res, s') ->
  exists pl' ad',
    store s' !! fst res = Some pl' /\ store s' !! snd res = Some ad' /\
    repair_solution_values pb pl ad (gen s) = Ok ((pl', ad'), gen s').
Proof.
  intros Hpl Had Hrun.
  pose proof (repair_solution_frame _ _ _ _ _ _ Hrun) as (_ & _ & _ & _ & [pl' Hpl'] & [ad' Had']).
  exists pl', ad'. split; [done|]. split; [done|].
  rewrite (repair_solution_unfold pb place_loc assign_dev s pl ad Hpl Had) in Hrun.
  apply M_bind_inv in Hrun as ([] & s1 & Hbody & Hret). injection Hret as <- <-.
  cbn [fst snd] in Hpl', Had'.
  unfold repair_solution_values.
  rewrite (repair_solution_unfold pb 0%nat 1%nat {| store := [pl; ad]; gen := gen s |} pl ad)
    by done.
  cbn [store gen length app].
  pose proof (sim_repair_in_place (length (store s)) (S (length (store s))) 2%nat 3%nat
                ltac:(lia) ltac:(lia) pb
                {| store := store s ++ [pl; ad]; gen := gen s |}
                {| store := [pl; ad; pl; ad]; gen := gen s |}) as Hsim.
  rewrite Hbody in Hsim.
  unfold mbind at 1, M_bind.
  destruct (repair_in_place pb 2%nat 3%nat _) as [[[] t']|e].
  - destruct Hsim as (_ & Hp & Ha & Hg).
    + split; [|split; [|done]]; cbn [store].
      * by rewrite list_lookup_middle.
      * rewrite (app_assoc _ [pl] [ad]).
        apply list_lookup_middle. rewrite length_app. simpl. lia.
    + cbn [mret M_ret fst snd]. rewrite <- Hp, <- Ha, Hpl', Had', Hg. done.
  - exfalso. apply Hsim. split; [|split; [|done]]; cbn [store].
    + by rewrite list_lookup_middle.
    + rewrite (app_assoc _ [pl] [ad]).
      apply list_lookup_middle. rewrite length_app. simpl. lia.
Qed.

(** ** C9 *)

(** C9: [repair_solution] never mutates its argument arrays: whenever it
    returns, every array of the store before the call, the two arguments
    among them, is unchanged, and the pair returned consists of two
    distinct arrays that did not exist before the call.  They are copies:
    the call is the repair, in place, of two new arrays that hold the
    contents of the two arguments, so that the contents returned depend on
    the contents of the arguments only and are those of
    [repair_solution_values].  And it does return on a placement vector of
    the data model and an assignment vector of length E, when there is at
    least one location. *)
Theorem repair_solution_copies pb place_loc assign_dev s :
  (forall res s',
     repair_solution pb place_loc assign_dev s = Ok (res, s') ->
     unchanged (store s) (store s') /\
     store s !! fst res = None /\ store s !! snd res = None /\
     fst res ≠ snd res /\
     is_Some (store s' !! fst res) /\ is_Some (store s' !! snd res)) /\
  (forall pl ad,
     store s !! place_loc = Some pl -> store s !! assign_dev = Some ad ->
     repair_solution pb place_loc assign_dev s
     = (_ ← repair_in_place pb (length (store s)) (S (length (store s)));
        mret (length (store s), S (length (store s))))
         {| store := store s ++ [pl; ad]; gen := gen s |}) /\
  (forall pl ad res s',
     store s !! place_loc = Some pl -> store s !! assign_dev = Some ad ->
     repair_solution pb place_loc assign_dev s = Ok (res, s') ->
     exists pl' ad',
       store s' !! fst res = Some pl' /\ store s' !! snd res = Some ad' /\
       repair_solution_values pb pl ad (gen s) = Ok ((pl', ad'), gen s')) /\
  (forall pl ad,
     (1 <= P pb)%nat ->
     store s !! place_loc = Some pl -> store s !! assign_dev = Some ad ->
     valid_placement pb pl -> length ad = E pb ->
     exists res s', repair_solution pb place_loc assign_dev s = Ok (res, s')).
Proof.
  split; [|split; [|split]].
  - intros res s'. apply repair_solution_frame.
  - intros pl ad. apply repair_solution_unfold.
  - intros pl ad res s'. apply repair_solution_contents.
  - intros pl ad. apply repair_solution_ok.
Qed.

(** ** C10 *)

(** C10: [repair_solution] never unplaces a location: whenever it returns,
    the placement vector returned has the length of the argument and a
    nonzero entry wherever the argument has one; and it does return on a
    placement vector of the data model and an assignment vector of length
    E, when there is at least one location. *)
Theorem repair_solution_never_unplaces pb place_loc assign_dev s place :
  store s !! place_loc = Some place ->
  (forall res s',
     repair_solution pb place_loc assign_dev s = Ok (res, s') ->
     exists place', store s' !! fst res = Some place' /\
       length place' = length place /\
       forall p c, place !! p = Some c -> c ≠ 0 -> exists c', place' !! p = Some c' /\ c' ≠ 0) /\
  (forall ad,
     (1 <= P pb)%nat -> store s !! assign_dev = Some ad ->
     valid_placement pb place -> length ad = E pb ->
     exists res s', repair_solution pb place_loc assign_dev s = Ok (res, s')).
Proof.
  intros Hplace. split.
  - intros res s' Hrun. by apply (repair_solution_keeps_placed pb place_loc assign_dev s).
  - intros ad HP Had Hv Hlen. by apply (repair_solution_ok pb place_loc assign_dev s place ad).
Qed.

End RepairContract.

(** * Repair of a solution that needs none *)

Lemma range_prefix n done x todo : range n = done ++ x :: todo -> x = length done.
Proof.
  unfold range. intros Hseq.
  assert (Hx : seq 0 n !! length done = Some x) by (rewrite Hseq; by apply list_lookup_middle).
  apply lookup_seq in Hx. lia.
Qed.

(** [covering] collects exactly the covered locations. *)
Lemma covering_elems pb place_loc e :
  valid_placement pb place_loc ->
  wpr (covering pb place_loc e)
      (fun fe => forall p, p ∈ fe <-> (p < P pb)%nat /\ covered pb place_loc e p = true).
Proof.
  intros Hv. unfold covering.
  eapply wpr_mono.
  - apply (wpr_for_each _ (fun done fe =>
      forall p, p ∈ fe <-> p ∈ done /\ covered pb place_loc e p = true)).
    { intros p. split; [by intros ?%elem_of_nil | by intros [?%elem_of_nil _]]. }
    intros done p acc Hp Hacc. apply elem_of_range in Hp.
    destruct (valid_placement_lookup pb place_loc p Hv Hp) as (c & Hlook & Hget & Hc).
    unfold covering_step. rewrite Hget; simpl.
    assert (Hcov : covered pb place_loc e p =
              (0 <? c) && match py_index (cloudlet_types pb) (c - 1) with
                          | Ok t => Qleb (dist pb e p) (R t) | Raise _ => false end).
    { unfold covered. by rewrite Hlook. }
    assert (Hskip : covered pb place_loc e p = false ->
              forall q, q ∈ acc <-> q ∈ done ++ [p] /\ covered pb place_loc e q = true).
    { intros Hno q. rewrite Hacc, elem_of_app, list_elem_of_singleton.
      split; [intros [? ?]; by auto|]. intros [[?| ->] Hq]; [done|congruence]. }
    destruct (0 <? c) eqn:Hpos; simpl in Hcov; [|apply wpr_ret; by apply Hskip].
    apply Z.ltb_lt in Hpos.
    destruct (py_index_ok (cloudlet_types pb) c) as [t Ht]; [unfold T in Hc; lia|].
    rewrite Ht in Hcov |- *. simpl.
    destruct (Qleb (dist pb e p) (R t)); apply wpr_ret; [|by apply Hskip].
    intros q. rewrite !elem_of_app, !list_elem_of_singleton, Hacc.
    split; [intros [[? ?]| ->]; by auto|]. intros [[?| ->] Hq]; by auto.
  - intros fe Hfe p. simpl in Hfe. rewrite (Hfe p). by rewrite elem_of_range.
Qed.

Section RepairIdle.
Context {RS : RandomSource}.

(** The feasible lists computed by the first loop. *)
Lemma wp_feasible_loop_elems pb rp pl s :
  store s !! rp = Some pl -> valid_placement pb pl ->
  wp (for_each (range (E pb)) (feasible_step pb rp) [])
     (fun feasible s' => s' = s /\
        forall e, (e < E pb)%nat ->
          forall p, p ∈ feasible_of feasible e <-> (p < P pb)%nat /\ covered pb pl e p = true) s.
Proof.
  intros Hpl Hv.
  eapply wp_mono.
  - apply (wp_for_each_prefix _ (fun done feasible s' => s' = s /\
      length feasible = length done /\
      forall e, (e < length done)%nat ->
        forall p, p ∈ feasible_of feasible e <-> (p < P pb)%nat /\ covered pb pl e p = true)).
    { split; [done|]. split; [done|]. intros e He. simpl in He. lia. }
    intros done e todo feasible s' Hrange (-> & Hlen & Hf).
    apply range_prefix in Hrange as ->.
    unfold feasible_step. apply wp_bind. eapply wp_array_read; [done|].
    apply wp_bind. apply wp_lift. eapply wpr_mono; [by apply covering_elems|].
    intros fe Hfe. apply wp_ret. split; [done|].
    split; [rewrite !length_app; simpl; lia|].
    intros e' He' p. rewrite length_app in He'. simpl in He'. unfold feasible_of.
    destruct (decide (e' = length done)) as [->|Hne].
    + assert (Hl : (feasible ++ [fe]) !! length done = Some fe)
        by (rewrite <- Hlen; by apply list_lookup_middle).
      rewrite Hl. simpl. apply Hfe.
    + rewrite lookup_app_l by lia. apply Hf. lia.
  - intros feasible s' (-> & Hlen & Hf). split; [done|].
    intros e He. apply Hf. unfold range. rewrite length_seq. done.
Qed.

(** A strictly feasible solution: the second loop reassigns nothing. *)
Lemma wp_fix_loop_idle pb rp ra pl ad feasible s :
  store s !! ra = Some ad -> strictly_feasible pb pl ad ->
  (forall e, (e < E pb)%nat ->
     forall p, p ∈ feasible_of feasible e <-> (p < P pb)%nat /\ covered pb pl e p = true) ->
  wp (for_each (range (E pb)) (fix_step pb rp ra) feasible)
     (fun feasible' s' => s' = s /\ feasible' = feasible) s.
Proof.
  intros Had (Hv & Hlen & Hcov & Hcap) Hf.
  apply (wp_for_each _ (fun _ feasible' s' => s' = s /\ feasible' = feasible)); [done|].
  intros done e f s' He [-> ->]. apply elem_of_range in He.
  destruct (lookup_lt_is_Some_2 ad e ltac:(lia)) as [q Hq].
  destruct (Hcov e q Hq) as [Hrange Hc].
  unfold fix_step. apply wp_bind. eapply wp_array_get; [done..|].
  replace (out_of_range pb q) with false by (symmetry; by apply out_of_range_false).
  rewrite bool_decide_eq_true_2; [by apply wp_ret|].
  apply Hf; [done|]. split; [lia|done].
Qed.

(** A strictly feasible solution: no location is relieved. *)
Lemma wp_relief_pass_idle pb rp ra pl ad feasible i u s :
  store s !! rp = Some pl -> store s !! ra = Some ad -> strictly_feasible pb pl ad ->
  wp (relief_pass pb rp ra feasible i u) (fun r s' => s' = s /\ snd r = true) s.
Proof.
  intros Hpl Had (Hv & Hlen & Hcov & Hcap).
  unfold relief_pass. apply wp_bind. eapply wp_array_read; [done|].
  apply wp_bind. apply wp_lift. eapply wpr_mono; [by apply usage_loop|].
  intros us Hus. apply wp_bind. eapply wp_mono.
  - apply (wp_for_each _ (fun _ st s' => s' = s /\ st = (us, false))); [done|].
    intros done p st s' Hp [-> ->]. apply elem_of_range in Hp.
    destruct (valid_placement_lookup pb pl p Hv Hp) as (c & Hc & _ & Hrange).
    unfold relieve. apply wp_bind. eapply wp_array_get; [done..|].
    destruct (c =? 0) eqn:Hz; [by apply wp_ret|]. apply Z.eqb_neq in Hz.
    apply wp_bind. unfold capacity_of. apply wp_bind. eapply wp_array_get; [done..|].
    replace (c =? 0) with false by (symmetry; by apply Z.eqb_neq).
    destruct (py_index_ok (cloudlet_types pb) c) as [t Ht]; [unfold T in Hrange; lia|].
    apply wp_bind. apply wp_lift. rewrite Ht. simpl. apply wp_ret. simpl.
    destruct (Hcap p Hp c t Hc Hz Ht) as (Hcpu & Hmem & Hsto).
    destruct (Hus p Hp) as (Ucpu & Umem & Usto).
    assert (Hno : forall used cap ld, (used == ld)%Q -> (ld <= cap)%Q ->
              Qltb 0 (used - cap) = false).
    { intros used cap ld Heq Hle. apply not_true_iff_false. rewrite Qltb_lt.
      rewrite Heq. apply Qle_not_lt. unfold Qminus. rewrite <- (Qplus_opp_r cap).
      by apply Qplus_le_l. }
    rewrite (Hno _ _ _ Ucpu Hcpu), (Hno _ _ _ Umem Hmem), (Hno _ _ _ Usto Hsto). simpl.
    by apply wp_ret.
  - intros st s' [-> ->]. by apply wp_ret.
Qed.

(** [repair_solution] returns a strictly feasible solution as it is. *)
Lemma repair_solution_idle pb pl ad g :
  strictly_feasible pb pl ad ->
  repair_solution_values pb pl ad g = Ok ((pl, ad), g).
Proof.
  intros Hsf. pose proof Hsf as (Hv & Hlen & _).
  unfold repair_solution_values.
  set (s0 := {| store := [pl; ad]; gen := g |}).
  set (s2 := {| store := [pl; ad; pl; ad]; gen := g |}).
  cut (wp (repair_solution pb 0%nat 1%nat)
          (fun res s' => res = (2%nat, 3%nat) /\ s' = s2) s0).
  { intros Hwp. apply wp_ok in Hwp as (res & s' & -> & -> & ->). done. }
  unfold repair_solution.
  apply wp_bind. eapply wp_array_copy; [done|].
  apply wp_bind. eapply wp_array_copy; [done|].
  cbn [store gen length app]. fold s2.
  apply wp_bind. eapply wp_mono; [by apply (wp_feasible_loop_elems pb 2%nat pl s2)|].
  intros feasible s3 [-> Hf].
  apply wp_bind.
  eapply wp_mono; [by apply (wp_fix_loop_idle pb 2%nat 3%nat pl ad feasible s2)|].
  intros feasible' s3 [-> ->].
  apply wp_bind. unfold range. cbn [seq for_break].
  apply wp_bind.
  eapply wp_mono; [by apply (wp_relief_pass_idle pb 2%nat 3%nat pl ad feasible 0%nat tt s2)|].
  intros [u b] s3 [-> Hb]. simpl in Hb. subst b. simpl. apply wp_ret. by apply wp_ret.
Qed.

End RepairIdle.

(** * Strict feasibility and the penalty *)

Lemma covered_inv pb place_loc e p :
  covered pb place_loc e p = true ->
  exists c t, place_loc !! p = Some c /\ 0 < c /\
              py_index (cloudlet_types pb) (c - 1) = Ok t /\ (dist pb e p <= R t)%Q.
Proof.
  unfold covered. destruct (place_loc !! p) as [c|]; [|done].
  intros [Hpos Ht]%andb_true_iff. apply Z.ltb_lt in Hpos.
  destruct (py_index (cloudlet_types pb) (c - 1)) as [t|] eqn:Hidx; [|done].
  apply Qleb_le in Ht. by exists c, t.
Qed.

Lemma Qsum_zero (l : list Q) : Forall (fun x => x = 0%Q) l -> (Qsum l == 0)%Q.
Proof. induction 1 as [|x l -> _ IH]; simpl; [done|]. rewrite IH. ring. Qed.

(** No demand reaches a location nothing is assigned to. *)
Lemma load_unassigned pb res assign_dev p :
  (forall e q, assign_dev !! e = Some q -> q ≠ Z.of_nat p) ->
  (load pb res assign_dev p == 0)%Q.
Proof.
  intros Hno. unfold load. apply Qsum_zero. apply Forall_forall.
  intros x Hx. apply list_elem_of_In, in_map_iff in Hx as (e & <- & _).
  unfold assigned_to. destruct (assign_dev !! e) as [q|] eqn:Hq; [|done].
  replace (q =? Z.of_nat p) with false; [done|].
  symmetry. apply Z.eqb_neq. by apply (Hno e).
Qed.

Lemma tolerance_not_exceeded used cap ld :
  (used == ld)%Q -> (ld <= cap)%Q -> Qltb (cap + (1 # 1000000000)) used = false.
Proof.
  intros Heq Hle. apply not_true_iff_false. rewrite Qltb_lt, Heq.
  apply Qle_not_lt. eapply Qle_trans; [exact Hle|].
  rewrite <- (Qplus_0_r cap) at 1. apply Qplus_le_r. done.
Qed.

(** A strictly feasible solution has penalty zero. *)
Lemma strictly_feasible_penalty pb place_loc assign_dev coeff :
  strictly_feasible pb place_loc assign_dev ->
  wpr (evaluate pb place_loc assign_dev coeff) (fun m => penalty m = 0%Q).
Proof.
  intros (Hv & Hlen & Hcov & Hcap). unfold evaluate.
  apply wpr_bind. eapply wpr_mono; [by apply placement_loop_total|]. intros total _.
  apply wpr_bind. eapply wpr_mono; [by apply latency_loop|]. intros lat _.
  apply wpr_bind. eapply wpr_mono.
  { apply (wpr_for_each _ (fun _ pen => pen = 0%Q)); [done|].
    intros done e pen He ->. apply elem_of_range in He.
    destruct (np_get_lt assign_dev e ltac:(lia)) as (q & Hq & Hget).
    destruct (Hcov e q Hq) as [Hrange Hc].
    apply covered_inv in Hc as (c & t & Hlook & Hpos & Ht & Hdist).
    unfold coverage_step. rewrite Hget. simpl.
    replace (out_of_range pb q) with false by (symmetry; by apply out_of_range_false).
    rewrite (np_get_ok _ _ _ Hlook). simpl.
    replace (c =? 0) with false by (symmetry; apply Z.eqb_neq; lia).
    rewrite Ht. simpl.
    by rewrite (tolerance_not_exceeded (dist pb e (Z.to_nat q)) (R t) _ (Qeq_refl _) Hdist). }
  intros pen1 ->.
  apply wpr_bind. eapply wpr_mono; [by apply usage_loop|]. intros u Hu.
  apply wpr_bind. eapply wpr_mono.
  { apply (wpr_for_each _ (fun _ pen => pen = 0%Q)); [done|].
    intros done p pen Hp ->. apply elem_of_range in Hp.
    destruct (valid_placement_lookup pb place_loc p Hv Hp) as (c & Hlook & Hget & Hc).
    destruct (Hu p Hp) as (Ucpu & Umem & Usto).
    unfold capacity_step. rewrite Hget. simpl.
    destruct (c =? 0) eqn:Hz.
    - apply Z.eqb_eq in Hz. subst c.
      assert (Hno : forall e q, assign_dev !! e = Some q -> q ≠ Z.of_nat p).
      { intros e q Hq ->. destruct (Hcov e _ Hq) as [_ Hcv].
        rewrite Nat2Z.id in Hcv. apply covered_inv in Hcv as (c & t & Hl & Hpos & _).
        rewrite Hlook in Hl. injection Hl as <-. lia. }
      assert (Hidle : forall res used, (used == load pb res assign_dev p)%Q ->
                Qltb 0 used = false).
      { intros res used Heq. apply not_true_iff_false. rewrite Qltb_lt, Heq.
        rewrite (load_unassigned pb res assign_dev p Hno). apply Qlt_irrefl. }
      by rewrite (Hidle cpu _ Ucpu), (Hidle mem _ Umem), (Hidle sto _ Usto).
    - apply Z.eqb_neq in Hz.
      destruct (py_index_ok (cloudlet_types pb) c) as [t Ht]; [unfold T in Hc; lia|].
      rewrite Ht. simpl.
      destruct (Hcap p Hp c t Hlook Hz Ht) as (Hcpu & Hmem & Hsto).
      unfold overage_term.
      by rewrite (tolerance_not_exceeded _ _ _ Ucpu Hcpu),
        (tolerance_not_exceeded _ _ _ Umem Hmem), (tolerance_not_exceeded _ _ _ Usto Hsto). }
  intros pen ->. done.
Qed.

Section RepairFeasible.
Context {RS : RandomSource}.

(** Repair preserves the feasibility of a strictly feasible solution: the
    pair it returns is the solution itself and has penalty zero. *)
Lemma repair_keeps_strictly_feasible pb place_loc assign_dev g :
  strictly_feasible pb place_loc assign_dev ->
  exists m,
    evaluate pb place_loc assign_dev default_penalty_coeff = Ok m /\ penalty m = 0%Q /\
    repair_solution_values pb place_loc assign_dev g = Ok ((place_loc, assign_dev), g).
Proof.
  intros Hsf.
  pose proof (strictly_feasible_penalty pb place_loc assign_dev default_penalty_coeff Hsf) as Hwp.
  apply wpr_ok in Hwp as (m & Hrun & Hpen).
  exists m. split; [done|]. split; [done|]. by apply repair_solution_idle.
Qed.

End RepairFeasible.

(** * Repair and feasibility *)

(** ** C5 *)

(** C5 fails on the code: the device of [tolerance_band] assigned to
    location 0 is a solution of penalty zero, the distance being within the
    1e-9 tolerance [evaluate] grants the radius; [repair_solution] tests the
    radius without the tolerance, moves the device to location 1, whose
    capacity it exceeds, and the pair it returns has penalty 40000. *)
Lemma repair_breaks_zero_penalty :
  (exists m, evaluate tolerance_band [1; 2] [0] default_penalty_coeff = Ok m /\
             (penalty m == 0)%Q) /\
  repair_solution_values (RS := script_source) tolerance_band [1; 2] [0] []
    = Ok (([1; 2], [1]), []) /\
  (exists m, evaluate tolerance_band [1; 2] [1] default_penalty_coeff = Ok m /\
             (penalty m == 40000)%Q).
Proof.
  split; [|split].
  - eexists. split; [vm_compute; reflexivity|]. vm_compute. reflexivity.
  - vm_compute. reflexivity.
  - eexists. split; [vm_compute; reflexivity|]. vm_compute. reflexivity.
Qed.

(** * Runs on concrete inputs *)

Lemma repair_solution_copies_witness :
  exists res s' pl' ad',
    repair_solution (RS := script_source) two_sites 0%nat 1%nat
      (script_state [[0; 1]; [0]] []) = Ok (res, s') /\
    unchanged [[0; 1]; [0]] (store s') /\
    fst res ≠ snd res /\
    store s' !! fst res = Some pl' /\ store s' !! snd res = Some ad' /\
    repair_solution_values (RS := script_source) two_sites [0; 1] [0] [] = Ok ((pl', ad'), gen s').
Proof.
  pose proof (repair_solution_copies (RS := script_source) two_sites 0%nat 1%nat
                (script_state [[0; 1]; [0]] [])) as (Hframe & _ & Hcontents & Hreturns).
  destruct (Hreturns [0; 1] [0]) as (res & s' & Hrun).
  - simpl. lia.
  - reflexivity.
  - reflexivity.
  - split; [reflexivity|]. repeat constructor; vm_compute; discriminate.
  - reflexivity.
  - destruct (Hframe res s' Hrun) as (H1 & _ & _ & H2 & _).
    destruct (Hcontents [0; 1] [0] res s' eq_refl eq_refl Hrun) as (pl' & ad' & H3 & H4 & H5).
    exists res, s', pl', ad'. repeat split; assumption.
Defined.

Lemma repair_solution_never_unplaces_witness :
  (forall res s',
     repair_solution (RS := script_source) two_sites 0%nat 1%nat
       (script_state [[0; 1]; [0]] []) = Ok (res, s') ->
     exists place', store s' !! fst res = Some place' /\
       length place' = length ([0; 1] : list Z) /\
       forall p c, ([0; 1] : list Z) !! p = Some c -> c ≠ 0 ->
                   exists c', place' !! p = Some c' /\ c' ≠ 0) /\
  (forall ad,
     (1 <= P two_sites)%nat ->
     store (script_state [[0; 1]; [0]] []) !! 1%nat = Some ad ->
     valid_placement two_sites [0; 1] -> length ad = E two_sites ->
     exists res s', repair_solution (RS := script_source) two_sites 0%nat 1%nat
                      (script_state [[0; 1]; [0]] []) = Ok (res, s')).
Proof.
  apply (repair_solution_never_unplaces (RS := script_source) two_sites 0%nat 1%nat
           (script_state [[0; 1]; [0]] []) [0; 1]).
  reflexivity.
Defined.

Lemma global_best_never_worsens_witness :
  exists o g res o' g',
    HybridFFPSO_init (RS := script_source) two_sites 3 4 42 = Ok (o, g) /\
    run (RS := script_source) o g = Ok ((res, o'), g') /\
    nonincreasing (Inf :: history res) /\
    length (history res) = Z.to_nat 4 /\
    last (Inf :: history res) = Some (best_score res).
Proof.
  apply (proj2 (proj2 (global_best_never_worsens (RS := script_source))) two_sites 3 4 42).
  - simpl. lia.
  - unfold T. simpl. lia.
  - unfold valid_seed. lia.
Defined.

(** * More on the archive *)

Lemma dominates_as_good a b : dominates a b = true -> as_good a b.
Proof.
  unfold dominates. intros [[H1 H2]%andb_true_iff _]%andb_true_iff.
  split; by apply Qleb_le.
Qed.

Lemma as_good_refl a : as_good a a.
Proof. split; apply Qle_refl. Qed.

Lemma as_good_trans a b c : as_good a b -> as_good b c -> as_good a c.
Proof. intros [H1 H2] [H3 H4]. split; eapply Qle_trans; eauto. Qed.

Lemma existsb_dominating archive m :
  existsb (fun x => dominates (metrics x) m) archive = true <->
  exists x, x ∈ archive /\ dominates (metrics x) m = true.
Proof.
  rewrite existsb_exists. split; intros (x & Hx & Hd); exists x; split; try done;
    by apply list_elem_of_In.
Qed.

(** The two cases of an update: a candidate that some entry dominates
    leaves the archive as it is; otherwise the entries the candidate
    dominates are removed, the others keep their order and the candidate
    is appended last. *)
Theorem archive_update_cases archive sol m :
  ((exists x, x ∈ archive /\ dominates (metrics x) m = true) ->
   nondominated_archive_update archive sol m = archive) /\
  ((forall x, x ∈ archive -> dominates (metrics x) m = false) ->
   nondominated_archive_update archive sol m
   = List.filter (fun x => negb (dominates m (metrics x))) archive ++ [archive_entry sol m]).
Proof.
  rewrite nondominated_archive_update_spec. split.
  - intros Hex. apply existsb_dominating in Hex. by rewrite Hex.
  - intros Hnone. destruct (existsb _ archive) eqn:Hex; [|done].
    apply existsb_dominating in Hex as (x & Hx & Hd). by rewrite (Hnone x Hx) in Hd.
Qed.

(** One update loses nothing: the candidate and every entry of the archive
    have, in the updated archive, an entry at least as good. *)
Lemma archive_update_covers archive sol m :
  (exists x, x ∈ nondominated_archive_update archive sol m /\ as_good (metrics x) m) /\
  (forall y, y ∈ archive ->
     exists x, x ∈ nondominated_archive_update archive sol m /\ as_good (metrics x) (metrics y)).
Proof.
  rewrite nondominated_archive_update_spec.
  destruct (existsb _ archive) eqn:Hex.
  - apply existsb_dominating in Hex as (x & Hx & Hd). split.
    + exists x. split; [done|]. by apply dominates_as_good.
    + intros y Hy. exists y. split; [done|]. apply as_good_refl.
  - split.
    + eexists. split; [apply elem_of_app; right; left|]. apply as_good_refl.
    + intros y Hy. destruct (dominates m (metrics y)) eqn:Hd.
      * eexists. split; [apply elem_of_app; right; left|]. simpl. by apply dominates_as_good.
      * exists y. split; [|apply as_good_refl]. apply elem_of_app. left.
        apply list_elem_of_In, filter_In. split; [by apply list_elem_of_In|]. by rewrite Hd.
Qed.

(** Over any sequence of updates nothing is lost: every candidate offered
    and every entry of the initial archive has, in the final archive, an
    entry at least as good on both objectives. *)
Theorem archive_updates_cover archive calls :
  (forall c, c ∈ calls ->
     exists x, x ∈ archive_updates archive calls /\ as_good (metrics x) (snd c)) /\
  (forall y, y ∈ archive ->
     exists x, x ∈ archive_updates archive calls /\ as_good (metrics x) (metrics y)).
Proof.
  unfold archive_updates. revert archive.
  induction calls as [|c calls IH]; intros archive; simpl.
  - split; [by intros c ?%elem_of_nil|]. intros y Hy. exists y. split; [done|apply as_good_refl].
  - destruct (IH (nondominated_archive_update archive (fst c) (snd c))) as [IH1 IH2].
    destruct (archive_update_covers archive (fst c) (snd c)) as [(x0 & Hx0 & Hg0) Hold].
    split.
    + intros c' [->|Hc']%elem_of_cons; [|by apply IH1].
      destruct (IH2 x0 Hx0) as (x & Hx & Hg). exists x. split; [done|].
      by eapply as_good_trans.
    + intros y Hy. destruct (Hold y Hy) as (x1 & Hx1 & Hg1).
      destruct (IH2 x1 Hx1) as (x & Hx & Hg). exists x. split; [done|].
      by eapply as_good_trans.
Qed.

(** An update leaves an archive that is not empty and has at most one
    entry more. *)
Theorem archive_update_size archive sol m :
  nondominated_archive_update archive sol m ≠ [] /\
  (length (nondominated_archive_update archive sol m) <= S (length archive))%nat.
Proof.
  rewrite nondominated_archive_update_spec.
  destruct (existsb _ archive) eqn:Hex.
  - split; [|lia]. intros ->. done.
  - split.
    + by destruct (List.filter _ archive).
    + rewrite length_app. simpl.
      pose proof (List.filter_length_le (fun x => negb (dominates m (metrics x))) archive).
      lia.
Qed.

(** * The metrics of [evaluate], term by term *)

Lemma placement_loop_sum pb place_loc :
  valid_placement pb place_loc ->
  wpr (for_each (range (P pb)) (placement_step pb place_loc) 0%Q)
      (fun total => (total == Qsum (map (placement_term pb place_loc) (range (P pb))))%Q).
Proof.
  intros Hv.
  apply (wpr_for_each _ (fun done total =>
    (total == Qsum (map (placement_term pb place_loc) done))%Q)); [done|].
  intros done p total Hp Htot. apply elem_of_range in Hp.
  destruct (valid_placement_lookup pb place_loc p Hv Hp) as (c & Hlook & Hget & Hc).
  assert (Hterm : placement_term pb place_loc p =
            if 0 <? c then placement_cost_table pb (Z.to_nat (c - 1)) p else 0%Q)
    by (unfold placement_term; by rewrite Hlook).
  unfold placement_step. rewrite Hget. simpl.
  destruct (0 <? c) eqn:Hpos.
  - apply Z.ltb_lt in Hpos. unfold cost_at.
    replace (c - 1 <? Z.of_nat (T pb)) with true by (symmetry; apply Z.ltb_lt; lia).
    replace (p <? P pb)%nat with true by (symmetry; apply Nat.ltb_lt; lia).
    simpl. rewrite map_app; cbn [map]; rewrite Qsum_snoc. by rewrite Htot, Hterm.
  - simpl. rewrite map_app; cbn [map]; rewrite Qsum_snoc. rewrite Htot, Hterm. ring.
Qed.

Lemma coverage_loop_count pb place_loc assign_dev :
  valid_placement pb place_loc -> length assign_dev = E pb ->
  wpr (for_each (range (E pb)) (coverage_step pb place_loc assign_dev) 0%Q)
      (fun pen => (pen == 100000 * Qnat (uncovered_count pb place_loc assign_dev))%Q).
Proof.
  intros Hv Hlen. unfold uncovered_count.
  apply (wpr_for_each _ (fun done pen =>
    (pen == 100000 * Qnat (length (List.filter (uncovered pb place_loc assign_dev) done)))%Q)).
  { simpl. unfold Qnat. simpl. ring. }
  intros done e pen He Hpen. apply elem_of_range in He.
  destruct (np_get_lt assign_dev e ltac:(lia)) as (q & Hq & Hget).
  assert (Hyes : uncovered pb place_loc assign_dev e = true ->
    (pen + 100000 ==
     100000 * Qnat (length (List.filter (uncovered pb place_loc assign_dev) (done ++ [e]))))%Q).
  { intros Hu. rewrite List.filter_app. simpl. rewrite Hu, length_app. simpl.
    rewrite Nat.add_1_r, Qnat_S, Hpen. ring. }
  assert (Hno : uncovered pb place_loc assign_dev e = false ->
    (pen ==
     100000 * Qnat (length (List.filter (uncovered pb place_loc assign_dev) (done ++ [e]))))%Q).
  { intros Hu. rewrite List.filter_app. simpl. rewrite Hu, app_nil_r. done. }
  unfold coverage_step. rewrite Hget. simpl.
  unfold uncovered in Hyes, Hno. rewrite Hq in Hyes, Hno.
  destruct (out_of_range pb q) eqn:Hoor; [by apply Hyes|].
  apply out_of_range_false in Hoor.
  destruct (valid_placement_lookup pb place_loc (Z.to_nat q) Hv ltac:(lia))
    as (c & Hlook & Hgetc & Hc).
  rewrite Hgetc. rewrite Hlook in Hyes, Hno. simpl.
  destruct (c =? 0) eqn:Hz; [by apply Hyes|]. apply Z.eqb_neq in Hz.
  destruct (py_index_ok (cloudlet_types pb) c) as [t Ht]; [unfold T in Hc; lia|].
  rewrite Ht in Hyes, Hno |- *. simpl.
  destruct (Qltb _ _); [by apply Hyes | by apply Hno].
Qed.

Lemma overage_term_overage used cap ld pen :
  (used == ld)%Q -> (overage_term used cap pen == pen + overage ld cap)%Q.
Proof.
  intros Heq. unfold overage_term, overage.
  rewrite (Qltb_compat _ _ used ld (Qeq_refl _) Heq).
  destruct (Qltb _ ld); [rewrite Heq|]; ring.
Qed.

Lemma overage_term_compat used cap pen pen' :
  (pen == pen')%Q -> (overage_term used cap pen == overage_term used cap pen')%Q.
Proof. intros Heq. unfold overage_term. destruct (Qltb _ _); by rewrite Heq. Qed.

Lemma capacity_loop_sum pb place_loc assign_dev u pen1 :
  valid_placement pb place_loc ->
  (forall p, (p < P pb)%nat ->
     (used_at (cpu_used u) p == load pb cpu assign_dev p)%Q /\
     (used_at (mem_used u) p == load pb mem assign_dev p)%Q /\
     (used_at (sto_used u) p == load pb sto assign_dev p)%Q) ->
  wpr (for_each (range (P pb)) (capacity_step pb place_loc u) pen1)
      (fun pen => (pen == pen1 + Qsum (map (capacity_term pb place_loc assign_dev)
                                           (range (P pb))))%Q).
Proof.
  intros Hv Hu.
  apply (wpr_for_each _ (fun done pen =>
    (pen == pen1 + Qsum (map (capacity_term pb place_loc assign_dev) done))%Q)).
  { simpl. ring. }
  intros done p pen Hp Hpen. apply elem_of_range in Hp.
  destruct (valid_placement_lookup pb place_loc p Hv Hp) as (c & Hlook & Hget & Hc).
  destruct (Hu p Hp) as (Ucpu & Umem & Usto).
  unfold capacity_step. rewrite Hget. simpl.
  assert (Hterm : capacity_term pb place_loc assign_dev p =
    if c =? 0 then (if loaded pb assign_dev p then 1000000%Q else 0%Q)
    else match py_index (cloudlet_types pb) (c - 1) with
         | Ok t => (overage (load pb cpu assign_dev p) (CPU t)
                    + overage (load pb mem assign_dev p) (MEM t)
                    + overage (load pb sto assign_dev p) (STO t))%Q
         | Raise _ => 0%Q
         end) by (unfold capacity_term; by rewrite Hlook).
  destruct (c =? 0) eqn:Hz.
  - rewrite (Qltb_compat 0 0 _ _ (Qeq_refl 0) Ucpu), (Qltb_compat 0 0 _ _ (Qeq_refl 0) Umem),
      (Qltb_compat 0 0 _ _ (Qeq_refl 0) Usto).
    fold (loaded pb assign_dev p). 
    destruct (loaded pb assign_dev p); simpl;
      rewrite map_app; cbn [map]; rewrite Qsum_snoc, Hterm, Hpen; ring.
  - apply Z.eqb_neq in Hz.
    destruct (py_index_ok (cloudlet_types pb) c) as [t Ht]; [unfold T in Hc; lia|].
    rewrite Ht in Hterm |- *. simpl.
    rewrite map_app; cbn [map]; rewrite Qsum_snoc, Hterm.
    rewrite (overage_term_overage _ _ _ _ Usto).
    rewrite (overage_term_overage _ _ _ _ Umem).
    rewrite (overage_term_overage _ _ _ _ Ucpu).
    rewrite Hpen. ring.
Qed.

(** [evaluate] on vectors of the data model, metric by metric. *)
Lemma evaluate_terms pb place_loc assign_dev coeff :
  valid_placement pb place_loc ->
  length assign_dev = E pb ->
  wpr (evaluate pb place_loc assign_dev coeff) (fun m =>
    (placement_cost m == Qsum (map (placement_term pb place_loc) (range (P pb))))%Q /\
    (latency m == total_latency pb assign_dev)%Q /\
    (penalty m == 100000 * Qnat (uncovered_count pb place_loc assign_dev)
                  + Qsum (map (capacity_term pb place_loc assign_dev) (range (P pb))))%Q /\
    fitness m = (w_cost * placement_cost m + w_lat * latency m + penalty m * coeff)%Q).
Proof.
  intros Hv Hlen. unfold evaluate.
  apply wpr_bind. eapply wpr_mono; [by apply placement_loop_sum|]. intros total Htot.
  apply wpr_bind. eapply wpr_mono; [by apply latency_loop|]. intros lat Hlat.
  apply wpr_bind. eapply wpr_mono; [by apply coverage_loop_count|]. intros pen1 Hpen1.
  apply wpr_bind. eapply wpr_mono; [by apply usage_loop|]. intros u Hu.
  apply wpr_bind.
  eapply wpr_mono; [by apply (capacity_loop_sum pb place_loc assign_dev u pen1)|].
  intros pen Hpen. simpl. split; [done|]. split; [done|]. split; [|done].
  by rewrite Hpen, Hpen1.
Qed.




Lemma two_sites_exact_loads : exact_loads two_sites.
Proof.
  assert (H1 : exact_int 1) by (exists 1; split; [lia|reflexivity]).
  assert (H10 : exact_int 10) by (exists 10; split; [lia|reflexivity]).
  split; [|split; [|split]].
  - split; [intros e _; exact H1|]. exists 1. split; [lia|reflexivity].
  - split; [intros e _; exact H1|]. exists 1. split; [lia|reflexivity].
  - split; [intros e _; exact H1|]. exists 1. split; [lia|reflexivity].
  - repeat constructor; exact H10.
Qed.




Lemma overage_nonneg ld cap : (0 <= overage ld cap)%Q.
Proof.
  unfold overage. destruct (Qltb _ ld) eqn:Hlt; [|apply Qle_refl].
  apply Qltb_lt in Hlt.
  assert (Hpos : (0 <= ld - cap)%Q).
  { unfold Qminus. rewrite <- (Qplus_opp_r cap). apply Qplus_le_l.
    apply Qlt_le_weak. eapply Qle_lt_trans; [|exact Hlt].
    rewrite <- (Qplus_0_r cap) at 1. by apply Qplus_le_r. }
  by apply Qmult_le_0_compat.
Qed.

Lemma capacity_term_nonneg pb place_loc assign_dev p :
  (0 <= capacity_term pb place_loc assign_dev p)%Q.
Proof.
  unfold capacity_term. destruct (place_loc !! p) as [c|]; [|apply Qle_refl].
  destruct (c =? 0); [by destruct (loaded _ _ _)|].
  destruct (py_index _ _) as [t|]; [|apply Qle_refl].
  pose proof (overage_nonneg (load pb cpu assign_dev p) (CPU t)).
  pose proof (overage_nonneg (load pb mem assign_dev p) (MEM t)).
  pose proof (overage_nonneg (load pb sto assign_dev p) (STO t)).
  rewrite <- (Qplus_0_r 0). apply Qplus_le_compat; [|done].
  rewrite <- (Qplus_0_r 0). by apply Qplus_le_compat.
Qed.


Lemma Qnat_nonneg n : (0 <= Qnat n)%Q.
Proof. unfold Qnat, Qle. simpl. lia. Qed.




(** * The exceptions of [evaluate] *)

Lemma for_each_result_steps {X A} (body : X -> A -> result A) xs a a' :
  for_each xs body a = Ok a' ->
  forall x, x ∈ xs -> exists a1 a2, body x a1 = Ok a2.
Proof.
  revert a. induction xs as [|y xs IH]; intros a Hrun x Hx; simpl in Hrun.
  - by apply elem_of_nil in Hx.
  - apply result_bind_inv in Hrun as (a1 & Hb & Hrun).
    apply elem_of_cons in Hx as [->|Hx]; [by exists a, a1 | by eapply IH].
Qed.

Lemma for_each_result_raise {X A} (body : X -> A -> result A) xs a e :
  for_each xs body a = Raise e -> exists x a1, x ∈ xs /\ body x a1 = Raise e.
Proof.
  revert a. induction xs as [|y xs IH]; intros a Hrun; simpl in Hrun; [done|].
  destruct (body y a) as [a1|e'] eqn:Hb; simpl in Hrun.
  - destruct (IH _ Hrun) as (x & a2 & Hx & Hr). exists x, a2. split; [by right|done].
  - injection Hrun as ->. exists y, a. split; [left|done].
Qed.

Lemma np_get_raise {A} (l : list A) i e : np_get l i = Raise e -> e = IndexError.
Proof. unfold np_get. destruct (l !! i); [done|]. by intros [= <-]. Qed.

Lemma py_index_raise {A} (l : list A) i e : py_index l i = Raise e -> e = IndexError.
Proof.
  unfold py_index. destruct (_ && _); [apply np_get_raise|].
  destruct (_ && _); [apply np_get_raise|]. by intros [= <-].
Qed.

Lemma py_index_ok_inv {A} (l : list A) i x :
  py_index l i = Ok x -> - Z.of_nat (length l) <= i < Z.of_nat (length l).
Proof.
  unfold py_index.
  destruct ((0 <=? i) && (i <? Z.of_nat (length l))) eqn:H1.
  - apply andb_true_iff in H1 as [?%Z.leb_le ?%Z.ltb_lt]. lia.
  - destruct ((- Z.of_nat (length l) <=? i) && (i <? 0)) eqn:H2; [|done].
    apply andb_true_iff in H2 as [?%Z.leb_le ?%Z.ltb_lt]. lia.
Qed.

(** Every exception of [evaluate] is an [IndexError]. *)
Lemma evaluate_raise pb place_loc assign_dev coeff e :
  evaluate pb place_loc assign_dev coeff = Raise e -> e = IndexError.
Proof.
  unfold evaluate. intros Hrun.
  destruct (for_each _ (placement_step _ _) _) as [total|e1] eqn:H1; simpl in Hrun.
  2:{ injection Hrun as <-. apply for_each_result_raise in H1 as (p & a & _ & Hr).
      unfold placement_step in Hr.
      destruct (np_get place_loc p) as [c|e2] eqn:Hc; simpl in Hr;
        [|injection Hr as <-; by eapply np_get_raise].
      destruct (0 <? c); [|done]. unfold cost_at in Hr.
      destruct (_ && _); [done|]. simpl in Hr. by injection Hr as <-. }
  destruct (for_each _ (latency_step _ _) _) as [lat|e1] eqn:H2; simpl in Hrun.
  2:{ injection Hrun as <-. apply for_each_result_raise in H2 as (x & a & _ & Hr).
      unfold latency_step in Hr.
      destruct (np_get assign_dev x) as [q|e2] eqn:Hq; simpl in Hr;
        [|injection Hr as <-; by eapply np_get_raise].
      by destruct (out_of_range pb q). }
  destruct (for_each _ (coverage_step _ _ _) _) as [pen1|e1] eqn:H3; simpl in Hrun.
  2:{ injection Hrun as <-. apply for_each_result_raise in H3 as (x & a & _ & Hr).
      unfold coverage_step in Hr.
      destruct (np_get assign_dev x) as [q|e2] eqn:Hq; simpl in Hr;
        [|injection Hr as <-; by eapply np_get_raise].
      destruct (out_of_range pb q); [done|].
      destruct (np_get place_loc _) as [c|e2] eqn:Hc; simpl in Hr;
        [|injection Hr as <-; by eapply np_get_raise].
      destruct (c =? 0); [done|].
      destruct (py_index _ _) as [t|e2] eqn:Ht; simpl in Hr;
        [by destruct (Qltb _ _) | injection Hr as <-; by eapply py_index_raise]. }
  destruct (for_each _ (usage_step _ _) _) as [u|e1] eqn:H4; simpl in Hrun.
  2:{ injection Hrun as <-. apply for_each_result_raise in H4 as (x & a & _ & Hr).
      unfold usage_step in Hr.
      destruct (np_get assign_dev x) as [q|e2] eqn:Hq; simpl in Hr;
        [|injection Hr as <-; by eapply np_get_raise].
      by destruct (out_of_range pb q). }
  destruct (for_each _ (capacity_step _ _ _) _) as [pen|e1] eqn:H5; simpl in Hrun; [done|].
  injection Hrun as <-. apply for_each_result_raise in H5 as (p & a & _ & Hr).
  unfold capacity_step in Hr.
  destruct (np_get place_loc p) as [c|e2] eqn:Hc; simpl in Hr;
    [|injection Hr as <-; by eapply np_get_raise].
  destruct (c =? 0); [by destruct (_ || _)|].
  destruct (py_index _ _) as [t|e2] eqn:Ht; simpl in Hr;
    [done | injection Hr as <-; by eapply py_index_raise].
Qed.

(** What a call of [evaluate] that returns says of its arguments. *)
Lemma evaluate_ok_inv pb place_loc assign_dev coeff m :
  evaluate pb place_loc assign_dev coeff = Ok m ->
  (P pb <= length place_loc)%nat /\ (E pb <= length assign_dev)%nat /\
  forall p c, (p < P pb)%nat -> place_loc !! p = Some c ->
    c = 0 \/ 1 - Z.of_nat (T pb) <= c <= Z.of_nat (T pb).
Proof.
  unfold evaluate. intros Hrun.
  apply result_bind_inv in Hrun as (total & H1 & Hrun).
  apply result_bind_inv in Hrun as (lat & H2 & Hrun).
  apply result_bind_inv in Hrun as (pen1 & H3 & Hrun).
  apply result_bind_inv in Hrun as (u & H4 & Hrun).
  apply result_bind_inv in Hrun as (pen & H5 & Hrun).
  assert (Hplace : forall p, (p < P pb)%nat -> exists c, place_loc !! p = Some c /\
            (c = 0 \/ 1 - Z.of_nat (T pb) <= c <= Z.of_nat (T pb))).
  { intros p Hp.
    destruct (for_each_result_steps _ _ _ _ H1 p ltac:(by apply elem_of_range))
      as (a1 & a2 & Hs1).
    destruct (for_each_result_steps _ _ _ _ H5 p ltac:(by apply elem_of_range))
      as (b1 & b2 & Hs5).
    unfold placement_step in Hs1. unfold capacity_step in Hs5.
    destruct (np_get place_loc p) as [c|] eqn:Hc; [|done]. simpl in Hs1, Hs5.
    apply np_get_inv in Hc. exists c. split; [done|].
    destruct (c =? 0) eqn:Hz; [left; by apply Z.eqb_eq|]. right.
    destruct (py_index (cloudlet_types pb) (c - 1)) as [t|] eqn:Ht; [|done].
    apply py_index_ok_inv in Ht. unfold T.
    destruct (0 <? c) eqn:Hpos; [|lia].
    unfold cost_at in Hs1. destruct ((c - 1 <? _) && _) eqn:Hb; [|done].
    apply andb_true_iff in Hb as [?%Z.ltb_lt _]. unfold T in *. lia. }
  split; [|split].
  - destruct (P pb) as [|n] eqn:HP; [lia|].
    destruct (Hplace n ltac:(lia)) as (c & Hc & _). apply lookup_lt_Some in Hc. lia.
  - destruct (E pb) as [|n] eqn:HE; [lia|].
    destruct (for_each_result_steps _ _ _ _ H2 n) as (a1 & a2 & Hs).
    { rewrite <- HE in *. apply elem_of_range. lia. }
    unfold latency_step in Hs. destruct (np_get assign_dev n) as [q|] eqn:Hq; [|done].
    apply np_get_inv, lookup_lt_Some in Hq. lia.
  - intros p c Hp Hc. destruct (Hplace p Hp) as (c' & Hc' & Hr). congruence.
Qed.

(** On vectors whose entries fit int64, [evaluate] raises [IndexError]
    when the placement vector is shorter than P, when the assignment vector
    is shorter than E, or when one of the first P slots holds a type number
    above T. *)
Theorem evaluate_index_error pb place_loc assign_dev coeff :
  Forall fits_int64 place_loc -> Forall fits_int64 assign_dev ->
  (length place_loc < P pb)%nat \/ (length assign_dev < E pb)%nat \/
  (exists p c, (p < P pb)%nat /\ place_loc !! p = Some c /\ Z.of_nat (T pb) < c) ->
  evaluate pb place_loc assign_dev coeff = Raise IndexError.
Proof.
  intros _ _ Hbad.
  destruct (evaluate pb place_loc assign_dev coeff) as [m|e] eqn:Hrun.
  - exfalso. apply evaluate_ok_inv in Hrun as (HP & HE & Hc).
    destruct Hbad as [?|[?|(p & c & Hp & Hl & Hgt)]]; [lia|lia|].
    destruct (Hc p c Hp Hl); lia.
  - by rewrite (evaluate_raise _ _ _ _ _ Hrun).
Qed.

(** * [np.argmin] and the assignments of [random_solution] *)

Lemma argmin_from_seq f best k m :
  (best < k)%nat ->
  (forall q, (q < k)%nat -> (f best <= f q)%Q) ->
  (forall q, (q < best)%nat -> (f best < f q)%Q) ->
  let r := argmin_from f best (seq k m) in
  (r < k + m)%nat /\
  (forall q, (q < k + m)%nat -> (f r <= f q)%Q) /\
  (forall q, (q < r)%nat -> (f r < f q)%Q).
Proof.
  revert best k. induction m as [|m IH]; intros best k Hb Hmin Hfirst; simpl.
  - split; [lia|]. split; [|done]. intros q Hq. apply Hmin. lia.
  - destruct (Qltb (f k) (f best)) eqn:Hlt.
    + apply Qltb_lt in Hlt.
      destruct (IH k (S k)) as (H1 & H2 & H3); [lia| | |].
      * intros q Hq. destruct (decide (q = k)) as [->|Hne]; [apply Qle_refl|].
        apply Qlt_le_weak. eapply Qlt_le_trans; [exact Hlt|]. apply Hmin. lia.
      * intros q Hq. eapply Qlt_le_trans; [exact Hlt|]. apply Hmin. lia.
      * split; [lia|]. split; [|done]. intros q Hq. apply H2. lia.
    + apply not_true_iff_false in Hlt. rewrite Qltb_lt in Hlt. apply Qnot_lt_le in Hlt.
      destruct (IH best (S k)) as (H1 & H2 & H3); [lia| |done|].
      * intros q Hq. destruct (decide (q = k)) as [->|Hne]; [done|]. apply Hmin. lia.
      * split; [lia|]. split; [|done]. intros q Hq. apply H2. lia.
Qed.

(** [np.argmin] raises [ValueError] on an empty row; otherwise it returns
    the first index at which the row is smallest. *)
Theorem np_argmin_first_minimum f n :
  (n = 0%nat -> np_argmin f n = Raise ValueError) /\
  ((1 <= n)%nat ->
   exists p, np_argmin f n = Ok p /\ (p < n)%nat /\
     (forall q, (q < n)%nat -> (f p <= f q)%Q) /\
     (forall q, (q < p)%nat -> (f p < f q)%Q)).
Proof.
  split; [by intros ->|].
  intros Hn. destruct n as [|n]; [lia|]. simpl. eexists. split; [done|].
  destruct (argmin_from_seq f 0%nat 1%nat n) as (H1 & H2 & H3); [lia| |lia|].
  - intros q Hq. assert (q = 0%nat) as -> by lia. apply Qle_refl.
  - split; [lia|]. split; [|done]. intros q Hq. apply H2. lia.
Qed.

Section RandomAssignments.
Context {RS : RandomSource}.

Lemma assign_loop_served pb place_loc g :
  valid_placement pb place_loc -> (1 <= P pb)%nat ->
  wp (for_each (range (E pb)) (assign_random pb place_loc) (replicate (E pb) 0))
     (fun ad _ => forall e, (e < E pb)%nat -> served pb place_loc ad e) g.
Proof.
  intros Hv HP.
  eapply wp_mono.
  - apply (wp_for_each_prefix _ (fun done ad _ =>
      length ad = E pb /\ forall e, (e < length done)%nat -> served pb place_loc ad e)).
    { split; [apply length_replicate|]. intros e He. simpl in He. lia. }
    intros done e todo ad g' Hrange [Hlen Hserved].
    assert (He : (e < E pb)%nat).
    { apply elem_of_range. rewrite Hrange. apply elem_of_app. right. left. }
    apply range_prefix in Hrange as ->.
    assert (Hkeep : forall v e', (e' < length done)%nat ->
              served pb place_loc (<[length done := v]> ad) e').
    { intros v e' He'. destruct (Hserved e' He') as (q & Hq & Hrest).
      exists q. split; [|done]. rewrite list_lookup_insert_ne by lia. done. }
    unfold assign_random. apply wp_bind. apply wp_lift.
    eapply wpr_mono; [by apply covering_elems|]. intros candidates Hcand. simpl in Hcand.
    destruct (length candidates =? 0)%nat eqn:Hempty.
    + apply Nat.eqb_eq, length_zero_iff_nil in Hempty. subst candidates.
      apply wp_bind. apply wp_lift.
      destruct (np_argmin_lt (dist pb (length done)) (P pb) HP) as (near & Hnear & Hlt).
      rewrite Hnear. simpl.
      apply wp_lift. rewrite np_set_ok by lia. simpl.
      split; [by rewrite length_insert|].
      intros e' He'. rewrite length_app in He'. simpl in He'.
      destruct (decide (e' = length done)) as [->|Hne]; [|apply Hkeep; lia].
      exists near. split; [apply list_lookup_insert_eq; lia|]. split; [done|]. right.
      split; [|done]. intros p Hp. apply not_true_iff_false. intros Hc.
      assert (Hin : p ∈ ([] : list nat)) by (by apply Hcand). by apply elem_of_nil in Hin.
    + apply wp_bind. apply wp_np_random_choice.
      { intros ->. by apply Nat.eqb_neq in Hempty. }
      intros p g'' Hp. apply wp_lift. rewrite np_set_ok by lia. simpl.
      split; [by rewrite length_insert|].
      intros e' He'. rewrite length_app in He'. simpl in He'.
      destruct (decide (e' = length done)) as [->|Hne]; [|apply Hkeep; lia].
      apply Hcand in Hp as [Hp Hc].
      exists p. split; [apply list_lookup_insert_eq; lia|]. split; [done|]. by left.
  - intros ad g' [_ Hserved] e He. apply Hserved. unfold range. by rewrite length_seq.
Qed.

(** [random_solution] serves every device: it assigns it to a location
    whose placed cloudlet reaches it, or, when no placed cloudlet reaches
    it, to the nearest location. *)
Theorem random_solution_serves pb g :
  (1 <= P pb)%nat -> (1 <= T pb)%nat ->
  exists place_loc assign_dev g',
    random_solution pb None g = Ok ((place_loc, assign_dev), g') /\
    forall e, (e < E pb)%nat -> served pb place_loc assign_dev e.
Proof.
  intros HP HT.
  cut (wp (random_solution pb None)
          (fun sol _ => forall e, (e < E pb)%nat -> served pb (fst sol) (snd sol) e) g).
  { intros Hwp. apply wp_ok in Hwp as ([pl ad] & g' & Hrun & Hs). by exists pl, ad, g'. }
  unfold random_solution.
  assert (Hmax : Z.max 1 (Z.of_nat (P pb) / 4) <= Z.of_nat (P pb)).
  { pose proof (Z.div_le_upper_bound (Z.of_nat (P pb)) 4 (Z.of_nat (P pb))). lia. }
  apply wp_bind. apply wp_np_random_randint; [lia|]. intros k g1 Hk.
  apply wp_bind. apply wp_np_random_choice_range; [lia|]. intros l g2 Hlen Hnd Hall.
  apply wp_bind. eapply wp_mono; [by apply place_loop|]. intros pl g3 [Hv Hcount].
  apply wp_bind. eapply wp_mono; [by apply assign_loop_served|]. intros ad g4 Hserved.
  by apply wp_ret.
Qed.

(** [random_solution] raises [ValueError] on an instance without
    locations or without cloudlet types, and when the ceiling on the
    number of active locations is below 1. *)
Theorem random_solution_value_error pb g :
  (P pb = 0%nat \/ T pb = 0%nat -> random_solution pb None g = Raise ValueError) /\
  (forall ceiling, ceiling <= 0 -> random_solution pb (Some ceiling) g = Raise ValueError).
Proof.
  split.
  - apply random_solution_raises.
  - intros ceiling Hc. unfold random_solution. apply M_bind_raise.
    unfold np_random_randint.
    by replace (1 <? ceiling + 1) with false by (symmetry; apply Z.ltb_ge; lia).
Qed.

End RandomAssignments.

Lemma random_solution_serves_witness :
  exists place_loc assign_dev g',
    random_solution (RS := script_source) two_sites None [5; 1; 3]%nat
      = Ok ((place_loc, assign_dev), g') /\
    forall e, (e < E two_sites)%nat -> served two_sites place_loc assign_dev e.
Proof.
  apply (random_solution_serves (RS := script_source) two_sites [5; 1; 3]%nat).
  - simpl. lia.
  - unfold T. simpl. lia.
Defined.

(** * The assignments [repair_solution] returns *)

Section RepairRangeFacts.
Context {RS : RandomSource}.

Lemma wp_and {S A} (m : M S A) (Q1 Q2 : A -> S -> Prop) s :
  wp m Q1 s -> wp m Q2 s -> wp m (fun a s' => Q1 a s' /\ Q2 a s') s.
Proof.
  intros H1 H2. apply wp_ok in H1 as (a1 & s1 & E1 & H1).
  apply wp_ok in H2 as (a2 & s2 & E2 & H2).
  unfold wp. rewrite E1. rewrite E1 in E2. injection E2 as <- <-. done.
Qed.

Lemma wp_set_assign_range pb rp ra k e v (Q : unit -> RepState -> Prop) s :
  repair_inv_range pb rp ra k s -> (e < E pb)%nat -> 0 <= v < Z.of_nat (P pb) ->
  (forall s', repair_inv_range pb rp ra (if decide (e = k) then S k else k) s' -> Q tt s') ->
  wp (array_set ra e v) Q s.
Proof.
  intros (Hne & pl & ad & Hpl & Had & Hv & Hlen & Hr) He Hval HQ.
  eapply wp_array_set; [done|lia|]. apply HQ.
  split; [done|]. exists pl, (<[e := v]> ad). simpl.
  split; [by rewrite list_lookup_insert_ne|].
  split; [apply list_lookup_insert_eq; by apply lookup_lt_Some in Had|].
  split; [done|]. split; [by rewrite length_insert|].
  intros e' q He' Hq. destruct (decide (e' = e)) as [->|Hne'].
  - rewrite list_lookup_insert_eq in Hq by lia. by injection Hq as <-.
  - rewrite list_lookup_insert_ne in Hq by done. apply (Hr e'); [|done].
    case_decide; lia.
Qed.

Lemma wp_set_place_range pb rp ra k p v (Q : unit -> RepState -> Prop) s :
  repair_inv_range pb rp ra k s -> (p < P pb)%nat -> 0 <= v <= Z.of_nat (T pb) ->
  (forall s', repair_inv_range pb rp ra k s' -> Q tt s') ->
  wp (array_set rp p v) Q s.
Proof.
  intros (Hne & pl & ad & Hpl & Had & [Hlp Hrange] & Hlen & Hr) Hp Hv HQ.
  eapply wp_array_set; [done|lia|]. apply HQ.
  split; [done|]. exists (<[p := v]> pl), ad. simpl.
  split; [apply list_lookup_insert_eq; by apply lookup_lt_Some in Hpl|].
  split; [by rewrite list_lookup_insert_ne|].
  split; [|done]. split; [by rewrite length_insert|]. by apply Forall_insert.
Qed.

Lemma repair_inv_range_weaken pb rp ra k s :
  repair_inv_range pb rp ra k s -> repair_inv pb rp ra s.
Proof. intros (Hne & pl & ad & Hpl & Had & Hv & Hlen & _). split; [done|]. by exists pl, ad. Qed.

Lemma wp_fix_loop_range pb rp ra feasible s :
  (1 <= P pb)%nat ->
  repair_inv_range pb rp ra 0 s -> feasible_ok pb feasible ->
  wp (for_each (range (E pb)) (fix_step pb rp ra) feasible)
     (fun feasible' s' => repair_inv_range pb rp ra (E pb) s' /\ feasible_ok pb feasible') s.
Proof.
  intros HP Hinv Hok.
  eapply wp_mono.
  - apply (wp_for_each_prefix _ (fun done f s' =>
      repair_inv_range pb rp ra (length done) s' /\ feasible_ok pb f)); [done|].
    intros done e todo f s' Hrange [Hi Hf].
    assert (He : (e < E pb)%nat).
    { apply elem_of_range. rewrite Hrange. apply elem_of_app. right. left. }
    apply range_prefix in Hrange as ->.
    rewrite length_app. simpl. rewrite Nat.add_1_r.
    pose proof Hi as (Hne & pl & ad & Hpl & Had & Hv & Hlen & Hr).
    destruct (lookup_lt_is_Some_2 ad (length done) ltac:(lia)) as [p Hp].
    unfold fix_step. apply wp_bind. eapply wp_array_get; [done..|].
    pose proof (feasible_of_ok pb f (length done) Hf) as Hfe.
    destruct (out_of_range pb p || _) eqn:Hcond.
    + destruct (0 <? length (feasible_of f (length done)))%nat eqn:Hnonempty.
      * apply wp_bind. apply wp_with_rng. apply wp_np_random_choice.
        { intros Hnil. rewrite Hnil in Hnonempty. done. }
        intros q g' Hq. apply wp_bind.
        rewrite Forall_forall in Hfe. specialize (Hfe q Hq).
        apply (wp_set_assign_range pb rp ra (length done)); [by destruct s'|done|lia|].
        intros s'' Hi''. rewrite decide_True in Hi'' by done. by apply wp_ret.
      * apply wp_bind. apply wp_lift.
        destruct (np_argmin_lt (dist pb (length done)) (P pb) HP) as (near & -> & Hnear).
        simpl.
        destruct (first_covering _ _ _) as [chosen|] eqn:Hchosen.
        -- apply first_covering_lt in Hchosen.
           apply wp_bind.
           apply (wp_set_place_range pb rp ra (length done)); [done|done|unfold T; lia|].
           intros s1 Hi1. apply wp_bind.
           apply (wp_set_assign_range pb rp ra (length done)); [done|done|lia|].
           intros s2 Hi2. rewrite decide_True in Hi2 by done. apply wp_ret. split; [done|].
           apply Forall_insert; [done|]. apply Forall_app. split; [done|].
           by repeat constructor.
        -- apply wp_bind.
           apply (wp_set_assign_range pb rp ra (length done)); [done|done|lia|].
           intros s1 Hi1. rewrite decide_True in Hi1 by done. by apply wp_ret.
    + apply wp_ret. split; [|done].
      apply orb_false_iff in Hcond as [Hoor _]. apply out_of_range_false in Hoor.
      split; [done|]. exists pl, ad. split; [done|]. split; [done|]. split; [done|].
      split; [done|]. intros e' q He' Hq.
      destruct (decide (e' = length done)) as [->|Hne']; [congruence|].
      apply (Hr e'); [lia|done].
  - intros f s' [Hi Hf]. unfold range in Hi. rewrite length_seq in Hi. done.
Qed.

Lemma wp_move_device_range pb rp ra feasible p cap e st s :
  repair_inv_range pb rp ra (E pb) s -> feasible_ok pb feasible -> (e < E pb)%nat ->
  wp (move_device pb ra feasible p cap e st)
     (fun _ s' => repair_inv_range pb rp ra (E pb) s') s.
Proof.
  intros Hi Hf He. unfold move_device.
  set (alt := filter (fun pp => pp ≠ p) (feasible_of feasible e)).
  destruct (length alt =? 0)%nat eqn:Hempty; [by apply wp_ret|].
  apply Nat.eqb_neq in Hempty.
  set (sorted := sort_by _ alt).
  assert (Hlen : (0 < length sorted)%nat).
  { unfold sorted. rewrite sort_by_perm. lia. }
  destruct (np_get_lt sorted 0%nat Hlen) as (newp & Hlook & Hget).
  assert (Hnewp : (newp < P pb)%nat).
  { apply list_elem_of_lookup_2 in Hlook. unfold sorted in Hlook.
    rewrite sort_by_perm in Hlook. unfold alt in Hlook.
    apply list_elem_of_filter in Hlook as [_ Hin].
    pose proof (feasible_of_ok pb feasible e Hf) as Hall.
    rewrite Forall_forall in Hall. by apply Hall. }
  apply wp_bind. apply wp_lift. rewrite Hget. simpl.
  apply wp_bind. apply (wp_set_assign_range pb rp ra (E pb)); [done|done|lia|].
  intros s' Hi'. rewrite decide_False in Hi' by lia. by apply wp_ret.
Qed.

Lemma wp_relieve_range pb rp ra feasible p st s :
  repair_inv_range pb rp ra (E pb) s -> feasible_ok pb feasible -> (p < P pb)%nat ->
  wp (relieve pb rp ra feasible p st) (fun _ s' => repair_inv_range pb rp ra (E pb) s') s.
Proof.
  intros Hi Hf Hp.
  pose proof Hi as (Hne & pl & ad & Hpl & Had & Hv & Hlen & Hr).
  destruct (valid_placement_lookup pb pl p Hv Hp) as (c & Hc & _ & Hrange).
  unfold relieve. apply wp_bind. eapply wp_array_get; [done..|].
  destruct (c =? 0) eqn:Hz; [by apply wp_ret|]. apply Z.eqb_neq in Hz.
  apply wp_bind. unfold capacity_of. apply wp_bind. eapply wp_array_get; [done..|].
  replace (c =? 0) with false by (symmetry; by apply Z.eqb_neq).
  destruct (py_index_ok (cloudlet_types pb) c) as [t Ht]; [unfold T in Hrange; lia|].
  apply wp_bind. apply wp_lift. rewrite Ht. simpl. apply wp_ret.
  destruct (_ || _); [|by apply wp_ret].
  apply wp_bind. eapply wp_array_read; [done|].
  apply wp_bind. apply wp_lift. eapply wpr_mono; [by apply assigned_loop|].
  intros assigned Hassigned.
  apply (wp_for_break _ (fun _ s' => repair_inv_range pb rp ra (E pb) s')); [done|].
  intros e st' s' He Hi'. apply wp_move_device_range; [done|done|].
  apply list_elem_of_In in He. rewrite sort_by_perm in He.
  rewrite Forall_forall in Hassigned. apply Hassigned. by apply list_elem_of_In.
Qed.

Lemma wp_relief_pass_range pb rp ra feasible i u s :
  repair_inv_range pb rp ra (E pb) s -> feasible_ok pb feasible ->
  wp (relief_pass pb rp ra feasible i u)
     (fun _ s' => repair_inv_range pb rp ra (E pb) s') s.
Proof.
  intros Hi Hf. pose proof Hi as (Hne & pl & ad & Hpl & Had & Hv & Hlen & Hr).
  unfold relief_pass. apply wp_bind. eapply wp_array_read; [done|].
  apply wp_bind. apply wp_lift. eapply wpr_mono; [by apply usage_loop|].
  intros us _. apply wp_bind.
  eapply wp_mono.
  - apply (wp_for_each _ (fun _ _ s' => repair_inv_range pb rp ra (E pb) s')); [done|].
    intros done p st s' Hp Hi'. apply elem_of_range in Hp. by apply wp_relieve_range.
  - intros st s' Hi'. by apply wp_ret.
Qed.

Lemma repair_solution_values_range pb place_loc assign_dev g :
  (1 <= P pb)%nat -> valid_placement pb place_loc -> length assign_dev = E pb ->
  exists place_loc' assign_dev' g',
    repair_solution_values pb place_loc assign_dev g = Ok ((place_loc', assign_dev'), g') /\
    valid_placement pb place_loc' /\ valid_assignment pb assign_dev'.
Proof.
  intros HP Hv Hlen. unfold repair_solution_values.
  set (s0 := {| store := [place_loc; assign_dev]; gen := g |}).
  cut (wp (repair_solution pb 0%nat 1%nat)
          (fun res s' => repair_inv_range pb (fst res) (snd res) (E pb) s') s0).
  { intros Hwp.
    apply wp_ok in Hwp as ([rp ra] & s' & -> & Hne & pl & ad & Hpl & Had & Hv' & Hlen' & Hr).
    simpl in *. rewrite Hpl, Had. exists pl, ad, (gen s'). split; [done|]. split; [done|].
    split; [done|]. apply Forall_forall. intros q Hq.
    apply list_elem_of_lookup in Hq as [e He]. apply (Hr e); [|done].
    apply lookup_lt_Some in He. lia. }
  unfold repair_solution.
  apply wp_bind. eapply wp_array_copy; [done|].
  apply wp_bind. eapply wp_array_copy; [done|].
  cbn [store gen length app s0].
  set (s2 := {| store := [place_loc; assign_dev; place_loc; assign_dev]; gen := g |}).
  assert (Hi : repair_inv_range pb 2%nat 3%nat 0 s2).
  { split; [lia|]. exists place_loc, assign_dev.
    split; [done|]. split; [done|]. split; [done|]. split; [done|]. intros; lia. }
  apply wp_bind.
  eapply wp_mono.
  { apply wp_and.
    - apply (wp_feasible_loop pb 2%nat 3%nat). by eapply repair_inv_range_weaken.
    - by apply (wp_feasible_loop_elems pb 2%nat place_loc s2). }
  intros feasible s3 [[_ Hok3] [-> _]].
  apply wp_bind. eapply wp_mono; [by apply (wp_fix_loop_range pb 2%nat 3%nat)|].
  intros feasible' s4 [Hi4 Hok4].
  apply wp_bind. eapply wp_mono.
  - apply (wp_for_break _ (fun _ s' => repair_inv_range pb 2%nat 3%nat (E pb) s')); [done|].
    intros i u s' _ Hi'. eapply wp_mono; [by apply wp_relief_pass_range|]. done.
  - intros u s5 Hi5. by apply wp_ret.
Qed.

(** On vectors of the data model, with at least one location,
    [repair_solution] returns a placement vector of the data model and an
    assignment vector all of whose entries are in [0,P), whatever the
    entries it was given. *)
Theorem repair_solution_in_range pb place_loc assign_dev g :
  (1 <= P pb)%nat -> valid_placement pb place_loc -> length assign_dev = E pb ->
  exists place_loc' assign_dev' g',
    repair_solution_values pb place_loc assign_dev g = Ok ((place_loc', assign_dev'), g') /\
    valid_placement pb place_loc' /\ valid_assignment pb assign_dev'.
Proof. apply repair_solution_values_range. Qed.

(** On an instance whose demands and capacities are integers that float64
    adds without rounding, [repair_solution] is the identity on a solution
    that meets the coverage and capacity constraints exactly: it returns
    vectors with the same contents and draws nothing. *)
Theorem repair_solution_fixed_point pb place_loc assign_dev g :
  exact_loads pb ->
  strictly_feasible pb place_loc assign_dev ->
  repair_solution_values pb place_loc assign_dev g = Ok ((place_loc, assign_dev), g).
Proof. intros _. apply repair_solution_idle. Qed.

(** Without any location and with at least one device, [repair_solution]
    raises ValueError: the first device has no feasible location, and the
    nearest one is the argmin of an empty row. *)
Theorem repair_solution_value_error pb place_loc assign_dev g :
  P pb = 0%nat -> (1 <= E pb)%nat ->
  valid_placement pb place_loc -> length assign_dev = E pb ->
  repair_solution_values pb place_loc assign_dev g = Raise ValueError.
Proof.
  intros HP HE Hv Hlen. unfold repair_solution_values.
  set (s0 := {| store := [place_loc; assign_dev]; gen := g |}).
  cut (repair_solution pb 0%nat 1%nat s0 = Raise ValueError); [by intros ->|].
  unfold repair_solution.
  rewrite (M_bind_ok _ _ s0 2%nat
             {| store := [place_loc; assign_dev; place_loc]; gen := g |}) by done.
  rewrite (M_bind_ok _ _ _ 3%nat
             {| store := [place_loc; assign_dev; place_loc; assign_dev]; gen := g |}) by done.
  set (s2 := {| store := [place_loc; assign_dev; place_loc; assign_dev]; gen := g |}).
  pose proof (wp_feasible_loop_elems pb 2%nat place_loc s2 eq_refl Hv) as Hwp.
  apply wp_ok in Hwp as (feasible & s3 & Hrun & -> & Helems).
  rewrite (M_bind_ok _ _ _ _ _ Hrun).
  apply M_bind_raise.
  assert (Hnil : feasible_of feasible 0 = []).
  { destruct (feasible_of feasible 0) as [|p l] eqn:Hf; [done|].
    assert (Hp : p ∈ p :: l) by left. rewrite <- Hf in Hp.
    apply (Helems 0%nat HE) in Hp as [Hp _]. lia. }
  destruct (E pb) as [|n] eqn:HEn; [lia|].
  unfold range. cbn [seq for_each]. apply M_bind_raise.
  destruct assign_dev as [|q ad]; [done|].
  unfold fix_step.
  rewrite (M_bind_ok _ _ s2 q s2) by done.
  replace (out_of_range pb q) with true
    by (unfold out_of_range; rewrite HP; change (Z.of_nat 0) with 0;
        destruct (Z.ltb_spec q 0), (Z.leb_spec 0 q); simpl; try done; lia).
  rewrite Hnil, HP. done.
Qed.

End RepairRangeFacts.

Lemma repair_solution_in_range_witness :
  exists place_loc' assign_dev' g',
    repair_solution_values (RS := script_source) two_sites [0; 1] [7] [2; 4]%nat
      = Ok ((place_loc', assign_dev'), g') /\
    valid_placement two_sites place_loc' /\ valid_assignment two_sites assign_dev'.
Proof.
  apply (repair_solution_in_range (RS := script_source) two_sites [0; 1] [7] [2; 4]%nat).
  - simpl. lia.
  - split; [reflexivity|]. repeat constructor; vm_compute; discriminate.
  - reflexivity.
Defined.

Lemma repair_solution_fixed_point_witness :
  strictly_feasible two_sites [1; 0] [0] /\
  repair_solution_values (RS := script_source) two_sites [1; 0] [0] [2; 4]%nat
    = Ok (([1; 0], [0]), [2; 4]%nat).
Proof.
  assert (Hsf : strictly_feasible two_sites [1; 0] [0]).
  { split; [split; [reflexivity|repeat constructor; vm_compute; discriminate]|].
    split; [reflexivity|]. split.
    - intros [|e] q Hq; [|destruct e; discriminate Hq].
      injection Hq as <-. split; [simpl; lia|reflexivity].
    - intros [|[|p]] Hp c t Hc Hne Ht; simpl in Hp; [| |lia].
      + injection Hc as <-. injection Ht as <-.
        repeat split; vm_compute; discriminate.
      + injection Hc as <-. done. }
  split; [exact Hsf|].
  exact (repair_solution_fixed_point (RS := script_source) two_sites [1; 0] [0] [2; 4]%nat
           two_sites_exact_loads Hsf).
Defined.

Lemma repair_solution_value_error_witness :
  repair_solution_values (RS := script_source) (no_locations two_sites) [] [0] [2; 4]%nat
    = Raise ValueError.
Proof.
  apply (repair_solution_value_error (RS := script_source) (no_locations two_sites) [] [0]).
  - reflexivity.
  - simpl. lia.
  - split; [reflexivity|constructor].
  - reflexivity.
Defined.

(** * [utils.py] *)

(** With [lo <= hi], [clamp] returns a number of [lo, hi]: [x] itself
    when it is inside, the bound it passed otherwise. *)
Theorem clamp_spec x lo hi :
  (lo <= hi)%Q ->
  (lo <= clamp x lo hi <= hi)%Q /\
  ((lo <= x <= hi)%Q -> (clamp x lo hi == x)%Q) /\
  ((x < lo)%Q -> clamp x lo hi = lo) /\
  ((hi < x)%Q -> (clamp x lo hi == hi)%Q).
Proof.
  intros Hle. unfold clamp, py_max, py_min.
  destruct (Qltb x hi) eqn:Hxhi.
  - apply Qltb_lt in Hxhi. destruct (Qltb lo x) eqn:Hlox.
    + apply Qltb_lt in Hlox. repeat split; intros; try reflexivity; lra.
    + apply not_true_iff_false in Hlox. rewrite Qltb_lt in Hlox.
      repeat split; intros; try reflexivity; lra.
  - apply not_true_iff_false in Hxhi. rewrite Qltb_lt in Hxhi.
    destruct (Qltb lo hi) eqn:Hlohi.
    + repeat split; intros; try reflexivity; lra.
    + apply not_true_iff_false in Hlohi. rewrite Qltb_lt in Hlohi.
      repeat split; intros; try reflexivity; lra.
Qed.

Lemma clamp_spec_witness :
  (0 <= clamp (5 # 2) 0 1 <= 1)%Q /\
  ((0 <= 5 # 2 <= 1)%Q -> (clamp (5 # 2) 0 1 == 5 # 2)%Q) /\
  ((5 # 2 < 0)%Q -> clamp (5 # 2) 0 1 = 0%Q) /\
  ((1 < 5 # 2)%Q -> (clamp (5 # 2) 0 1 == 1)%Q).
Proof. apply (clamp_spec (5 # 2) 0 1). vm_compute. discriminate. Defined.

(** With crossed bounds, [hi < lo], [clamp] returns [lo] whatever [x]
    is: a number outside [hi, lo] when [x] is inside. *)
Theorem clamp_crossed x lo hi : (hi < lo)%Q -> clamp x lo hi = lo.
Proof.
  intros Hlt. unfold clamp, py_max, py_min.
  destruct (Qltb x hi) eqn:Hxhi.
  - apply Qltb_lt in Hxhi.
    replace (Qltb lo x) with false; [done|].
    symmetry. apply not_true_iff_false. rewrite Qltb_lt. lra.
  - replace (Qltb lo hi) with false; [done|].
    symmetry. apply not_true_iff_false. rewrite Qltb_lt. lra.
Qed.

Lemma clamp_crossed_witness : clamp (1 # 2) 1 0 = 1%Q.
Proof. apply (clamp_crossed (1 # 2) 1 0). reflexivity. Defined.

Section UtilsFacts.
Context {RS : RandomSource}.

Lemma wp_random_random_unit (Q : Q -> rng -> Prop) g :
  (forall r g', (0 <= r < 1)%Q -> Q r g') -> wp random_random Q g.
Proof. intros HQ. unfold wp, random_random. simpl. apply HQ. apply draw_random_unit. Qed.

(** On two parents of the same length [n >= 2], [one_point_crossover]
    returns two children of length [n] and a cut point [pt] with
    [1 <= pt < n]: before [pt] child 1 has the slots of [a] and child 2
    those of [b], from [pt] on the other way round. *)
Theorem one_point_crossover_slots a b g :
  length a = length b -> (2 <= length a)%nat ->
  exists pt c1 c2 g',
    one_point_crossover a b g = Ok ((c1, c2), g') /\
    (1 <= pt < length a)%nat /\
    length c1 = length a /\ length c2 = length a /\
    forall i, (i < pt -> c1 !! i = a !! i /\ c2 !! i = b !! i)%nat /\
              (pt <= i -> c1 !! i = b !! i /\ c2 !! i = a !! i)%nat.
Proof.
  intros Hlen Hn. unfold one_point_crossover.
  replace (length a <? 2)%nat with false by (symmetry; apply Nat.ltb_ge; lia).
  assert (Hwp : wp (random_randint 1 (Z.of_nat (length a) - 1))
                  (fun v _ => 1 <= v <= Z.of_nat (length a) - 1) g).
  { apply wp_random_randint; [lia|done]. }
  apply wp_ok in Hwp as (v & g' & Hrun & Hv).
  rewrite (M_bind_ok _ _ _ _ _ Hrun).
  exists (Z.to_nat v), (take (Z.to_nat v) a ++ drop (Z.to_nat v) b),
         (take (Z.to_nat v) b ++ drop (Z.to_nat v) a), g'.
  split; [done|]. split; [lia|].
  split; [rewrite length_app, length_take, length_drop; lia|].
  split; [rewrite length_app, length_take, length_drop; lia|].
  intros i. split; intros Hi.
  - rewrite !lookup_app_l by (rewrite length_take; lia).
    by rewrite !lookup_take_lt.
  - rewrite !lookup_app_r by (rewrite length_take; lia).
    rewrite !length_take, !lookup_drop.
    split; f_equal; lia.
Qed.

Lemma swap_loop a b prob g :
  length a = length b ->
  wp (for_each (range (length a)) (swap_slot prob) (a, b))
     (fun c _ =>
        length (fst c) = length a /\ length (snd c) = length a /\
        forall i x y, a !! i = Some x -> b !! i = Some y ->
          (fst c !! i = Some x /\ snd c !! i = Some y /\ ~ (1 <= prob)%Q) \/
          (fst c !! i = Some y /\ snd c !! i = Some x /\ ~ (prob <= 0)%Q)) g.
Proof.
  intros Hlen.
  eapply wp_mono.
  - apply (wp_for_each_prefix _ (fun done c _ =>
      length (fst c) = length a /\ length (snd c) = length a /\
      forall i x y, a !! i = Some x -> b !! i = Some y ->
        if decide (i < length done)%nat then
          (fst c !! i = Some x /\ snd c !! i = Some y /\ ~ (1 <= prob)%Q) \/
          (fst c !! i = Some y /\ snd c !! i = Some x /\ ~ (prob <= 0)%Q)
        else fst c !! i = Some x /\ snd c !! i = Some y)).
    { split; [done|]. split; [done|]. intros i x y Hx Hy. simpl. done. }
    intros done k todo [c1 c2] g1 Hrange (Hl1 & Hl2 & Hslots). simpl in Hl1, Hl2.
    assert (Hk : (k < length a)%nat).
    { apply elem_of_range. rewrite Hrange. apply elem_of_app. right. left. }
    apply range_prefix in Hrange as ->.
    unfold swap_slot. apply wp_bind. apply wp_random_random_unit. intros r g2 [Hr0 Hr1].
    destruct (Qltb r prob) eqn:Hdraw.
    + apply Qltb_lt in Hdraw. simpl.
      destruct (np_get_lt c2 (length done) ltac:(lia)) as (x2 & Hx2 & ->).
      destruct (np_get_lt c1 (length done) ltac:(lia)) as (x1 & Hx1 & ->).
      apply wp_bind, wp_lift. simpl. apply wp_bind, wp_lift. simpl.
      rewrite !np_set_ok by lia.
      apply wp_bind, wp_lift. simpl. apply wp_bind, wp_lift. simpl. apply wp_ret. simpl.
      split; [by rewrite length_insert|]. split; [by rewrite length_insert|].
      intros i x y Hx Hy. specialize (Hslots i x y Hx Hy). simpl in Hslots.
      rewrite length_app. simpl.
      destruct (decide (i = length done)) as [->|Hne].
      * rewrite decide_True by lia. rewrite decide_False in Hslots by lia.
        destruct Hslots as [Hc1 Hc2]. right.
        rewrite !list_lookup_insert_eq by lia.
        split; [congruence|]. split; [congruence|].
        intros Hp. apply (Qlt_not_le _ _ Hdraw). by eapply Qle_trans.
      * rewrite !list_lookup_insert_ne by done.
        destruct (decide (i < length done)%nat).
        -- by rewrite decide_True by lia.
        -- by rewrite decide_False by lia.
    + apply not_true_iff_false in Hdraw. rewrite Qltb_lt in Hdraw. apply Qnot_lt_le in Hdraw.
      apply wp_ret. simpl. split; [done|]. split; [done|].
      intros i x y Hx Hy. specialize (Hslots i x y Hx Hy). simpl in Hslots.
      rewrite length_app. simpl.
      destruct (decide (i = length done)) as [->|Hne].
      * rewrite decide_True by lia. rewrite decide_False in Hslots by lia.
        destruct Hslots as [Hc1 Hc2]. left. split; [done|]. split; [done|].
        intros Hp. apply (Qlt_not_le r 1 Hr1). by eapply Qle_trans.
      * destruct (decide (i < length done)%nat).
        -- by rewrite decide_True by lia.
        -- by rewrite decide_False by lia.
  - intros [c1 c2] g' (Hl1 & Hl2 & Hslots). split; [done|]. split; [done|].
    intros i x y Hx Hy. specialize (Hslots i x y Hx Hy).
    unfold range in Hslots. rewrite length_seq in Hslots.
    rewrite decide_True in Hslots by (by apply lookup_lt_Some in Hx). done.
Qed.

(** On two parents of the same length, [uniform_crossover] returns two
    children of that length that hold, slot by slot, the two values of the
    parents: as they were, or exchanged. *)
Theorem uniform_crossover_slots a b prob g :
  length a = length b ->
  exists c1 c2 g',
    uniform_crossover a b prob g = Ok ((c1, c2), g') /\
    length c1 = length a /\ length c2 = length a /\
    forall i x y, a !! i = Some x -> b !! i = Some y ->
      (c1 !! i = Some x /\ c2 !! i = Some y) \/ (c1 !! i = Some y /\ c2 !! i = Some x).
Proof.
  intros Hlen. pose proof (swap_loop a b prob g Hlen) as Hwp.
  apply wp_ok in Hwp as ([c1 c2] & g' & Hrun & Hl1 & Hl2 & Hslots).
  exists c1, c2, g'. split; [done|]. split; [done|]. split; [done|].
  intros i x y Hx Hy. destruct (Hslots i x y Hx Hy) as [(? & ? & _)|(? & ? & _)]; auto.
Qed.

(** The two ends of [prob]: with [prob <= 0] the children are the parents,
    with [prob >= 1] they are the parents exchanged, since a draw is in
    [0, 1). *)
Theorem uniform_crossover_extremes a b prob g :
  length a = length b ->
  exists c1 c2 g',
    uniform_crossover a b prob g = Ok ((c1, c2), g') /\
    ((prob <= 0)%Q -> c1 = a /\ c2 = b) /\
    ((1 <= prob)%Q -> c1 = b /\ c2 = a).
Proof.
  intros Hlen. pose proof (swap_loop a b prob g Hlen) as Hwp.
  apply wp_ok in Hwp as ([c1 c2] & g' & Hrun & Hl1 & Hl2 & Hslots).
  simpl in Hl1, Hl2, Hslots.
  exists c1, c2, g'. split; [done|]. split; intros Hp.
  - split; apply list_eq_same_length with (length a); try lia.
    + intros i x y Hi Hx Hy.
      destruct (lookup_lt_is_Some_2 b i ltac:(lia)) as [z Hz].
      destruct (Hslots i y z Hy Hz) as [(? & ? & _)|(_ & _ & Hn)]; [congruence|done].
    + intros i x y Hi Hx Hy.
      destruct (lookup_lt_is_Some_2 a i ltac:(lia)) as [z Hz].
      destruct (Hslots i z y Hz Hy) as [(? & ? & _)|(_ & _ & Hn)]; [congruence|done].
  - split; apply list_eq_same_length with (length a); try lia.
    + intros i x y Hi Hx Hy.
      destruct (lookup_lt_is_Some_2 a i ltac:(lia)) as [z Hz].
      destruct (Hslots i z y Hz Hy) as [(_ & _ & Hn)|(? & ? & _)]; [done|congruence].
    + intros i x y Hi Hx Hy.
      destruct (lookup_lt_is_Some_2 b i ltac:(lia)) as [z Hz].
      destruct (Hslots i y z Hy Hz) as [(_ & _ & Hn)|(? & ? & _)]; [done|congruence].
Qed.

Lemma swap_loop_short prob n : forall k c1 c2 g,
  (1 <= prob)%Q -> (k <= length c2 < k + n)%nat -> (k + n <= length c1)%nat ->
  for_each (seq k n) (swap_slot prob) (c1, c2) g = Raise IndexError.
Proof.
  induction n as [|n IH]; intros k c1 c2 g Hp Hk Hl; [lia|].
  cbn [seq for_each].
  assert (Hbody : swap_slot prob k (c1, c2) g =
                  (x ← lift_result (np_get c2 k);
                   y ← lift_result (np_get c1 k);
                   child1 ← lift_result (np_set c1 k x);
                   child2 ← lift_result (np_set c2 k y);
                   mret (child1, child2)) (snd (draw_random g))).
  { unfold swap_slot.
    rewrite (M_bind_ok _ _ g (fst (draw_random g)) (snd (draw_random g)))
      by (unfold random_random; by destruct (draw_random g)).
    replace (Qltb (fst (draw_random g)) prob) with true; [done|].
    symmetry. apply Qltb_lt. pose proof (draw_random_unit g) as [_ Hr]. lra. }
  destruct (decide (k = length c2)) as [->|Hne].
  - apply M_bind_raise. rewrite Hbody. apply M_bind_raise.
    unfold lift_result, np_get. by rewrite lookup_ge_None_2 by lia.
  - destruct (np_get_lt c2 k ltac:(lia)) as (x & _ & Hx).
    destruct (np_get_lt c1 k ltac:(lia)) as (y & _ & Hy).
    erewrite M_bind_ok; [apply (IH (S k) (<[k := x]> c1) (<[k := y]> c2)); [done|..]|].
    + rewrite length_insert. lia.
    + rewrite length_insert. lia.
    + rewrite Hbody. unfold mbind, M_bind, lift_result. rewrite Hx, Hy.
      rewrite !np_set_ok by lia. done.
Qed.

(** A second parent shorter than the first: with [prob >= 1], every slot
    is exchanged and the first slot that [b] does not have raises
    IndexError. *)
Theorem uniform_crossover_index_error a b prob g :
  (length b < length a)%nat -> (1 <= prob)%Q ->
  uniform_crossover a b prob g = Raise IndexError.
Proof.
  intros Hlen Hp. unfold uniform_crossover, range.
  apply swap_loop_short; [done|lia|lia].
Qed.

End UtilsFacts.

Lemma one_point_crossover_slots_witness :
  exists pt c1 c2 g',
    one_point_crossover (RS := script_source) [1; 2; 3] [4; 5; 6] [7; 2]%nat
      = Ok ((c1, c2), g') /\
    (1 <= pt < 3)%nat /\ length c1 = 3%nat /\ length c2 = 3%nat /\
    forall i, ((i < pt)%nat -> c1 !! i = ([1; 2; 3] : list Z) !! i /\
                               c2 !! i = ([4; 5; 6] : list Z) !! i) /\
              ((pt <= i)%nat -> c1 !! i = ([4; 5; 6] : list Z) !! i /\
                                c2 !! i = ([1; 2; 3] : list Z) !! i).
Proof.
  apply (one_point_crossover_slots (RS := script_source) [1; 2; 3] [4; 5; 6] [7; 2]%nat).
  - reflexivity.
  - simpl. lia.
Defined.

Lemma uniform_crossover_slots_witness :
  exists c1 c2 g',
    uniform_crossover (RS := script_source) [1; 2; 3] [4; 5; 6]
      uniform_crossover_default_prob [7; 2; 0]%nat = Ok ((c1, c2), g') /\
    length c1 = 3%nat /\ length c2 = 3%nat /\
    forall i x y, ([1; 2; 3] : list Z) !! i = Some x -> ([4; 5; 6] : list Z) !! i = Some y ->
      (c1 !! i = Some x /\ c2 !! i = Some y) \/ (c1 !! i = Some y /\ c2 !! i = Some x).
Proof.
  apply (uniform_crossover_slots (RS := script_source) [1; 2; 3] [4; 5; 6]
           uniform_crossover_default_prob [7; 2; 0]%nat).
  reflexivity.
Defined.

Lemma uniform_crossover_extremes_witness :
  exists c1 c2 g',
    uniform_crossover (RS := script_source) [1; 2; 3] [4; 5; 6] 1 [7; 2; 0]%nat
      = Ok ((c1, c2), g') /\
    ((1 <= 0)%Q -> c1 = [1; 2; 3] /\ c2 = [4; 5; 6]) /\
    ((1 <= 1)%Q -> c1 = [4; 5; 6] /\ c2 = [1; 2; 3]).
Proof.
  apply (uniform_crossover_extremes (RS := script_source) [1; 2; 3] [4; 5; 6] 1 [7; 2; 0]%nat).
  reflexivity.
Defined.

Lemma uniform_crossover_index_error_witness :
  uniform_crossover (RS := script_source) [1; 2; 3] [4; 5] 1 [7; 2; 0]%nat
    = Raise IndexError.
Proof.
  apply (uniform_crossover_index_error (RS := script_source) [1; 2; 3] [4; 5] 1 [7; 2; 0]%nat).
  - simpl. lia.
  - vm_compute. discriminate.
Defined.

(** * The bookkeeping of a run *)

Lemma evaluate_population_inv o evals :
  evaluate_population o = Ok evals ->
  Forall2 (evaluated_as (problem o)) (population o) evals.
Proof.
  unfold evaluate_population.
  cut (forall l acc evals,
         for_each l
           (fun part evals =>
              r ← evaluate (problem o) (place_loc part) (assign_dev part) default_penalty_coeff;
              mret (evals ++ [r])) acc = Ok evals ->
         exists rest, evals = acc ++ rest /\ Forall2 (evaluated_as (problem o)) l rest).
  { intros Hcut Hrun. apply Hcut in Hrun as (rest & -> & Hall). done. }
  clear evals. induction l as [|part l IH]; intros acc evals Hrun; simpl in Hrun.
  - injection Hrun as <-. exists []. split; [by rewrite app_nil_r|constructor].
  - apply result_bind_inv in Hrun as (acc' & Hbody & Hrun).
    apply result_bind_inv in Hbody as (m & Hm & Hbody). injection Hbody as <-.
    apply IH in Hrun as (rest & -> & Hall).
    exists (m :: rest). split; [by rewrite <- app_assoc|]. by constructor.
Qed.

Lemma archive_update_Forall (Q : ArchiveEntry -> Prop) archive sol m :
  Forall Q archive -> Q (archive_entry sol m) ->
  Forall Q (nondominated_archive_update archive sol m).
Proof.
  intros Hall Hnew. rewrite nondominated_archive_update_spec.
  destruct (existsb _ archive); [done|].
  apply Forall_app. split; [|by repeat constructor].
  apply Forall_forall. intros x Hx. apply list_elem_of_In, filter_In in Hx as [Hx _].
  rewrite Forall_forall in Hall. by apply Hall, list_elem_of_In.
Qed.

Lemma archive_update_nonempty archive sol m :
  nondominated_archive_update archive sol m ≠ [].
Proof.
  rewrite nondominated_archive_update_spec.
  destruct (existsb _ archive) eqn:Hex.
  - intros ->. done.
  - by destruct (List.filter _ archive).
Qed.

Lemma lt_score_false q s : lt_score q s = false -> score_le s (Fin q).
Proof.
  destruct s as [x|]; simpl; [|done]. intros Hlt.
  apply not_true_iff_false in Hlt. rewrite Qltb_lt in Hlt. by apply Qnot_lt_le.
Qed.

(** One update keeps the books: the particle, the global best and the
    archive take the vectors and the metrics of the same evaluation. *)
Lemma update_step_bookkeeping evals i o o' :
  update_step evals i o = Ok o' ->
  Forall2 (evaluated_as (problem o)) (population o) evals ->
  bookkeeping o ->
  problem o' = problem o /\
  Forall2 (evaluated_as (problem o')) (population o') evals /\
  bookkeeping o'.
Proof.
  unfold update_step. intros Hrun Hevals (Hbest & Hpop & Harch).
  apply result_bind_inv in Hrun as (part & Hpart & Hrun).
  apply result_bind_inv in Hrun as (m & Hm & Hrun).
  apply np_get_inv in Hpart. apply np_get_inv in Hm.
  injection Hrun as <-. cbn [problem population global_best global_best_score archive].
  assert (Heval : evaluated_as (problem o) part m)
    by (eapply Forall2_lookup_lr; eauto).
  assert (Hkept : pbest_kept (problem o) (global_best_score o) part).
  { rewrite Forall_forall in Hpop. apply Hpop. by eapply list_elem_of_lookup_2. }
  assert (Hle : score_le (snd (update_gbest o part m)) (global_best_score o)).
  { unfold update_gbest. destruct (lt_score _ _) eqn:Hlt; simpl.
    - by apply lt_score_le.
    - apply score_le_refl. }
  split; [done|]. split; [|split; [|split]].
  - rewrite <- (list_insert_id evals i m Hm). apply Forall2_insert; [done|].
    unfold evaluated_as, update_pbest in *. by destruct (lt_score _ (pbest_score part)).
  - unfold update_gbest. destruct (lt_score _ (global_best_score o)); simpl; [|done].
    by exists m.
  - apply Forall_insert.
    + eapply Forall_impl; [exact Hpop|]. intros part0 [H1 H2]. split; [done|].
      by eapply score_le_trans.
    + destruct Hkept as [Hpe Hps]. unfold update_pbest.
      destruct (lt_score (fitness m) (pbest_score part)) eqn:Hlt.
      * split; [right; by exists m|]. simpl.
        unfold update_gbest. destruct (lt_score _ (global_best_score o)) eqn:Hlt'; simpl.
        -- apply Qle_refl.
        -- by apply lt_score_false.
      * split; [done|]. by eapply score_le_trans.
  - by apply archive_update_Forall.
Qed.

Section PbestOnly.
Context {RS : RandomSource}.
Variable Q : Particle -> Prop.
Hypothesis Q_pbest : forall part part', same_pbest part part' -> Q part -> Q part'.

Lemma firefly_move_pbest pb part brighter_part g part' g' :
  firefly_move pb part brighter_part g = Ok (part', g') -> same_pbest part part'.
Proof.
  unfold firefly_move. intros Hrun.
  apply M_bind_inv in Hrun as (pl & g1 & _ & Hrun).
  apply M_bind_inv in Hrun as (ad & g2 & _ & Hrun).
  by injection Hrun as <- _.
Qed.

Lemma local_pso_move_pbest o part g part' g' :
  local_pso_move o part g = Ok (part', g') -> same_pbest part part'.
Proof.
  unfold local_pso_move. intros Hrun.
  apply M_bind_inv in Hrun as (pl & g1 & _ & Hrun).
  apply M_bind_inv in Hrun as (ad & g2 & _ & Hrun).
  by injection Hrun as <- _.
Qed.

Lemma mutate_pbest pb part pm_place pm_assign g part' g' :
  mutate pb part pm_place pm_assign g = Ok (part', g') -> same_pbest part part'.
Proof.
  unfold mutate. intros Hrun.
  apply M_bind_inv in Hrun as (pl & g1 & _ & Hrun).
  apply M_bind_inv in Hrun as (ad & g2 & _ & Hrun).
  by injection Hrun as <- _.
Qed.

Lemma firefly_phase_pbest pb evals pop g pop' g' :
  firefly_phase pb evals pop g = Ok (pop', g') -> Forall Q pop -> Forall Q pop'.
Proof.
  unfold firefly_phase. intros Hrun Hall.
  apply (for_each_M_inv _ (Forall Q) _ _ _ _ _ Hrun Hall).
  intros ii pop1 g1 pop2 g2 Hrow Hall1. unfold firefly_row in Hrow.
  apply M_bind_inv in Hrow as (i & g3 & _ & Hrow).
  apply (for_each_M_inv _ (Forall Q) _ _ _ _ _ Hrow Hall1).
  intros jj pop3 g4 pop4 g5 Hpair Hall3. unfold firefly_pair in Hpair.
  apply M_bind_inv in Hpair as (j & g6 & _ & Hpair).
  destruct (Qltb _ _); [|by injection Hpair as <- _].
  apply M_bind_inv in Hpair as (part & g7 & Hpart & Hpair).
  apply lift_result_inv in Hpart as [Hpart _]. apply np_get_inv in Hpart.
  apply M_bind_inv in Hpair as (br & g8 & _ & Hpair).
  apply M_bind_inv in Hpair as (part' & g9 & Hmove & Hpair).
  injection Hpair as <- _.
  apply Forall_insert; [done|].
  apply (Q_pbest part); [by eapply firefly_move_pbest|].
  rewrite Forall_forall in Hall3. apply Hall3. by eapply list_elem_of_lookup_2.
Qed.

Lemma move_step_pbest o i pop g pop' g' :
  move_step o i pop g = Ok (pop', g') -> Forall Q pop -> Forall Q pop'.
Proof.
  unfold move_step. intros Hrun Hall.
  apply M_bind_inv in Hrun as (part & g1 & Hpart & Hrun).
  apply lift_result_inv in Hpart as [Hpart _]. apply np_get_inv in Hpart.
  apply M_bind_inv in Hrun as (part1 & g2 & Hpso & Hrun).
  apply M_bind_inv in Hrun as (part2 & g3 & Hmut & Hrun).
  apply M_bind_inv in Hrun as (sol & g4 & _ & Hrun).
  injection Hrun as <- _.
  apply Forall_insert; [done|].
  apply local_pso_move_pbest in Hpso as (H1 & H2 & H3).
  apply mutate_pbest in Hmut as (H4 & H5 & H6).
  apply (Q_pbest part).
  - unfold same_pbest. simpl. split; [congruence|]. split; congruence.
  - rewrite Forall_forall in Hall. apply Hall. by eapply list_elem_of_lookup_2.
Qed.

End PbestOnly.

Section Bookkeeping.
Context {RS : RandomSource}.

Lemma pbest_kept_same pb s part part' :
  same_pbest part part' -> pbest_kept pb s part -> pbest_kept pb s part'.
Proof.
  intros (H1 & H2 & H3) [Hpe Hle]. unfold pbest_kept, pbest_evaluated.
  rewrite H1, H2, H3. done.
Qed.

Lemma generation_bookkeeping it o hist g o' hist' g' :
  generation it (o, hist) g = Ok ((o', hist'), g') ->
  bookkeeping o -> bookkeeping o' /\ problem o' = problem o.
Proof.
  unfold generation. simpl fst; simpl snd. intros Hrun Hinv.
  apply M_bind_inv in Hrun as (evals & s1 & Hevals & Hrun).
  apply lift_result_inv in Hevals as [Hevals _]. apply evaluate_population_inv in Hevals.
  apply M_bind_inv in Hrun as (o1 & s2 & Hupd & Hrun).
  apply lift_result_inv in Hupd as [Hupd _].
  apply M_bind_inv in Hrun as (pop1 & s3 & Hff & Hrun).
  apply M_bind_inv in Hrun as (pop2 & s4 & Hmoves & Hrun).
  injection Hrun as <- _ _.
  assert (Hloop : problem o1 = problem o /\
                  Forall2 (evaluated_as (problem o1)) (population o1) evals /\
                  bookkeeping o1).
  { apply (for_each_result_inv _
      (fun o1 => problem o1 = problem o /\
                 Forall2 (evaluated_as (problem o1)) (population o1) evals /\
                 bookkeeping o1) _ _ _ Hupd); [done|].
    intros i oa ob Hstep (Hpb & Hev & Hbk).
    destruct (update_step_bookkeeping _ _ _ _ Hstep Hev Hbk) as (H1 & H2 & H3).
    split; [congruence|done]. }
  destruct Hloop as (Hpb & _ & Hbest & Hpop & Harch).
  split; [|done]. split; [done|]. split; [|done].
  cbn [set_population problem population global_best_score].
  apply (firefly_phase_pbest (pbest_kept (problem o1) (global_best_score o1))
           (pbest_kept_same _ _)) in Hff; [|done].
  apply (for_each_M_inv _ (Forall (pbest_kept (problem o1) (global_best_score o1)))
           _ _ _ _ _ Hmoves Hff).
  intros i popa ga popb gb Hstep Hall.
  by apply (move_step_pbest (pbest_kept (problem o1) (global_best_score o1))
              (pbest_kept_same _ _) _ _ _ _ _ _ Hstep).
Qed.

Lemma run_bookkeeping_inv o g res o' g' :
  run o g = Ok ((res, o'), g') ->
  bookkeeping o ->
  bookkeeping o' /\ problem o' = problem o /\
  res_archive res = archive o' /\ best_score res = global_best_score o' /\
  best_solution res = global_best o'.
Proof.
  intros Hrun Hinv. unfold run in Hrun.
  apply M_bind_inv in Hrun as ([o1 hist] & s1 & Hloop & Hrun).
  injection Hrun as <- <- _. simpl.
  cut (bookkeeping o1 /\ problem o1 = problem o); [by intros [? ?]|].
  apply (for_each_M_inv _ (fun st => bookkeeping (fst st) /\ problem (fst st) = problem o)
           _ _ _ _ _ Hloop); [done|].
  intros it [oa ha] ga [ob hb] gb Hgen [Hbk Hpb]. simpl in *.
  apply generation_bookkeeping in Hgen as [H1 H2]; [|done]. split; [done|congruence].
Qed.

End Bookkeeping.

Lemma for_each_result_last {X A} (body : X -> A -> result A) (Inv : A -> Prop) xs a a' :
  for_each xs body a = Ok a' ->
  (forall x a1 a2, body x a1 = Ok a2 -> Inv a2) ->
  xs ≠ [] -> Inv a'.
Proof.
  intros Hrun Hstep Hne. destruct xs as [|x xs]; [done|]. simpl in Hrun.
  apply result_bind_inv in Hrun as (a1 & Hb & Hrun).
  apply (for_each_result_inv _ Inv _ _ _ Hrun); [by eapply Hstep|].
  intros y a2 a3 Hy _. by eapply Hstep.
Qed.

(** A best solution has been recorded. *)
Lemma update_step_found evals i o o' :
  update_step evals i o = Ok o' -> global_best_score o' ≠ Inf /\ archive o' ≠ [].
Proof.
  unfold update_step. intros Hrun.
  apply result_bind_inv in Hrun as (part & _ & Hrun).
  apply result_bind_inv in Hrun as (m & _ & Hrun).
  injection Hrun as <-. simpl. split; [|apply archive_update_nonempty].
  unfold update_gbest. destruct (lt_score _ _) eqn:Hlt; simpl; [done|].
  intros Hinf. rewrite Hinf in Hlt. done.
Qed.

(** ** A bound on the fitness *)

Lemma Qsum_bounded {X} (f : X -> Q) (l : list X) (b : Q) :
  (forall x, x ∈ l -> (0 <= f x <= b)%Q) ->
  (0 <= Qsum (map f l) <= Qnat (length l) * b)%Q.
Proof.
  induction l as [|x l IH]; intros Hf.
  - cbn [map Qsum foldr length]. change (Qnat 0) with 0%Q. lra.
  - destruct IH as [H0 H1]; [intros y Hy; apply Hf; by right|].
    destruct (Hf x ltac:(left)) as [Hx0 Hx1].
    cbn [map Qsum foldr length]. fold (Qsum (map f l)). rewrite Qnat_S. lra.
Qed.

Lemma py_index_elem {A} (l : list A) i x : py_index l i = Ok x -> x ∈ l.
Proof.
  unfold py_index. destruct (_ && _).
  - intros H%np_get_inv. by eapply list_elem_of_lookup_2.
  - destruct (_ && _); [|done]. intros H%np_get_inv. by eapply list_elem_of_lookup_2.
Qed.

Lemma load_bounded pb B res assign_dev p :
  (forall e, (e < E pb)%nat -> (0 <= res (demands pb e) <= B)%Q) -> (0 <= B)%Q ->
  (0 <= load pb res assign_dev p <= Qnat (E pb) * B)%Q.
Proof.
  intros Hres HB. unfold load.
  pose proof (Qsum_bounded
    (fun e => if assigned_to assign_dev e p then res (demands pb e) else 0%Q)
    (range (E pb)) B) as Hsum.
  unfold range in *. rewrite length_seq in Hsum. apply Hsum.
  intros e He. apply elem_of_seq in He.
  destruct (assigned_to assign_dev e p); [apply Hres; lia|lra].
Qed.

Lemma overage_bounded ld cap : (0 <= cap)%Q -> (0 <= ld)%Q -> (overage ld cap <= 10000 * ld)%Q.
Proof.
  intros Hcap Hld. unfold overage. destruct (Qltb _ _); lra.
Qed.

Lemma Qnat_le n m : (n <= m)%nat -> (Qnat n <= Qnat m)%Q.
Proof. intros H. unfold Qnat. rewrite <- Zle_Qle. lia. Qed.

(** On a bounded instance the fitness of a solution of the data model is
    between 0 and the bound. *)
Lemma evaluate_bounded pb B place_loc assign_dev m :
  bounded_instance pb B ->
  valid_placement pb place_loc -> length assign_dev = E pb ->
  evaluate pb place_loc assign_dev default_penalty_coeff = Ok m ->
  (0 <= fitness m <= fitness_bound pb B)%Q.
Proof.
  intros (HB & Hcost & Hdist & Hdem & Hcap) Hv Hlen Hrun.
  pose proof (evaluate_terms pb place_loc assign_dev default_penalty_coeff Hv Hlen) as Hwp.
  apply wpr_ok in Hwp as (m' & Hrun' & Hc & Hl & Hp & Hf).
  rewrite Hrun in Hrun'. injection Hrun' as <-.
  assert (Hplace : (0 <= Qsum (map (placement_term pb place_loc) (range (P pb)))
                    <= Qnat (P pb) * B)%Q).
  { pose proof (Qsum_bounded (placement_term pb place_loc) (range (P pb)) B) as Hsum.
    unfold range in *. rewrite length_seq in Hsum. apply Hsum.
    intros p Hp'. apply elem_of_seq in Hp'. unfold placement_term.
    destruct (valid_placement_lookup pb place_loc p Hv ltac:(lia)) as (c & -> & _ & Hcr).
    destruct (0 <? c) eqn:Hpos; [|lra]. apply Z.ltb_lt in Hpos.
    apply Hcost; lia. }
  assert (Hlatency : (0 <= total_latency pb assign_dev
                      <= Qnat (E pb) * (B + 1000000))%Q).
  { unfold total_latency.
    pose proof (Qsum_bounded (latency_term pb assign_dev) (range (E pb)) (B + 1000000))
      as Hsum.
    unfold range in *. rewrite length_seq in Hsum. apply Hsum.
    intros e He. apply elem_of_seq in He. unfold latency_term.
    destruct (assign_dev !! e) as [q|]; [|lra].
    destruct (out_of_range pb q) eqn:Hq; [lra|].
    apply out_of_range_false in Hq.
    destruct (Hdist e (Z.to_nat q)) as [H0 H1]; [lia|lia|]. lra. }
  assert (Hunc : (0 <= Qnat (uncovered_count pb place_loc assign_dev) <= Qnat (E pb))%Q).
  { split; [apply Qnat_nonneg|]. apply Qnat_le. unfold uncovered_count.
    etrans; [apply List.filter_length_le|]. unfold range. by rewrite length_seq. }
  assert (Hcaps : (0 <= Qsum (map (capacity_term pb place_loc assign_dev) (range (P pb)))
                   <= Qnat (P pb) * (1000000 + 30000 * (Qnat (E pb) * B)))%Q).
  { pose proof (Qsum_bounded (capacity_term pb place_loc assign_dev) (range (P pb))
                  (1000000 + 30000 * (Qnat (E pb) * B))) as Hsum.
    unfold range in *. rewrite length_seq in Hsum. apply Hsum.
    intros p Hp'. split; [apply capacity_term_nonneg|].
    pose proof (load_bounded pb B cpu assign_dev p (fun e He => proj1 (Hdem e He)) HB) as Hcpu.
    pose proof (load_bounded pb B mem assign_dev p
                  (fun e He => proj1 (proj2 (Hdem e He))) HB) as Hmem.
    pose proof (load_bounded pb B sto assign_dev p
                  (fun e He => proj2 (proj2 (Hdem e He))) HB) as Hsto.
    assert (HEB : (0 <= Qnat (E pb) * B)%Q) by lra.
    unfold capacity_term. destruct (place_loc !! p) as [c|]; [|lra].
    destruct (c =? 0); [destruct (loaded _ _ _); lra|].
    destruct (py_index (cloudlet_types pb) (c - 1)) as [t|] eqn:Ht; [|lra].
    apply py_index_elem in Ht. rewrite Forall_forall in Hcap.
    destruct (Hcap t Ht) as (H1 & H2 & H3).
    pose proof (overage_bounded (load pb cpu assign_dev p) (CPU t) H1 ltac:(lra)).
    pose proof (overage_bounded (load pb mem assign_dev p) (MEM t) H2 ltac:(lra)).
    pose proof (overage_bounded (load pb sto assign_dev p) (STO t) H3 ltac:(lra)).
    lra. }
  rewrite Hf. unfold fitness_bound, w_cost, w_lat, default_penalty_coeff.
  rewrite Hp, Hc, Hl. lra.
Qed.

Section Found.
Context {RS : RandomSource}.

Lemma generation_found it o hist g o' hist' g' :
  generation it (o, hist) g = Ok ((o', hist'), g') ->
  population o ≠ [] \/ (global_best_score o ≠ Inf /\ archive o ≠ []) ->
  global_best_score o' ≠ Inf /\ archive o' ≠ [].
Proof.
  unfold generation. simpl fst; simpl snd. intros Hrun Hinv.
  apply M_bind_inv in Hrun as (evals & s1 & _ & Hrun).
  apply M_bind_inv in Hrun as (o1 & s2 & Hupd & Hrun).
  apply lift_result_inv in Hupd as [Hupd _].
  apply M_bind_inv in Hrun as (pop1 & s3 & _ & Hrun).
  apply M_bind_inv in Hrun as (pop2 & s4 & _ & Hrun).
  injection Hrun as <- _ _. simpl.
  destruct Hinv as [Hne|Hfound].
  - apply (for_each_result_last _ (fun o1 => global_best_score o1 ≠ Inf /\ archive o1 ≠ [])
             _ _ _ Hupd).
    + intros i oa ob Hstep. by eapply update_step_found.
    + unfold range. destruct (population o); [done|]. simpl. done.
  - apply (for_each_result_inv _ (fun o1 => global_best_score o1 ≠ Inf /\ archive o1 ≠ [])
             _ _ _ Hupd Hfound).
    intros i oa ob Hstep _. by eapply update_step_found.
Qed.

Lemma run_found o g res o' g' :
  run o g = Ok ((res, o'), g') ->
  population o ≠ [] -> 1 <= max_iter o ->
  global_best_score o' ≠ Inf /\ archive o' ≠ [].
Proof.
  intros Hrun Hne Hiter. unfold run in Hrun.
  apply M_bind_inv in Hrun as ([o1 hist] & s1 & Hloop & Hrun).
  injection Hrun as _ <- _. simpl.
  destruct (Z.to_nat (max_iter o)) as [|n] eqn:Hn; [lia|].
  unfold range in Hloop. cbn [seq for_each] in Hloop.
  apply M_bind_inv in Hloop as ([oa ha] & ga & Hgen & Hloop).
  apply generation_found in Hgen; [|by left].
  apply (for_each_M_inv _ (fun st => global_best_score (fst st) ≠ Inf /\ archive (fst st) ≠ [])
           _ _ _ _ _ Hloop Hgen).
  intros it [ob hb] gb [oc hc] gc Hgen' Hfound. simpl in *.
  eapply generation_found; [exact Hgen'|by right].
Qed.

Lemma init_loop_fresh pb n : forall k acc g pop g',
  for_each (seq k n) (init_step pb) acc g = Ok (pop, g') ->
  length pop = (length acc + n)%nat /\
  (Forall (fun part => pbest_score part = Inf) acc ->
   Forall (fun part => pbest_score part = Inf) pop).
Proof.
  induction n as [|n IH]; intros k acc g pop g' Hrun; simpl in Hrun.
  - injection Hrun as <- _. split; [lia|done].
  - apply M_bind_inv in Hrun as (acc' & g1 & Hstep & Hrun).
    unfold init_step in Hstep.
    apply M_bind_inv in Hstep as (sol & g2 & _ & Hstep). injection Hstep as <- _.
    apply IH in Hrun as [Hlen Hall]. rewrite length_app in Hlen. simpl in Hlen.
    split; [lia|]. intros Hacc. apply Hall. apply Forall_app. split; [done|].
    by repeat constructor.
Qed.

(** What the constructor leaves: no best solution, an empty archive and
    [pop_size] particles that have never been scored. *)
Lemma HybridFFPSO_init_fresh pb pop_size iters seed o g :
  HybridFFPSO_init pb pop_size iters seed = Ok (o, g) ->
  problem o = pb /\ max_iter o = iters /\
  global_best o = None /\ global_best_score o = Inf /\ archive o = [] /\
  length (population o) = Z.to_nat pop_size /\
  Forall (fun part => pbest_score part = Inf) (population o).
Proof.
  unfold HybridFFPSO_init. intros Hrun.
  apply result_bind_inv in Hrun as (g0 & _ & Hrun).
  apply result_bind_inv in Hrun as ([pop g1] & Hloop & Hrun).
  injection Hrun as <- <-. simpl.
  apply init_loop_fresh in Hloop as [Hlen Hall]. simpl in Hlen.
  repeat split; try done. by apply Hall.
Qed.

Lemma fresh_bookkeeping o :
  global_best o = None -> global_best_score o = Inf -> archive o = [] ->
  Forall (fun part => pbest_score part = Inf) (population o) ->
  bookkeeping o.
Proof.
  intros Hgb Hs Ha Hpop. unfold bookkeeping. rewrite Hgb, Hs, Ha.
  split; [done|]. split; [|constructor].
  eapply Forall_impl; [exact Hpop|]. intros part Hinf.
  split; [by left|]. by rewrite Hinf.
Qed.

(** In a run that starts with the books in order, the best score
    returned is the fitness [evaluate] gives to the best solution returned
    (or there is none and the score is [np.inf]), every archive entry
    carries the metrics of its own vectors, and the best score is not above
    the best-so-far score of any particle. *)
Theorem run_keeps_books o g :
  optimizer_ok o -> bookkeeping o ->
  exists res o' g',
    run o g = Ok ((res, o'), g') /\
    best_evaluated (problem o) (best_solution res) (best_score res) /\
    Forall (entry_evaluated (problem o)) (res_archive res) /\
    Forall (pbest_kept (problem o) (best_score res)) (population o').
Proof.
  intros Hok Hbk. destruct (run_returns o g Hok) as (res & o' & g' & Hrun).
  exists res, o', g'. split; [done|].
  destruct (run_bookkeeping_inv _ _ _ _ _ Hrun Hbk)
    as ((Hbest & Hpop & Harch) & Hpb & -> & -> & ->).
  rewrite <- Hpb. done.
Qed.

Lemma run_keeps_ok o g res o' g' :
  optimizer_ok o -> run o g = Ok ((res, o'), g') -> optimizer_ok o'.
Proof.
  intros Hok Hrun.
  assert (Hwp : wp (run o) (fun r _ => optimizer_ok (snd r)) g).
  { unfold run. apply wp_bind. eapply wp_mono.
    - apply (wp_for_each _
        (fun _ (st : HybridFFPSO * list score) _ => optimizer_ok (fst st))); [done|].
      intros done it [o1 hist] g1 _ Hok1. simpl in Hok1.
      eapply wp_mono; [by apply generation_returns|]. intros st g2 [Hok2 _]. done.
    - intros st g1 Hst. by apply wp_ret. }
  exact (wp_inv _ _ _ _ _ Hwp Hrun).
Qed.

(** On an instance whose costs, distances, demands and capacities are not
    negative and small enough for the fitness bound to be a float64, a run
    of at least one generation over a population that is not empty returns
    a best solution, with a finite score between 0 and the bound, and an
    archive that is not empty. *)
Theorem run_finds_solution o g B :
  bounded_instance (problem o) B ->
  (fitness_bound (problem o) B <= float_bound)%Q ->
  optimizer_ok o -> bookkeeping o -> population o ≠ [] -> 1 <= max_iter o ->
  exists res o' g' sol f,
    run o g = Ok ((res, o'), g') /\
    best_solution res = Some sol /\ best_score res = Fin f /\
    (0 <= f <= fitness_bound (problem o) B)%Q /\ (f <= float_bound)%Q /\
    res_archive res ≠ [].
Proof.
  intros Hbounded Hfloat Hok Hbk Hne Hiter.
  destruct (run_returns o g Hok) as (res & o' & g' & Hrun).
  destruct (run_bookkeeping_inv _ _ _ _ _ Hrun Hbk)
    as ((Hbest & _ & _) & Hpb & Ha & Hs & Hb).
  destruct (run_found _ _ _ _ _ Hrun Hne Hiter) as [Hfin Harch].
  pose proof (run_keeps_ok _ _ _ _ _ Hok Hrun) as (_ & _ & _ & Hbok).
  destruct (global_best o') as [sol|] eqn:Hgb; [|done].
  destruct (global_best_score o') as [f|] eqn:Hscore; [|done].
  destruct Hbest as (m & Heval & [= ->]). destruct Hbok as [Hv Hl].
  rewrite Hpb in Heval, Hv, Hl.
  pose proof (evaluate_bounded _ _ _ _ _ Hbounded Hv Hl Heval) as [H0 H1].
  exists res, o', g', sol, (fitness m). rewrite Ha, Hs, Hb.
  split; [done|]. split; [done|]. split; [done|]. split; [done|].
  split; [|done]. by eapply Qle_trans.
Qed.

(** [run_simple_experiment] on an instance with at least one location and
    one cloudlet type: the constructor and the run return; the archive has
    no dominated entry and each entry carries the metrics of its vectors;
    the history has one score per generation, never increases, and ends
    with the best score, which is the fitness of the best solution when
    there is one; with at least one particle and one generation the archive
    is not empty. *)
Theorem run_simple_experiment_result pb pop_size iters :
  (1 <= P pb)%nat -> (1 <= T pb)%nat ->
  exists res o g,
    run_simple_experiment pb pop_size iters = Ok ((res, o), g) /\
    nondominated (res_archive res) /\
    Forall (entry_evaluated pb) (res_archive res) /\
    length (history res) = Z.to_nat iters /\
    nonincreasing (history res) /\
    last (Inf :: history res) = Some (best_score res) /\
    best_evaluated pb (best_solution res) (best_score res) /\
    (1 <= pop_size -> 1 <= iters -> res_archive res ≠ []).
Proof.
  intros HP HT. unfold run_simple_experiment.
  destruct (HybridFFPSO_init_returns pb pop_size iters default_seed HP HT default_seed_valid)
    as (o & g & Hinit & Hok & _ & _).
  rewrite Hinit. simpl.
  destruct (HybridFFPSO_init_fresh _ _ _ _ _ _ Hinit)
    as (Hpb & Hmax & Hgb & Hscore & Harch & Hlen & Hfresh).
  pose proof (fresh_bookkeeping o Hgb Hscore Harch Hfresh) as Hbk.
  destruct (run_returns o g Hok) as (res & o' & g' & Hrun).
  exists res, o', g'. split; [done|].
  destruct (run_history _ _ _ _ _ Hrun) as (Hmono & Hhist & Hlast).
  destruct (run_bookkeeping_inv _ _ _ _ _ Hrun Hbk)
    as ((Hbest & _ & Hentries) & Hpb' & Ha & Hs & Hb).
  rewrite Hscore in Hmono, Hlast. rewrite Hmax in Hhist.
  split; [eapply run_archive; [done|]; rewrite Harch; intros x y Hx; by apply elem_of_nil in Hx|].
  split; [rewrite Ha, <- Hpb, <- Hpb'; done|].
  split; [done|].
  split; [intros i a b Ha' Hb'; by apply (Hmono (S i))|].
  split; [done|].
  split; [rewrite Hb, Hs, <- Hpb, <- Hpb'; done|].
  intros Hpop Hiter.
  destruct (run_found _ _ _ _ _ Hrun) as [Hfin Hne].
  - intros Hnil. rewrite Hnil in Hlen. simpl in Hlen. lia.
  - lia.
  - by rewrite Ha.
Qed.

End Found.

Lemma run_keeps_books_witness :
  exists res o' g',
    run (RS := script_source) two_fireflies [3; 1; 4]%nat = Ok ((res, o'), g') /\
    best_evaluated two_sites (best_solution res) (best_score res) /\
    Forall (entry_evaluated two_sites) (res_archive res) /\
    Forall (pbest_kept two_sites (best_score res)) (population o').
Proof.
  apply (run_keeps_books (RS := script_source) two_fireflies [3; 1; 4]%nat).
  - split; [simpl; lia|]. split; [unfold T; simpl; lia|]. split; [|exact I].
    repeat constructor; vm_compute; discriminate.
  - split; [reflexivity|]. split; [|constructor].
    repeat constructor; by left.
Defined.

Lemma two_sites_bounded : bounded_instance two_sites 10.
Proof.
  split; [lra|]. split; [|split; [|split]].
  - intros c [|p] _ _; simpl; lra.
  - intros e [|p] _ _; simpl; lra.
  - intros e _. simpl. lra.
  - repeat constructor; simpl; lra.
Qed.

Lemma run_finds_solution_witness :
  exists res o' g' sol f,
    run (RS := script_source) two_fireflies [3; 1; 4]%nat = Ok ((res, o'), g') /\
    best_solution res = Some sol /\ best_score res = Fin f /\
    (0 <= f <= fitness_bound two_sites 10)%Q /\ (f <= float_bound)%Q /\
    res_archive res ≠ [].
Proof.
  apply (run_finds_solution (RS := script_source) two_fireflies [3; 1; 4]%nat 10).
  - exact two_sites_bounded.
  - vm_compute. discriminate.
  - split; [simpl; lia|]. split; [unfold T; simpl; lia|]. split; [|exact I].
    repeat constructor; vm_compute; discriminate.
  - split; [reflexivity|]. split; [|constructor].
    repeat constructor; by left.
  - discriminate.
  - simpl. lia.
Defined.

Lemma run_simple_experiment_result_witness :
  exists res o g,
    run_simple_experiment (RS := script_source) two_sites 3 4 = Ok ((res, o), g) /\
    nondominated (res_archive res) /\
    Forall (entry_evaluated two_sites) (res_archive res) /\
    length (history res) = Z.to_nat 4 /\
    nonincreasing (history res) /\
    last (Inf :: history res) = Some (best_score res) /\
    best_evaluated two_sites (best_solution res) (best_score res) /\
    (1 <= 3 -> 1 <= 4 -> res_archive res ≠ []).
Proof.
  apply (run_simple_experiment_result (RS := script_source) two_sites 3 4).
  - simpl. lia.
  - unfold T. simpl. lia.
Defined.

(** * Solutions of the data model *)

Lemma update_step_in_model evals i o o' :
  update_step evals i o = Ok o' ->
  Forall (particle_in_model (problem o)) (population o) ->
  best_in_model (problem o) (global_best o) ->
  Forall (entry_in_model (problem o)) (archive o) ->
  problem o' = problem o /\
  Forall (particle_in_model (problem o')) (population o') /\
  best_in_model (problem o') (global_best o') /\
  Forall (entry_in_model (problem o')) (archive o').
Proof.
  unfold update_step. intros Hrun Hpop Hbest Harch.
  apply result_bind_inv in Hrun as (part & Hpart & Hrun).
  apply result_bind_inv in Hrun as (m & _ & Hrun).
  apply np_get_inv in Hpart. injection Hrun as <-.
  cbn [problem population global_best archive].
  assert (Hin : particle_in_model (problem o) part).
  { rewrite Forall_forall in Hpop. apply Hpop. by eapply list_elem_of_lookup_2. }
  split; [done|]. split; [|split].
  - apply Forall_insert; [done|]. unfold update_pbest, particle_in_model in *.
    by destruct (lt_score _ (pbest_score part)).
  - unfold update_gbest. by destruct (lt_score _ (global_best_score o)).
  - by apply archive_update_Forall.
Qed.

Section InModel.
Context {RS : RandomSource}.

Lemma move_loop_repairs o pop g :
  optimizer_ok o -> Forall (particle_ok (problem o)) pop ->
  wp (for_each (range (length pop)) (move_step o) pop)
     (fun pop' _ => Forall (particle_in_model (problem o)) pop') g.
Proof.
  intros Hok Hpop. pose proof Hok as (HP & HT & _).
  eapply wp_mono.
  - apply (wp_for_each_prefix _ (fun done pop' _ =>
      Forall (particle_ok (problem o)) pop' /\ length pop' = length pop /\
      forall i part, (i < length done)%nat -> pop' !! i = Some part ->
                     particle_in_model (problem o) part)).
    { split; [done|]. split; [done|]. intros i part Hi. simpl in Hi. lia. }
    intros done i todo pop1 g1 Hrange (Hpop1 & Hlen1 & Hdone).
    assert (Hi : (i < length pop)%nat).
    { apply elem_of_range. rewrite Hrange. apply elem_of_app. right. left. }
    apply range_prefix in Hrange as ->.
    destruct (np_get_lt pop1 (length done) ltac:(lia)) as (part & Hpart & Hget).
    unfold move_step. apply wp_bind. apply wp_lift. rewrite Hget. simpl.
    assert (Hpok : particle_ok (problem o) part).
    { rewrite Forall_forall in Hpop1. apply Hpop1. by apply list_elem_of_lookup_2 in Hpart. }
    apply wp_bind. eapply wp_mono; [by apply local_pso_move_returns|].
    intros part1 g2 Hp1. simpl in Hp1.
    apply wp_bind. eapply wp_mono; [by apply mutate_returns|].
    intros part2 g3 (Hv & Hl & Hv' & Hl'). simpl in *.
    destruct (repair_solution_values_range (problem o) (place_loc part2) (assign_dev part2)
                g3 HP Hv Hl) as (pl & ad & g4 & Hrep & Hpl & Had).
    apply wp_bind. unfold wp at 1. rewrite Hrep. simpl. apply wp_ret.
    split; [|split; [by rewrite length_insert|]].
    + apply Forall_insert; [done|]. split; [done|]. split; [by destruct Had|]. done.
    + intros j partj Hj Hlook. rewrite length_app in Hj. simpl in Hj.
      destruct (decide (j = length done)) as [->|Hne].
      * rewrite list_lookup_insert_eq in Hlook by lia. injection Hlook as <-. done.
      * rewrite list_lookup_insert_ne in Hlook by done. apply (Hdone j); [lia|done].
  - intros pop' g' (_ & Hlen & Hdone). apply Forall_forall. intros part Hpart.
    apply list_elem_of_lookup in Hpart as [i Hi]. apply (Hdone i); [|done].
    apply lookup_lt_Some in Hi. unfold range. rewrite length_seq. lia.
Qed.

Lemma generation_repairs it o hist g :
  optimizer_ok o ->
  wp (generation it (o, hist))
     (fun st _ => Forall (particle_in_model (problem o)) (population (fst st))) g.
Proof.
  intros Hok. pose proof Hok as (HP & HT & Hpop & Hbest).
  unfold generation. simpl fst; simpl snd.
  apply wp_bind. apply wp_lift. eapply wpr_mono; [by apply evaluate_population_returns|].
  intros evals Hlen.
  apply wp_bind. apply wp_lift. eapply wpr_mono; [by apply update_loop_returns|].
  intros o1 (Hok1 & Hpb & Hmax & Hn).
  pose proof Hok1 as (HP1 & HT1 & Hpop1 & Hbest1).
  apply wp_bind. eapply wp_mono; [by apply firefly_phase_returns|].
  intros pop2 g2 [Hpop2 Hlen2]. simpl in *.
  apply wp_bind. eapply wp_mono; [by apply move_loop_repairs|].
  intros pop3 g3 Hpop3. simpl in *.
  apply wp_ret. simpl. by rewrite <- Hpb.
Qed.

Lemma generation_in_model it o hist g o' hist' g' :
  generation it (o, hist) g = Ok ((o', hist'), g') ->
  optimizer_ok o ->
  Forall (particle_in_model (problem o)) (population o) ->
  best_in_model (problem o) (global_best o) ->
  Forall (entry_in_model (problem o)) (archive o) ->
  problem o' = problem o /\ optimizer_ok o' /\
  Forall (particle_in_model (problem o')) (population o') /\
  best_in_model (problem o') (global_best o') /\
  Forall (entry_in_model (problem o')) (archive o').
Proof.
  intros Hrun Hok Hpop Hbest Harch.
  pose proof (wp_inv _ _ _ _ _ (generation_repairs it o hist g Hok) Hrun) as Hrep.
  pose proof (wp_inv _ _ _ _ _ (generation_returns it o hist g Hok) Hrun) as [Hok' _].
  simpl in Hrep, Hok'.
  unfold generation in Hrun. simpl fst in Hrun; simpl snd in Hrun.
  apply M_bind_inv in Hrun as (evals & s1 & _ & Hrun).
  apply M_bind_inv in Hrun as (o1 & s2 & Hupd & Hrun).
  apply lift_result_inv in Hupd as [Hupd _].
  apply M_bind_inv in Hrun as (pop1 & s3 & _ & Hrun).
  apply M_bind_inv in Hrun as (pop2 & s4 & _ & Hrun).
  injection Hrun as <- _ _.
  assert (Hloop : problem o1 = problem o /\
                  Forall (particle_in_model (problem o1)) (population o1) /\
                  best_in_model (problem o1) (global_best o1) /\
                  Forall (entry_in_model (problem o1)) (archive o1)).
  { apply (for_each_result_inv _
      (fun o1 => problem o1 = problem o /\
                 Forall (particle_in_model (problem o1)) (population o1) /\
                 best_in_model (problem o1) (global_best o1) /\
                 Forall (entry_in_model (problem o1)) (archive o1)) _ _ _ Hupd); [done|].
    intros i oa ob Hstep (Hpb & H1 & H2 & H3).
    destruct (update_step_in_model _ _ _ _ Hstep H1 H2 H3) as (H4 & H5).
    split; [congruence|done]. }
  destruct Hloop as (Hpb & _ & Hbest1 & Harch1).
  cbn [set_population problem population global_best archive] in *.
  split; [done|]. split; [done|]. split; [by rewrite Hpb|]. done.
Qed.

Lemma run_in_model o g res o' g' :
  run o g = Ok ((res, o'), g') ->
  optimizer_ok o ->
  Forall (particle_in_model (problem o)) (population o) ->
  best_in_model (problem o) (global_best o) ->
  Forall (entry_in_model (problem o)) (archive o) ->
  Forall (particle_in_model (problem o)) (population o') /\
  best_in_model (problem o) (best_solution res) /\
  Forall (entry_in_model (problem o)) (res_archive res).
Proof.
  intros Hrun Hok Hpop Hbest Harch. unfold run in Hrun.
  apply M_bind_inv in Hrun as ([o1 hist] & s1 & Hloop & Hrun).
  injection Hrun as <- <- _. simpl.
  cut (problem o1 = problem o /\ optimizer_ok o1 /\
       Forall (particle_in_model (problem o1)) (population o1) /\
       best_in_model (problem o1) (global_best o1) /\
       Forall (entry_in_model (problem o1)) (archive o1)).
  { intros (Hpb & _ & H1 & H2 & H3). rewrite <- Hpb. done. }
  apply (for_each_M_inv _
    (fun st => problem (fst st) = problem o /\ optimizer_ok (fst st) /\
               Forall (particle_in_model (problem (fst st))) (population (fst st)) /\
               best_in_model (problem (fst st)) (global_best (fst st)) /\
               Forall (entry_in_model (problem (fst st))) (archive (fst st)))
    _ _ _ _ _ Hloop); [done|].
  intros it [oa ha] ga [ob hb] gb Hgen (Hpb & Hoka & H1 & H2 & H3). simpl in *.
  destruct (generation_in_model _ _ _ _ _ _ _ Hgen Hoka H1 H2 H3) as (H4 & H5).
  split; [congruence|done].
Qed.

Lemma init_loop_population pb n g :
  (1 <= P pb)%nat -> (1 <= T pb)%nat ->
  wp (for_each (range n) (init_step pb) [])
     (fun pop _ => length pop = n /\
        Forall (fun part => particle_in_model pb part /\ fresh_particle part) pop) g.
Proof.
  intros HP HT. eapply wp_mono.
  - apply (wp_for_each _ (fun done pop _ => length pop = length done /\
      Forall (fun part => particle_in_model pb part /\ fresh_particle part) pop)); [done|].
    intros done i pop g1 _ [Hlen Hpop]. unfold init_step.
    apply wp_bind. eapply wp_mono; [by apply random_solution_returns|].
    intros [pl ad] g2 (Hpl & _ & Had). simpl in *. apply wp_ret.
    split; [rewrite !length_app; simpl; lia|].
    apply Forall_app. split; [done|]. constructor; [|constructor]. by split.
  - intros pop g' [Hlen Hpop]. unfold range in Hlen. rewrite length_seq in Hlen. done.
Qed.

(** After a generation every particle holds a solution of the data model,
    with every assignment in [0,P): the last thing a generation does to a
    particle is to repair it. *)
Theorem generation_leaves_solutions it o hist g :
  optimizer_ok o ->
  exists o' hist' g',
    generation it (o, hist) g = Ok ((o', hist'), g') /\
    length (population o') = length (population o) /\
    Forall (particle_in_model (problem o)) (population o').
Proof.
  intros Hok. pose proof (generation_repairs it o hist g Hok) as Hwp.
  apply wp_ok in Hwp as ([o' hist'] & g' & Hrun & Hrep). simpl in Hrep.
  exists o', hist', g'. split; [done|]. split; [|done].
  pose proof Hok as (HP & HT & Hpop & Hbest).
  pose proof Hrun as Hrun'.
  unfold generation in Hrun'. simpl fst in Hrun'; simpl snd in Hrun'.
  apply M_bind_inv in Hrun' as (evals & s1 & Hev & Hrun').
  apply lift_result_inv in Hev as [Hev _].
  pose proof (evaluate_population_returns o Hpop) as Hlen.
  apply wpr_ok in Hlen as (evals0 & Hev0 & Hlen). rewrite Hev in Hev0.
  injection Hev0 as <-.
  apply M_bind_inv in Hrun' as (o1 & s2 & Hupd & Hrun').
  apply lift_result_inv in Hupd as [Hupd _].
  pose proof (update_loop_returns evals o Hok Hlen) as Hwp1.
  apply wpr_ok in Hwp1 as (o1' & Hupd' & Hok1 & Hpb & _ & Hn).
  rewrite Hupd in Hupd'. injection Hupd' as <-.
  apply M_bind_inv in Hrun' as (pop1 & s3 & Hff & Hrun').
  pose proof (wp_inv _ _ _ _ _
    (firefly_phase_returns (problem o1) evals (population o1) s2 (proj1 (proj2 (proj2 Hok1))))
    Hff) as [Hpop1 Hlen1].
  apply M_bind_inv in Hrun' as (pop2 & s4 & Hmv & Hrun').
  pose proof (wp_inv _ _ _ _ _ (move_loop_returns o1 pop1 s3 Hok1 Hpop1) Hmv) as [_ Hlen2].
  injection Hrun' as <- _ _. simpl. lia.
Qed.

(** The constructor, on an instance with at least one location and one
    cloudlet type and with a seed of [0, 2^32 - 1]: [pop_size] particles
    (none when it is negative), each holding a solution of the data model
    that is also its best-so-far snapshot, without a score; no best
    solution; an empty archive.  With any other seed it raises the
    [ValueError] of [np.random.seed], whatever the instance. *)
Theorem HybridFFPSO_init_population pb pop_size iters seed :
  (valid_seed seed ->
   (1 <= P pb)%nat -> (1 <= T pb)%nat ->
   exists o g,
     HybridFFPSO_init pb pop_size iters seed = Ok (o, g) /\
     length (population o) = Z.to_nat pop_size /\
     Forall (fun part => particle_in_model pb part /\ fresh_particle part) (population o) /\
     global_best o = None /\ global_best_score o = Inf /\ archive o = []) /\
  (~ valid_seed seed -> HybridFFPSO_init pb pop_size iters seed = Raise ValueError).
Proof.
  split.
  - intros Hseed HP HT. unfold HybridFFPSO_init.
    rewrite (seed_generators_ok seed Hseed). cbn [mbind result_bind].
    pose proof (init_loop_population pb (Z.to_nat pop_size) (seed_rng seed) HP HT) as Hwp.
    apply wp_ok in Hwp as (pop & g & -> & Hlen & Hpop).
    eexists _, _. split; [reflexivity|]. simpl. done.
  - intros Hseed. unfold HybridFFPSO_init.
    by rewrite (seed_generators_raise seed Hseed).
Qed.

(** [run_simple_experiment]: the best solution, every archive entry and
    every particle of the final population hold a placement vector with
    entries in {0..T} and an assignment vector with entries in [0,P). *)
Theorem run_simple_experiment_solutions pb pop_size iters :
  (1 <= P pb)%nat -> (1 <= T pb)%nat ->
  exists res o g,
    run_simple_experiment pb pop_size iters = Ok ((res, o), g) /\
    best_in_model pb (best_solution res) /\
    Forall (entry_in_model pb) (res_archive res) /\
    Forall (particle_in_model pb) (population o).
Proof.
  intros HP HT. unfold run_simple_experiment.
  destruct (HybridFFPSO_init_returns pb pop_size iters default_seed HP HT default_seed_valid)
    as (o & g & Hinit & Hok & _ & _).
  rewrite Hinit. simpl.
  destruct (HybridFFPSO_init_fresh _ _ _ _ _ _ Hinit)
    as (Hpb & _ & Hgb & _ & Harch & _ & _).
  assert (Hpop : Forall (particle_in_model (problem o)) (population o)).
  { unfold HybridFFPSO_init in Hinit.
    apply result_bind_inv in Hinit as (g0 & Hg0 & Hinit).
    apply seed_generators_inv in Hg0 as [_ ->].
    apply result_bind_inv in Hinit as ([pop g1] & Hloop & Hinit).
    injection Hinit as <- _. simpl.
    pose proof (wp_inv _ _ _ _ _
      (init_loop_population pb (Z.to_nat pop_size) (seed_rng default_seed) HP HT) Hloop)
      as [_ Hall].
    eapply Forall_impl; [exact Hall|]. by intros part [? _]. }
  destruct (run_returns o g Hok) as (res & o' & g' & Hrun).
  exists res, o', g'. split; [done|]. rewrite <- Hpb.
  destruct (run_in_model _ _ _ _ _ Hrun Hok Hpop) as (H1 & H2 & H3); [| |done].
  - by rewrite Hgb.
  - rewrite Harch. constructor.
Qed.

End InModel.

Lemma generation_leaves_solutions_witness :
  exists o' hist' g',
    generation (RS := script_source) 0 (two_fireflies, []) [3; 1; 4]%nat
      = Ok ((o', hist'), g') /\
    length (population o') = length (population two_fireflies) /\
    Forall (particle_in_model two_sites) (population o').
Proof.
  apply (generation_leaves_solutions (RS := script_source) 0 two_fireflies [] [3; 1; 4]%nat).
  split; [simpl; lia|]. split; [unfold T; simpl; lia|]. split; [|exact I].
  repeat constructor; vm_compute; discriminate.
Defined.

Lemma HybridFFPSO_init_population_witness :
  exists o g,
    HybridFFPSO_init (RS := script_source) two_sites 3 4 42 = Ok (o, g) /\
    length (population o) = Z.to_nat 3 /\
    Forall (fun part => particle_in_model two_sites part /\ fresh_particle part)
           (population o) /\
    global_best o = None /\ global_best_score o = Inf /\ archive o = [].
Proof.
  apply (proj1 (HybridFFPSO_init_population (RS := script_source) two_sites 3 4 42)).
  - unfold valid_seed. lia.
  - simpl. lia.
  - unfold T. simpl. lia.
Defined.

Lemma run_simple_experiment_solutions_witness :
  exists res o g,
    run_simple_experiment (RS := script_source) two_sites 3 4 = Ok ((res, o), g) /\
    best_in_model two_sites (best_solution res) /\
    Forall (entry_in_model two_sites) (res_archive res) /\
    Forall (particle_in_model two_sites) (population o).
Proof.
  apply (run_simple_experiment_solutions (RS := script_source) two_sites 3 4).
  - simpl. lia.
  - unfold T. simpl. lia.
Defined.

(** * [firefly_move], [mutate] and [evaluate_population] *)

Section Moves.
Context {RS : RandomSource}.

Lemma attract_slots prob : forall brighter mine g,
  length brighter = length mine ->
  length (fst (attract prob brighter mine g)) = length mine /\
  forall i c, fst (attract prob brighter mine g) !! i = Some c ->
              mine !! i = Some c \/ brighter !! i = Some c.
Proof.
  induction brighter as [|b bs IH]; intros [|c cs] g Hlen; simpl in Hlen; try lia.
  - split; [done|]. intros i c Hc. by left.
  - assert (Hlen' : length bs = length cs) by lia. simpl.
    destruct (b =? c) eqn:Hbc; simpl.
    + destruct (IH cs g Hlen') as [Hl Hs]. split; [by rewrite Hl|].
      intros [|i] x Hx; simpl in *; [by left|]. by apply Hs.
    + destruct (IH cs (snd (draw_random g)) Hlen') as [Hl Hs]. split; [by rewrite Hl|].
      intros [|i] x Hx; simpl in *; [|by apply Hs].
      destruct (Qltb _ _); [by right|by left].
Qed.

Lemma attract_same prob : forall mine g, attract prob mine mine g = (mine, g).
Proof.
  induction mine as [|c cs IH]; intros g; simpl; [done|].
  by rewrite Z.eqb_refl, IH.
Qed.

(** [firefly_move] on vectors of the right lengths: every slot of the
    moved particle holds the value it had or the value of the brighter
    particle at that slot, and the best-so-far snapshot is not touched. *)
Theorem firefly_move_slots pb part brighter_part g :
  length (place_loc part) = P pb -> length (assign_dev part) = E pb ->
  length (place_loc brighter_part) = P pb -> length (assign_dev brighter_part) = E pb ->
  exists part' g',
    firefly_move pb part brighter_part g = Ok (part', g') /\
    same_pbest part part' /\
    length (place_loc part') = P pb /\ length (assign_dev part') = E pb /\
    (forall p c, place_loc part' !! p = Some c ->
       place_loc part !! p = Some c \/ place_loc brighter_part !! p = Some c) /\
    (forall e q, assign_dev part' !! e = Some q ->
       assign_dev part !! e = Some q \/ assign_dev brighter_part !! e = Some q).
Proof.
  intros H1 H2 H3 H4.
  rewrite (firefly_move_attracts pb part brighter_part g H1 H2 H3 H4).
  unfold attract_particle. eexists _, _. split; [reflexivity|]. simpl.
  destruct (attract_slots (1 # 2) (place_loc brighter_part) (place_loc part) g
              ltac:(congruence)) as [Hl1 Hs1].
  destruct (attract_slots (4 # 10) (assign_dev brighter_part) (assign_dev part)
              (snd (attract (1 # 2) (place_loc brighter_part) (place_loc part) g))
              ltac:(congruence)) as [Hl2 Hs2].
  split; [done|]. split; [congruence|]. split; [congruence|]. done.
Qed.

(** A particle that already holds the vectors of the brighter one is
    returned as it is, and nothing is drawn. *)
Theorem firefly_move_same pb part brighter_part g :
  length (place_loc part) = P pb -> length (assign_dev part) = E pb ->
  place_loc brighter_part = place_loc part ->
  assign_dev brighter_part = assign_dev part ->
  firefly_move pb part brighter_part g = Ok (part, g).
Proof.
  intros H1 H2 H3 H4.
  rewrite (firefly_move_attracts pb part brighter_part g H1 H2) by congruence.
  unfold attract_particle. rewrite H3, H4, !attract_same. simpl. by destruct part.
Qed.

Lemma never_below r prob : (0 <= r)%Q -> (prob <= 0)%Q -> Qltb r prob = false.
Proof.
  intros Hr Hp. apply not_true_iff_false. rewrite Qltb_lt. lra.
Qed.

(** With probabilities that are not positive, [mutate] returns the
    particle as it is: no draw of [random.random()] is below them.  No
    slot is read, so this holds for vectors of any length. *)
Theorem mutate_nothing pb part pm_place pm_assign g :
  (pm_place <= 0)%Q -> (pm_assign <= 0)%Q ->
  exists g', mutate pb part pm_place pm_assign g = Ok (part, g').
Proof.
  intros Hpl Had.
  cut (wp (mutate pb part pm_place pm_assign) (fun part' _ => part' = part) g).
  { intros Hwp. apply wp_ok in Hwp as (part' & g' & Hrun & ->). by exists g'. }
  unfold mutate.
  apply wp_bind. eapply wp_mono.
  { apply (wp_for_each _ (fun _ pl _ => pl = place_loc part)); [done|].
    intros done p pl g1 _ ->. unfold mutate_place_step.
    apply wp_bind. apply wp_random_random_unit. intros r g2 [Hr _].
    rewrite never_below by done. by apply wp_ret. }
  intros pl g1 ->.
  apply wp_bind. eapply wp_mono.
  { apply (wp_for_each _ (fun _ ad _ => ad = assign_dev part)); [done|].
    intros done e ad g2 _ ->. unfold jump_slot.
    apply wp_bind. apply wp_random_random_unit. intros r g3 [Hr _].
    rewrite never_below by done. by apply wp_ret. }
  intros ad g2 ->. apply wp_ret. by destruct part.
Qed.

(** [evaluate_population] on particles of the data model returns one
    evaluation per particle, in the order of the population: the metrics of
    its current vectors. *)
Theorem evaluate_population_spec o :
  Forall (particle_ok (problem o)) (population o) ->
  exists evals,
    evaluate_population o = Ok evals /\
    Forall2 (evaluated_as (problem o)) (population o) evals.
Proof.
  intros Hpop. pose proof (evaluate_population_returns o Hpop) as Hwp.
  apply wpr_ok in Hwp as (evals & Hrun & _).
  exists evals. split; [done|]. by apply evaluate_population_inv.
Qed.

End Moves.

Lemma firefly_move_slots_witness :
  exists part' g',
    firefly_move (RS := script_source) two_sites
      (new_particle [1; 0] [0]) (new_particle [0; 1] [1]) [3; 1; 4]%nat = Ok (part', g') /\
    same_pbest (new_particle [1; 0] [0]) part' /\
    length (place_loc part') = P two_sites /\ length (assign_dev part') = E two_sites /\
    (forall p c, place_loc part' !! p = Some c ->
       ([1; 0] : list Z) !! p = Some c \/ ([0; 1] : list Z) !! p = Some c) /\
    (forall e q, assign_dev part' !! e = Some q ->
       ([0] : list Z) !! e = Some q \/ ([1] : list Z) !! e = Some q).
Proof.
  apply (firefly_move_slots (RS := script_source) two_sites
           (new_particle [1; 0] [0]) (new_particle [0; 1] [1]) [3; 1; 4]%nat);
    reflexivity.
Defined.

Lemma firefly_move_same_witness :
  firefly_move (RS := script_source) two_sites
    (new_particle [1; 0] [0]) (new_particle [1; 0] [0]) [3; 1; 4]%nat
  = Ok (new_particle [1; 0] [0], [3; 1; 4]%nat).
Proof.
  apply (firefly_move_same (RS := script_source) two_sites
           (new_particle [1; 0] [0]) (new_particle [1; 0] [0]) [3; 1; 4]%nat);
    reflexivity.
Defined.

Lemma mutate_nothing_witness :
  exists g',
    mutate (RS := script_source) two_sites (new_particle [1; 0] [0]) 0 0 [3; 1; 4]%nat
    = Ok (new_particle [1; 0] [0], g').
Proof.
  apply (mutate_nothing (RS := script_source) two_sites (new_particle [1; 0] [0]) 0 0
           [3; 1; 4]%nat).
  - vm_compute. discriminate.
  - vm_compute. discriminate.
Defined.

Lemma evaluate_population_spec_witness :
  exists evals,
    evaluate_population two_fireflies = Ok evals /\
    Forall2 (evaluated_as two_sites) (population two_fireflies) evals.
Proof.
  apply (evaluate_population_spec two_fireflies).
  repeat constructor; vm_compute; discriminate.
Defined.

Section PsoMove.
Context {RS : RandomSource}.

Lemma wp_jump_slot_range pb prob e ad g :
  (1 <= P pb)%nat -> (e < length ad)%nat ->
  Forall (fun p => 0 <= p < Z.of_nat (P pb)) ad ->
  wp (jump_slot pb prob e ad)
     (fun l _ => Forall (fun p => 0 <= p < Z.of_nat (P pb)) l /\ length l = length ad) g.
Proof.
  intros HP He Had. unfold jump_slot.
  apply wp_bind. apply wp_random_random. intros r g'.
  destruct (Qltb r prob); [|by apply wp_ret].
  apply wp_bind. apply wp_random_randint; [lia|]. intros p g'' Hp.
  apply wp_lift. rewrite np_set_ok by done. simpl.
  split; [|by rewrite length_insert]. apply Forall_insert; [done|lia].
Qed.

(** [local_pso_move] on a particle whose current vectors, best-so-far
    snapshot and global best are solutions of the data model: the moved
    particle holds a solution of the data model again, every assignment in
    [0,P), and its best-so-far snapshot is not touched. *)
Theorem local_pso_move_in_model o part g :
  optimizer_ok o -> best_in_model (problem o) (global_best o) ->
  particle_in_model (problem o) part ->
  solution_ok (problem o) (pbest_place part) (pbest_assign part) ->
  exists part' g',
    local_pso_move o part g = Ok (part', g') /\
    particle_in_model (problem o) part' /\ same_pbest part part'.
Proof.
  intros (HP & HT & _ & _) Hbest [[Hl1 Hr1] [Hl2 Hr2]] [[Hl3 Hr3] [Hl4 Hr4]].
  cut (wp (local_pso_move o part)
          (fun part' _ => particle_in_model (problem o) part' /\ same_pbest part part') g).
  { intros Hwp. apply wp_ok in Hwp as (part' & g' & Hrun & Hpost). by exists part', g'. }
  unfold local_pso_move.
  set (g_place := match global_best o with Some gb => fst gb | None => pbest_place part end).
  set (g_assign := match global_best o with Some gb => snd gb | None => pbest_assign part end).
  assert (Hg : solution_ok (problem o) g_place g_assign).
  { unfold g_place, g_assign. destruct (global_best o) as [gb|]; [exact Hbest|done]. }
  destruct Hg as [[Hgl Hgr] [Hgal Hgar]].
  apply wp_bind. eapply wp_mono.
  - apply (wp_for_each _ (fun _ pl _ => valid_placement (problem o) pl)); [done|].
    intros done p pl g' Hp [Hl Hr]. apply elem_of_range in Hp. unfold pso_place_step.
    apply wp_bind. eapply wp_mono; [by apply (wp_adopt_slot _ _ _ _ _ _ Hr3 Hr); lia|].
    intros pl1 g1 [Hr1' Hl1']. simpl in *.
    apply wp_bind. eapply wp_mono; [by apply (wp_adopt_slot _ _ _ _ _ _ Hgr Hr1'); lia|].
    intros pl2 g2 [Hr2' Hl2']. simpl in *.
    apply wp_bind. apply wp_random_random. intros r g3.
    destruct (Qltb r (5 # 100)).
    + apply wp_toggle_placement; [done| |done]. split; [lia|done].
    + apply wp_ret. split; [lia|done].
  - intros pl g1 Hpl. simpl in Hpl.
    apply wp_bind. eapply wp_mono.
    + apply (wp_for_each _ (fun _ ad _ => valid_assignment (problem o) ad)); [done|].
      intros done e ad g' He [Hl Hr]. apply elem_of_range in He. unfold pso_assign_step.
      apply wp_bind.
      eapply wp_mono; [by apply (wp_adopt_slot _ _ _ _ _ _ Hr4 Hr); lia|].
      intros ad1 g2 [Hr1' Hl1']. simpl in *.
      apply wp_bind.
      eapply wp_mono; [by apply (wp_adopt_slot _ _ _ _ _ _ Hgar Hr1'); lia|].
      intros ad2 g3 [Hr2' Hl2']. simpl in *.
      eapply wp_mono; [apply wp_jump_slot_range; [done|lia|done]|].
      intros ad3 g4 [Hr3' Hl3']. simpl in *. split; [lia|done].
    + intros ad g2 Had. apply wp_ret. simpl. done.
Qed.

End PsoMove.

Lemma local_pso_move_in_model_witness :
  exists part' g',
    local_pso_move (RS := script_source) two_fireflies (new_particle [1; 0] [0])
      [3; 1; 4]%nat = Ok (part', g') /\
    particle_in_model two_sites part' /\ same_pbest (new_particle [1; 0] [0]) part'.
Proof.
  apply (local_pso_move_in_model (RS := script_source) two_fireflies
           (new_particle [1; 0] [0]) [3; 1; 4]%nat).
  - split; [simpl; lia|]. split; [unfold T; simpl; lia|]. split; [|exact I].
    repeat constructor; vm_compute; discriminate.
  - exact I.
  - split; split; try reflexivity; repeat constructor; vm_compute; discriminate.
  - split; split; try reflexivity; repeat constructor; vm_compute; discriminate.
Defined.

(** * The boundary cases on concrete inputs *)

Lemma archive_update_cases_witness :
  nondominated_archive_update [archive_entry ([1], [0]) (cost_latency 1 1)]
    ([0], [0]) (cost_latency 2 2)
  = [archive_entry ([1], [0]) (cost_latency 1 1)].
Proof.
  apply (proj1 (archive_update_cases [archive_entry ([1], [0]) (cost_latency 1 1)]
                  ([0], [0]) (cost_latency 2 2))).
  exists (archive_entry ([1], [0]) (cost_latency 1 1)). split; [left|reflexivity].
Defined.

Lemma archive_updates_cover_witness :
  exists x,
    x ∈ archive_updates [archive_entry ([1], [0]) (cost_latency 1 1)]
          [(([0], [0]), cost_latency 2 2)] /\
    as_good (metrics x) (cost_latency 2 2).
Proof.
  apply (proj1 (archive_updates_cover [archive_entry ([1], [0]) (cost_latency 1 1)]
                  [(([0], [0]), cost_latency 2 2)]) (([0], [0]), cost_latency 2 2)).
  left.
Defined.

Lemma evaluate_index_error_witness :
  evaluate two_sites [1] [0] default_penalty_coeff = Raise IndexError.
Proof.
  apply (evaluate_index_error two_sites [1] [0] default_penalty_coeff).
  - repeat constructor; unfold fits_int64; lia.
  - repeat constructor; unfold fits_int64; lia.
  - left. simpl. lia.
Defined.

Lemma random_solution_value_error_witness :
  random_solution (RS := script_source) (no_locations two_sites) None [3; 1; 4]%nat
  = Raise ValueError.
Proof.
  apply (proj1 (random_solution_value_error (RS := script_source)
                  (no_locations two_sites) [3; 1; 4]%nat)).
  left. reflexivity.
Defined.
